(** * clusterinfo.LookupPeer: lazy connection state machine and bounded frame reader

    A shallow embedding of [internal/clusterinfo/lookup_peer.go].

    - Go's [int32]/[int64] values are integers in [Z]; byte slices are
      [list byte]; interface values that may be nil are [option]s.
    - Methods on [*LookupPeer] are computations in a small monad [M] that
      threads the system state, may panic, and records the externally
      visible calls they make (dials, socket reads and writes, deadline
      updates, handler invocations) in a trace.
    - The collaborators the file imports are modelled at their boundary:
      [io.ReadAtLeast]/[io.ReadFull] and [binary.Read] from the Go standard
      library, a [net.Conn] as a scripted connection, the command
      serializer as the sequence of slices it hands to [Write]. *)

From Stdlib Require Import ZArith Bool String List Lia.
From Stdlib.Strings Require Import Byte.
Import ListNotations.
Local Open Scope Z_scope.

Set Implicit Arguments.

(* ------------------------------------------------------------------ *)
(** ** Bytes and fixed-width integers *)

Definition bytes := list byte.

Definition byteZ (b : byte) : Z := Z.of_N (Byte.to_N b).

(** [binary.BigEndian.Uint32]:
    [uint32(b[3]) | uint32(b[2])<<8 | uint32(b[1])<<16 | uint32(b[0])<<24]. *)
Definition Uint32 (b : bytes) : Z :=
  match b with
  | b0 :: b1 :: b2 :: b3 :: _ =>
      Z.lor (Z.lor (Z.lor (byteZ b3) (Z.shiftl (byteZ b2) 8))
                   (Z.shiftl (byteZ b1) 16))
            (Z.shiftl (byteZ b0) 24)
  | _ => 0
  end.

(** The conversion [int32(u)] of a [uint32]: two's complement. *)
Definition int32 (u : Z) : Z := if u <? 2 ^ 31 then u else u - 2 ^ 32.

(** [nsq.MagicV1 = []byte("  V1")]. *)
Definition MagicV1 : bytes := [x20; x20; x56; x31]%byte.

(* ------------------------------------------------------------------ *)
(** ** Errors, panics, trace events *)

Inductive error : Type :=
| EOF                                    (* io.EOF *)
| ErrUnexpectedEOF                       (* io.ErrUnexpectedEOF *)
| ErrShortBuffer                         (* io.ErrShortBuffer *)
| ErrClosed                              (* use of closed network connection *)
| ErrNet (code : nat)                    (* any other net.Error: refused, reset, timeout *)
| ErrBodySize (msgSize limit : Z).       (* the fmt.Errorf of readResponseBounded *)

(** The text of the error built at lines 146-147 is
    ["response body size (%d) is greater than limit (%d)"]; only its two
    arguments matter here. *)
Definition is_size_limit_error (e : error) : bool :=
  match e with ErrBodySize _ _ => true | _ => false end.

Inductive panic : Type :=
| NilDereference                         (* call through a nil func or interface *)
| MakesliceLenOutOfRange (len : Z).      (* make([]byte, n) with n < 0 *)

(** The identity of a func value. *)
Definition funcId := nat.

(** The calls a method makes on its collaborators, in order. *)
Inductive event : Type :=
| EvLog (msg : string)
| EvDial (address : string) (ok : bool)
| EvSetReadDeadline
| EvSetWriteDeadline
| EvRead (want : nat) (got : bytes) (err : option error)
| EvWrite (data : bytes) (n : nat) (err : option error)
| EvClose (err : option error)
| EvCallback (f : funcId).

(* ------------------------------------------------------------------ *)
(** ** The monad: state, panics, trace *)

(** How a call ends: it returns, it panics, or it does not end. *)
Inductive outcome (A : Type) : Type :=
| Val (a : A)
| Panic (p : panic)
| Diverge.
Arguments Panic {A} p.
Arguments Diverge {A}.

Record Res (S A : Type) : Type := mkRes {
  out : outcome A;
  st : S;
  tr : list event
}.

Definition M (S A : Type) : Type := S -> Res S A.

Definition ret {S A} (a : A) : M S A := fun s => mkRes (Val a) s [].

(** [after t r]: the result [r] of a continuation, reached after the
    calls [t]. *)
Definition after {S A} (t : list event) (r : Res S A) : Res S A :=
  match r with mkRes o s t' => mkRes o s (t ++ t') end.

Definition bind {S A B} (m : M S A) (f : A -> M S B) : M S B := fun s =>
  match m s with
  | mkRes (Val a) s1 t1 => after t1 (f a s1)
  | mkRes (Panic p) s1 t1 => mkRes (Panic p) s1 t1
  | mkRes Diverge s1 t1 => mkRes Diverge s1 t1
  end.

Definition get {S} : M S S := fun s => mkRes (Val s) s [].
Definition emit {S} (e : event) : M S unit := fun s => mkRes (Val tt) s [e].
Definition throw {S A} (p : panic) : M S A := fun s => mkRes (Panic p) s [].
Definition spin {S A} : M S A := fun s => mkRes Diverge s [].

Declare Scope go_scope.
Delimit Scope go_scope with go.
Notation "x <- m ;; k" := (bind m (fun x => k))
  (at level 61, m at next level, right associativity) : go_scope.
Notation "' p <- m ;; k" := (bind m (fun x => let p := x in k))
  (at level 61, p pattern, m at next level, right associativity) : go_scope.
Notation "m ;; k" := (bind m (fun _ => k))
  (at level 61, right associativity) : go_scope.
Local Open Scope go_scope.

Definition is_nil {A} (o : option A) : bool :=
  match o with None => true | Some _ => false end.

(* ------------------------------------------------------------------ *)
(** ** Package io: the Reader and Writer interfaces, ReadAtLeast, ReadFull *)

(** [io.Reader]: [Read(p)] with [len(p) = want] yields the bytes stored in
    [p[:n]] and the error.

    The loop of [io.ReadAtLeast] has no bound in Go: a reader that keeps
    answering [(0, nil)] makes it spin for ever.  [patience s] is the
    number of calls after which a reader in state [s] is certain to have
    filled the request or reported an error; the loop runs on that much
    fuel and [Diverge] is the endless loop.  The readers of this file
    never get there ([stream_ReadFull_returns], [ReadFull_returns]). *)
Class Reader (S : Type) : Type := {
  io_Read : nat -> M S (bytes * option error);
  patience : S -> nat
}.

(** [io.Writer]: [Write(p)] yields the count written and the error. *)
Class Writer (S : Type) : Type := {
  io_Write : bytes -> M S (nat * option error)
}.

Section IO.
Context {S : Type} `{Reader S}.

(** The loop of [io.ReadAtLeast]:
    [for n < min && err == nil { nn, err = r.Read(buf[n:]); n += nn }]
    with [acc] the filled part [buf[:n]] and [size = len(buf)]. *)
Fixpoint ReadAtLeast_loop (fuel : nat) (size min : nat) (acc : bytes)
    (err : option error) : M S (bytes * option error) :=
  if (length acc <? min)%nat && is_nil err then
    match fuel with
    | O => spin
    | Datatypes.S fuel' =>
        ' (got, err') <- io_Read (size - length acc) ;;
        ReadAtLeast_loop fuel' size min (acc ++ got) err'
    end
  else ret (acc, err).

Definition io_ReadAtLeast (size min : nat) : M S (bytes * option error) :=
  if (size <? min)%nat then ret ([], Some ErrShortBuffer)
  else
    s <- get ;;
    ' (acc, err) <- ReadAtLeast_loop (patience s) size min [] None ;;
    if (min <=? length acc)%nat then ret (acc, None)
    else if (0 <? length acc)%nat
         then match err with
              | Some EOF => ret (acc, Some ErrUnexpectedEOF)
              | _ => ret (acc, err)
              end
         else ret (acc, err).

(** [io.ReadFull(r, buf) = ReadAtLeast(r, buf, len(buf))]. *)
Definition io_ReadFull (size : nat) : M S (bytes * option error) :=
  io_ReadAtLeast size size.

(** [binary.Read(r, binary.BigEndian, &msgSize)] for [msgSize int32]:
    a full read of four bytes, then [int32(order.Uint32(bs))]; on error
    the variable keeps its zero value. *)
Definition binary_Read_int32 : M S (Z * option error) :=
  ' (bs, err) <- io_ReadFull 4 ;;
  match err with
  | Some e => ret (0, Some e)
  | None => ret (int32 (Uint32 bs), None)
  end.

(** [make([]byte, n)] for a signed [n]: panics when [n < 0]. *)
Definition make_bytes (n : Z) : M S nat :=
  if n <? 0 then throw (MakesliceLenOutOfRange n) else ret (Z.to_nat n).

(** lookup_peer.go:136-158. *)
Definition readResponseBounded (limit : Z) : M S (option bytes * option error) :=
  ' (msgSize, err) <- binary_Read_int32 ;;
  match err with
  | Some e => ret (None, Some e)
  | None =>
      if limit <? msgSize then ret (None, Some (ErrBodySize msgSize limit))
      else
        size <- make_bytes msgSize ;;
        ' (buf, err) <- io_ReadFull size ;;
        match err with
        | Some e => ret (None, Some e)
        | None => ret (Some buf, None)
        end
  end.
End IO.

(* ------------------------------------------------------------------ *)
(** ** Byte streams with short reads and errors *)

(** What the remote end makes available to successive [Read] calls: each
    entry is a burst of bytes, possibly closed by an error delivered with
    its last byte.  A request smaller than the burst takes a prefix and
    leaves the rest; an exhausted stream reports [EOF]. *)
Inductive burst : Type := Rd (data : bytes) (err : option error).

Definition stream := list burst.

Definition stream_read (want : nat) (s : stream) : (bytes * option error) * stream :=
  match s with
  | [] => (([], Some EOF), [])
  | Rd data err :: s' =>
      if (want <? length data)%nat
      then ((firstn want data, None), Rd (skipn want data) err :: s')
      else ((data, err), s')
  end.

Definition stream_Read (want : nat) : M stream (bytes * option error) := fun s =>
  let (v, s') := stream_read want s in mkRes (Val v) s' [].

#[export] Instance stream_Reader : Reader stream := {
  io_Read := stream_Read;
  patience := fun s => Datatypes.S (length s)
}.

(** The bytes a stream delivers before its first error. *)
Fixpoint available (s : stream) : bytes :=
  match s with
  | [] => []
  | Rd data None :: s' => data ++ available s'
  | Rd data (Some _) :: _ => data
  end.

(* ------------------------------------------------------------------ *)
(** ** Package net: connections and dialing *)

(** How the next [Write] on a connection behaves: everything is accepted,
    or only [n] bytes are before error [e]. *)
Inductive wr_event : Type := WrOk | WrFail (n : nat) (e : error).

(** A [net.Conn]: the bytes the peer will send, the fate of the coming
    writes (every write succeeds once the script is used up), the log of
    the [Write] calls made so far with the count each one accepted, and
    whether [Close] was called. *)
Record Conn : Type := mkConn {
  conn_id : nat;
  incoming : stream;
  wscript : list wr_event;
  wlog : list (bytes * nat);
  closed : bool
}.

Definition conn_Read (want : nat) (c : Conn) : (bytes * option error) * Conn :=
  if closed c then (([], Some ErrClosed), c)
  else
    let (v, s') := stream_read want (incoming c) in
    (v, mkConn (conn_id c) s' (wscript c) (wlog c) (closed c)).

Definition conn_Write (data : bytes) (c : Conn) : (nat * option error) * Conn :=
  if closed c then ((0%nat, Some ErrClosed), c)
  else
    match wscript c with
    | WrFail n e :: ws =>
        let k := Nat.min n (length data) in
        ((k, Some e),
         mkConn (conn_id c) (incoming c) ws (wlog c ++ [(data, k)]) (closed c))
    | ws =>
        ((length data, None),
         mkConn (conn_id c) (incoming c) (tl ws)
                (wlog c ++ [(data, length data)]) (closed c))
    end.

(** [SetReadDeadline]/[SetWriteDeadline]: time is not modelled, so the
    deadline leaves no mark on the connection; an expired deadline shows
    as an error scripted in [incoming] or [wscript]. *)
Definition conn_SetDeadline (c : Conn) : option error * Conn :=
  ((if closed c then Some ErrClosed else None), c).

(** Closing twice reports "use of closed network connection". *)
Definition conn_Close (c : Conn) : option error * Conn :=
  ((if closed c then Some ErrClosed else None),
   mkConn (conn_id c) (incoming c) (wscript c) (wlog c) true).

(** The bytes the peer has received on a connection. *)
Definition sent (c : Conn) : bytes :=
  concat (map (fun w => firstn (snd w) (fst w)) (wlog c)).

(** The outcome of one [net.DialTimeout]: an error, or a fresh connection
    with the given behaviour. *)
Inductive dial : Type :=
| DialErr (e : error)
| DialOk (inc : stream) (ws : list wr_event).

(** The network as the program meets it: the outcomes of the coming dials
    (an exhausted list refuses every connection) and how many dials were
    made, which numbers the connections. *)
Record World : Type := mkWorld {
  dials : list dial;
  dialed : nat
}.

(* ------------------------------------------------------------------ *)
(** ** lookup_peer.go: data *)

(** A [levellogger.Logger]: what it is given shows as [EvLog]. *)
Definition Logger := nat.

(** lookup_peer.go:30-35. *)
Record peerInfo : Type := mkPeerInfo {
  TCPPort : Z;
  HTTPPort : Z;
  Version : string;
  BroadcastAddress : string
}.

(** lookup_peer.go:19-27.  A func value is a reference to code:
    [connectCallback] holds the identifier of a handler, whose behaviour a
    table supplies (see [Section Peer]); [None] is the nil func.  The
    connection object is kept in the field that refers to it: the field is
    unexported and only these methods reach it, so it has no alias. *)
Record LookupPeer : Type := mkLookupPeer {
  l : option Logger;
  addr : string;
  conn : option Conn;
  state : Z;
  connectCallback : option funcId;
  maxBodySize : Z;
  Info : peerInfo
}.

(** lookup_peer.go:41-47. *)
Definition stateInit : Z := 0.
Definition stateDisconnected : Z := 1.
Definition stateConnected : Z := 2.
Definition stateSubscribed : Z := 3.
Definition stateClosing : Z := 4.

(** lookup_peer.go:52-60. *)
Definition NewLookupPeer (addr : string) (maxBodySize : Z) (l : option Logger)
    (connectCallback : option funcId) : LookupPeer :=
  {| l := l;
     addr := addr;
     conn := None;
     state := stateDisconnected;
     connectCallback := connectCallback;
     maxBodySize := maxBodySize;
     Info := mkPeerInfo 0 0 EmptyString EmptyString |}.

(** One instance and the network it talks to. *)
Record Sys : Type := mkSys {
  peer : LookupPeer;
  world : World
}.

Definition set_conn (c : option Conn) (lp : LookupPeer) : LookupPeer :=
  mkLookupPeer (l lp) (addr lp) c (state lp) (connectCallback lp)
               (maxBodySize lp) (Info lp).

Definition set_state (x : Z) (lp : LookupPeer) : LookupPeer :=
  mkLookupPeer (l lp) (addr lp) (conn lp) x (connectCallback lp)
               (maxBodySize lp) (Info lp).

Definition update_peer (f : LookupPeer -> LookupPeer) : M Sys unit := fun s =>
  mkRes (Val tt) (mkSys (f (peer s)) (world s)) [].

(** [net.DialTimeout("tcp", address, lookupTimeout)]. *)
Definition net_DialTimeout (address : string) : M Sys (option Conn * option error) :=
  fun s =>
    let w := world s in
    match dials w with
    | [] =>
        mkRes (Val (None, Some (ErrNet 0))) s [EvDial address false]
    | DialErr e :: ds =>
        mkRes (Val (None, Some e))
              (mkSys (peer s) (mkWorld ds (Datatypes.S (dialed w))))
              [EvDial address false]
    | DialOk inc ws :: ds =>
        mkRes (Val (Some (mkConn (dialed w) inc ws [] false), None))
              (mkSys (peer s) (mkWorld ds (Datatypes.S (dialed w))))
              [EvDial address true]
    end.

(* ------------------------------------------------------------------ *)
(** ** lookup_peer.go: methods *)

(** A method call on [lp.conn]: a nil interface panics. *)
Definition on_conn {A} (f : Conn -> A * Conn) : M Sys A :=
  s <- get ;;
  match conn (peer s) with
  | None => throw NilDereference
  | Some c => let (a, c') := f c in
              update_peer (set_conn (Some c')) ;; ret a
  end.

(** lookup_peer.go:63-73. *)
Definition Connect : M Sys (option error) :=
  s <- get ;;
  match l (peer s) with
  | Some _ => emit (EvLog ("LOOKUP connecting to " ++ addr (peer s)))
  | None => ret tt
  end ;;
  ' (c, err) <- net_DialTimeout (addr (peer s)) ;;
  match err with
  | Some e => ret (Some e)
  | None => update_peer (set_conn c) ;; ret None
  end.

(** lookup_peer.go:76-78. *)
Definition LookupPeer_String : M Sys string :=
  s <- get ;; ret (addr (peer s)).

(** lookup_peer.go:81-84. *)
Definition Read (want : nat) : M Sys (bytes * option error) :=
  on_conn conn_SetDeadline ;; emit EvSetReadDeadline ;;
  ' (got, err) <- on_conn (conn_Read want) ;;
  emit (EvRead want got err) ;;
  ret (got, err).

(** lookup_peer.go:87-90. *)
Definition Write (data : bytes) : M Sys (nat * option error) :=
  on_conn conn_SetDeadline ;; emit EvSetWriteDeadline ;;
  ' (n, err) <- on_conn (conn_Write data) ;;
  emit (EvWrite data n err) ;;
  ret (n, err).

(** lookup_peer.go:93-99. *)
Definition Close : M Sys (option error) :=
  update_peer (set_state stateDisconnected) ;;
  s <- get ;;
  match conn (peer s) with
  | Some _ => err <- on_conn conn_Close ;; emit (EvClose err) ;; ret err
  | None => ret None
  end.

(** [*LookupPeer] is the [io.Reader] handed to [readResponseBounded] and
    the [io.Writer] handed to [WriteTo]. *)
#[export] Instance LookupPeer_Reader : Reader Sys := {
  io_Read := Read;
  patience := fun s =>
    match conn (peer s) with
    | Some c => Datatypes.S (length (incoming c))
    | None => 1%nat
    end
}.

#[export] Instance LookupPeer_Writer : Writer Sys := {
  io_Write := Write
}.

(** The command serializer of the nsq client library, known to this file
    only through [WriteTo(io.Writer)]: a command is the sequence of slices
    it hands to [Write], stopping at the first error and reporting the
    total written. *)
Record nsq_Command : Type := mkCommand {
  slices : list bytes
}.

Section Serializer.
Context {S : Type} `{Writer S}.

Fixpoint write_slices (ps : list bytes) (total : Z) : M S (Z * option error) :=
  match ps with
  | [] => ret (total, None)
  | p :: ps' =>
      ' (n, err) <- io_Write p ;;
      match err with
      | Some e => ret (total + Z.of_nat n, Some e)
      | None => write_slices ps' (total + Z.of_nat n)
      end
  end.

Definition WriteTo (cmd : nsq_Command) : M S (Z * option error) :=
  write_slices (slices cmd) 0.
End Serializer.

Section Peer.
(** The handlers an instance can be given: what running handler [f] on
    the instance does to the system, and whether it returns. *)
Variable handlers : funcId -> Sys -> outcome unit * Sys.

(** [lp.connectCallback(lp)]: calling a nil func value panics. *)
Definition call_connectCallback : M Sys unit := fun s =>
  match connectCallback (peer s) with
  | None => mkRes (Panic NilDereference) s []
  | Some f => let (o, s') := handlers f s in mkRes o s' [EvCallback f]
  end.

(** lookup_peer.go:108-119: the lazy connect; [Some e] is the early
    [return nil, err]. *)
Definition Command_connect : M Sys (option error) :=
  s <- get ;;
  let initialState := state (peer s) in
  if negb (state (peer s) =? stateConnected) then
    err <- Connect ;;
    match err with
    | Some e => ret (Some e)
    | None =>
        update_peer (set_state stateConnected) ;;
        Write MagicV1 ;;
        (if initialState =? stateDisconnected
         then call_connectCallback else ret tt) ;;
        ret None
    end
  else ret None.

(** lookup_peer.go:120-133: the round trip. *)
Definition Command_roundtrip (cmd : option nsq_Command)
    : M Sys (option bytes * option error) :=
  match cmd with
  | None => ret (None, None)
  | Some c =>
      ' (_, err) <- WriteTo c ;;
      match err with
      | Some e => Close ;; ret (None, Some e)
      | None =>
          s <- get ;;
          ' (resp, err) <- readResponseBounded (maxBodySize (peer s)) ;;
          match err with
          | Some e => Close ;; ret (None, Some e)
          | None => ret (resp, None)
          end
      end
  end.

(** lookup_peer.go:107-134. *)
Definition Command (cmd : option nsq_Command)
    : M Sys (option bytes * option error) :=
  err <- Command_connect ;;
  match err with
  | Some e => ret (None, Some e)
  | None => Command_roundtrip cmd
  end.
End Peer.

(* ------------------------------------------------------------------ *)
(** ** The vocabulary of the statements *)

(** The error that ends the available part of a stream. *)
Fixpoint first_error (s : stream) : error :=
  match s with
  | [] => EOF
  | Rd _ None :: s' => first_error s'
  | Rd _ (Some e) :: _ => e
  end.

(** A stream that simply ends: no burst carries an error. *)
Definition ends_cleanly (s : stream) : bool :=
  forallb (fun b => match b with Rd _ err => is_nil err end) s.

(** The error [io.ReadFull] reports when the stream falls short. *)
Definition short_error (s : stream) : error :=
  match available s, first_error s with
  | _ :: _, EOF => ErrUnexpectedEOF
  | _, e => e
  end.

(** The instance holds an open connection whose pending input is [i]. *)
Definition open_on (s : Sys) (i : stream) : Prop :=
  exists c, conn (peer s) = Some c /\ closed c = false /\ incoming c = i.

(** The system once the held connection's pending input has become [i]. *)
Definition replace_incoming (i : stream) (s : Sys) : Sys :=
  match conn (peer s) with
  | Some c =>
      mkSys (set_conn (Some (mkConn (conn_id c) i (wscript c) (wlog c) (closed c)))
                      (peer s))
            (world s)
  | None => s
  end.

(** The calls [Read] makes. *)
Definition is_read_event (e : event) : bool :=
  match e with
  | EvSetReadDeadline | EvRead _ _ _ => true
  | _ => false
  end.

(** A computation on the instance does what the same computation does on
    the connection's input stream, and only reads. *)
Definition mirrors {A} (R : Res Sys A) (r : Res stream A) (s : Sys) : Prop :=
  out R = out r /\ st R = replace_incoming (st r) s /\
  forallb is_read_event (tr R) = true.

(** The system with [lp.conn] set to [c]. *)
Definition with_conn (c : Conn) (s : Sys) : Sys :=
  mkSys (set_conn (Some c) (peer s)) (world s).

(** The system with [lp.state] set to [x]. *)
Definition with_state (x : Z) (s : Sys) : Sys :=
  mkSys (set_state x (peer s)) (world s).

(** The calls [Connect] makes before it returns. *)
Definition connect_log (s : Sys) : list event :=
  match l (peer s) with
  | Some _ => [EvLog ("LOOKUP connecting to " ++ addr (peer s))]
  | None => []
  end.

(** The network after one more dial. *)
Definition dial_next (w : World) : World :=
  mkWorld (tl (dials w)) (Datatypes.S (dialed w)).

(** The same connection object, possibly after more reads and writes. *)
Definition same_handle (c c' : option Conn) : Prop :=
  match c, c' with
  | None, None => True
  | Some c, Some c' =>
      conn_id c' = conn_id c /\ closed c' = closed c /\
      exists more, wlog c' = wlog c ++ more
  | _, _ => False
  end.

(** [s'] is [s] after reads and writes on the held connection: the
    network, every field of the instance but [conn], and the identity of
    the connection are untouched. *)
Definition steady (s s' : Sys) : Prop :=
  world s' = world s /\
  set_conn None (peer s') = set_conn None (peer s) /\
  same_handle (conn (peer s)) (conn (peer s')).

(** Calls on the held connection: neither a log line, nor a dial, nor
    an invocation of the handler. *)
Definition is_io_event (e : event) : bool :=
  match e with
  | EvLog _ | EvDial _ _ | EvCallback _ => false
  | _ => true
  end.

(** A computation that only reads and writes on the held connection. *)
Definition quiet {A} (m : M Sys A) : Prop :=
  forall s, steady s (st (m s)) /\ forallb is_io_event (tr (m s)) = true.

(** The bytes the socket reads of a trace delivered, in order. *)
Definition bytes_read (t : list event) : bytes :=
  flat_map (fun e => match e with EvRead _ got _ => got | _ => [] end) t.

(** The handlers a trace invoked, in order. *)
Definition invocations (t : list event) : list funcId :=
  flat_map (fun e => match e with EvCallback f => [f] | _ => [] end) t.

(** A computation whose calls are all on the held connection. *)
Definition io_only {A} (m : M Sys A) : Prop :=
  forall s, forallb is_io_event (tr (m s)) = true.

(** The connection a successful dial hands out. *)
Definition dialed_conn (s : Sys) (inc : stream) (ws : list wr_event) : Conn :=
  mkConn (dialed (world s)) inc ws [] false.

(** The system as [Command] leaves it after a successful [Connect], the
    state update and the write of the preamble: what the handler sees. *)
Definition greeted (s : Sys) (inc : stream) (ws : list wr_event) : Sys :=
  with_conn (snd (conn_Write MagicV1 (dialed_conn s inc ws)))
    (with_state stateConnected
       (mkSys (set_conn (Some (dialed_conn s inc ws)) (peer s))
              (dial_next (world s)))).

(** The calls made up to that point. *)
Definition greeting (s : Sys) (inc : stream) (ws : list wr_event) : list event :=
  connect_log s ++
  [EvDial (addr (peer s)) true;
   EvSetWriteDeadline;
   EvWrite MagicV1 (fst (fst (conn_Write MagicV1 (dialed_conn s inc ws))))
           (snd (fst (conn_Write MagicV1 (dialed_conn s inc ws))))].

(** How many dials a trace made. *)
Definition dial_count (t : list event) : nat :=
  length (filter (fun e => match e with EvDial _ _ => true | _ => false end) t).

(** Connected implies a connection is held. *)
Definition handle_present (s : Sys) : Prop :=
  state (peer s) = stateConnected -> conn (peer s) <> None.

(** Connected implies the first write made on the held connection was a
    write of the magic preamble. *)
Definition preamble_attempted (s : Sys) : Prop :=
  state (peer s) = stateConnected ->
  exists c n more, conn (peer s) = Some c /\ wlog c = (MagicV1, n) :: more.

(** Connected implies the peer received the magic preamble as the first
    bytes of the held connection. *)
Definition preamble_sent (s : Sys) : Prop :=
  state (peer s) = stateConnected ->
  exists c more, conn (peer s) = Some c /\ sent c = MagicV1 ++ more.

(* ------------------------------------------------------------------ *)
(** ** Scenarios *)

Definition PING : bytes := [x50; x49; x4e; x47]%byte.
Definition PONG : bytes := [x50; x4f; x4e; x47]%byte.

(** A command that serializes as the name and a newline. *)
Definition ping : nsq_Command := mkCommand [PING; [x0a]%byte].

(** Handlers that return at once. *)
Definition idle_handlers (f : funcId) (s : Sys) : outcome unit * Sys := (Val tt, s).

(** Handlers that close the instance they are given, as a handler does
    when its own exchange with the peer fails. *)
Definition closing_handlers (f : funcId) (s : Sys) : outcome unit * Sys :=
  (Val tt, st (Close s)).

Definition fresh_peer : LookupPeer :=
  NewLookupPeer "127.0.0.1:4160" 1024 None (Some 0%nat).

(** A server that answers the first exchange with the frame
    [00 00 00 04 "PONG"], delivered in three bursts. *)
Definition pong_stream : stream :=
  [Rd [x00; x00]%byte None; Rd [x00; x04; x50; x4f]%byte None;
   Rd [x4e; x47]%byte None].

Definition pong_server : World := mkWorld [DialOk pong_stream []] 0.

(** A server that declares a body of 2048 bytes. *)
Definition big_stream : stream :=
  [Rd [x00; x00; x08; x00; x01; x02]%byte None].

(** A server that declares a body of -1 bytes. *)
Definition negative_stream : stream := [Rd [xff; xff; xff; xff]%byte None].

(** A server that accepts the connection and says nothing. *)
Definition silent_server : World := mkWorld [DialOk [] []] 0.

(** A network that refuses the connection. *)
Definition refusing_network : World := mkWorld [DialErr (ErrNet 111)] 0.

(** A server whose connection fails the first write. *)
Definition deaf_server : World :=
  mkWorld [DialOk [] [WrFail 0 (ErrNet 104)]] 0.

(** The instance after one successful [Command(nil)]. *)
Definition connected_once : Sys :=
  st (Command idle_handlers None (mkSys fresh_peer silent_server)).

(** A server that truncates its first answer, on a network that refuses
    the next connection. *)
Definition flaky_then_refused : World :=
  mkWorld [DialOk [Rd [x00; x00; x00; x04; x50; x4f]%byte None] [];
           DialErr (ErrNet 111)] 0.

(** The instance after a first [Command] that met the truncated frame. *)
Definition stranded : Sys :=
  st (Command idle_handlers (Some ping) (mkSys fresh_peer flaky_then_refused)).

(** A server that answers the first exchange with a truncated frame and
    the second one in full. *)
Definition flaky_then_pong : World :=
  mkWorld [DialOk [Rd [x00; x00; x00; x04; x50; x4f]%byte None] [];
           DialOk pong_stream []] 0.

(** The instance after a first [Command] that met the truncated frame. *)
Definition after_failure : Sys :=
  st (Command idle_handlers (Some ping) (mkSys fresh_peer flaky_then_pong)).

(** Two servers in a row, both silent. *)
Definition two_servers : World := mkWorld [DialOk [] []; DialOk [] []] 0.

(** The instance after one successful [Command(nil)] against them. *)
Definition connected_to_first : Sys :=
  st (Command idle_handlers None (mkSys fresh_peer two_servers)).

(* ------------------------------------------------------------------ *)
(** ** More vocabulary: writes, configuration, live states *)

(** The slices the [Write] calls of a trace were given, in order. *)
Definition writes (t : list event) : list bytes :=
  flat_map (fun e => match e with EvWrite data _ _ => [data] | _ => [] end) t.

(** How many [Read] calls a trace made on the connection. *)
Definition read_count (t : list event) : nat :=
  length (filter (fun e => match e with EvRead _ _ _ => true | _ => false end) t).

(** The calls [Write] makes. *)
Definition is_write_event (e : event) : bool :=
  match e with
  | EvSetWriteDeadline | EvWrite _ _ _ => true
  | _ => false
  end.

(** The calls [Connect] makes. *)
Definition is_connect_event (e : event) : bool :=
  match e with
  | EvLog _ | EvDial _ _ => true
  | _ => false
  end.

(** A connection after it accepted the slices [ps] in full. *)
Definition accept (ps : list bytes) (c : Conn) : Conn :=
  mkConn (conn_id c) (incoming c) (wscript c)
         (wlog c ++ map (fun p => (p, length p)) ps) (closed c).

(** The fields no method of the file assigns. *)
Definition config (lp : LookupPeer) :
    option Logger * string * option funcId * Z * peerInfo :=
  (l lp, addr lp, connectCallback lp, maxBodySize lp, Info lp).

(** The two states the methods assign. *)
Definition live_state (s : Sys) : Prop :=
  state (peer s) = stateDisconnected \/ state (peer s) = stateConnected.

(** An instance as a zero-valued struct literal gives it: state
    [stateInit], no handler, no connection. *)
Definition zero_peer (address : string) (limit : Z) : LookupPeer :=
  mkLookupPeer None address None stateInit None limit
               (mkPeerInfo 0 0 EmptyString EmptyString).

(** A server that answers two exchanges on one connection, "PONG" and
    then "OK". *)
Definition chatty_stream : stream :=
  [Rd [x00; x00; x00; x04; x50; x4f]%byte None;
   Rd [x4e; x47; x00; x00; x00; x02; x4f]%byte None;
   Rd [x4b]%byte None].

Definition chatty_server : World := mkWorld [DialOk chatty_stream []] 0.

(** A server whose connection is reset after the header and one byte. *)
Definition reset_stream : stream :=
  [Rd [x00; x00; x00; x04; x50]%byte (Some (ErrNet 104))].

(** The instance after the first exchange with the chatty server. *)
Definition after_pong : Sys :=
  st (Command idle_handlers (Some ping) (mkSys fresh_peer chatty_server)).

Definition OK : bytes := [x4f; x4b]%byte.

(** The instance is Connected and holds connection [c], which is open
    and whose coming writes all succeed. *)
Definition healthy (s : Sys) (c : Conn) : Prop :=
  state (peer s) = stateConnected /\ conn (peer s) = Some c /\
  closed c = false /\ wscript c = [].

(* ------------------------------------------------------------------ *)
(** ** Reading from a stream *)

Lemma app_eq_firstn (A : Type) (d x data rest : list A) :
  d ++ x = data ++ rest -> (length data <= length d)%nat ->
  data = firstn (length data) d /\ rest = skipn (length data) d ++ x.
Proof.
  revert data. induction d as [|a d IH]; intros [|b data] E L; simpl in *;
    try (split; [reflexivity | congruence]); try lia.
  injection E as -> E. destruct (IH data E ltac:(lia)) as [H1 H2].
  split; [f_equal; exact H1 | exact H2].
Qed.

Lemma app_eq_prefix (A : Type) (d x data rest : list A) :
  d ++ x = data ++ rest -> (length d <= length data)%nat ->
  exists data', data = d ++ data' /\ x = data' ++ rest.
Proof.
  revert data. induction d as [|a d IH]; intros data E L; simpl in *.
  - exists data. split; [reflexivity | exact E].
  - destruct data as [|b data]; simpl in *; [lia|].
    injection E as -> E. destruct (IH data E ltac:(lia)) as (data' & -> & ->).
    exists data'. split; reflexivity.
Qed.

Lemma ends_cleanly_first_error (s : stream) :
  ends_cleanly s = true -> first_error s = EOF.
Proof.
  induction s as [|[d [e|]] s IH]; simpl; intros C;
    [reflexivity | discriminate | exact (IH C)].
Qed.

(** Enough bytes available: the loop of ReadAtLeast collects exactly the
    bytes asked for, whatever the bursts they arrive in. *)
Lemma stream_loop_full (s : stream) :
  forall fuel n acc data rest,
    available s = data ++ rest ->
    (length s < fuel)%nat ->
    n = (length acc + length data)%nat ->
    exists s' err,
      ReadAtLeast_loop fuel n n acc None s = mkRes (Val (acc ++ data, err)) s' [] /\
      (rest = [] \/ available s' = rest) /\
      (ends_cleanly s = true -> ends_cleanly s' = true /\ available s' = rest).
Proof.
  induction s as [|[d e] s IH]; intros fuel n acc data rest Hav Hf Hn.
  - simpl in Hav. destruct data; [|discriminate]. simpl in Hav. subst rest.
    destruct fuel; [lia|]. simpl.
    replace (length acc <? n)%nat with false by (symmetry; apply Nat.ltb_ge; simpl in Hn; lia).
    simpl. rewrite app_nil_r. eexists _, _. repeat split; now left.
  - destruct fuel as [|fuel]; [lia|]. simpl.
    destruct (Nat.ltb_spec (length acc) n) as [Hlt|Hge]; simpl.
    2:{ assert (data = []) by (destruct data; [reflexivity | simpl in Hn; lia]).
        subst data. rewrite app_nil_r. eexists _, _.
        split; [reflexivity|]. split; [right; exact Hav|].
        intros C. split; [exact C | exact Hav]. }
    replace (n - length acc)%nat with (length data) by lia.
    unfold bind at 1. cbn [io_Read stream_Reader]. unfold stream_Read. simpl.
    assert (Hd : exists x, available (Rd d e :: s) = d ++ x /\
                           (e = None -> x = available s) /\ (e <> None -> x = [])).
    { destruct e; simpl.
      - exists []. rewrite app_nil_r. repeat split; congruence.
      - exists (available s). repeat split; congruence. }
    destruct Hd as (x & Hx & HxN & HxS). rewrite Hx in Hav.
    destruct (Nat.ltb_spec (length data) (length d)) as [Hshort|Hlong]; simpl.
    + destruct (app_eq_firstn _ _ _ _ Hav ltac:(lia)) as [Hdata Hrest].
      rewrite <- Hdata.
      assert (Hav' : available (Rd (skipn (length data) d) e :: s) = rest).
      { rewrite Hrest. destruct e; simpl;
          [rewrite (HxS ltac:(congruence)), app_nil_r | rewrite (HxN eq_refl)];
          reflexivity. }
      destruct fuel; simpl;
        (replace (length (acc ++ data) <? n)%nat with false
           by (symmetry; apply Nat.ltb_ge; rewrite length_app; lia)); simpl;
        eexists _, _; (split; [reflexivity|]);
        (split; [right; exact Hav' | intros C; split; [exact C | exact Hav']]).
    + destruct (app_eq_prefix _ _ _ _ Hav Hlong) as (data' & -> & Hx').
      destruct e as [er|].
      * rewrite (HxS ltac:(congruence)) in Hx'.
        symmetry in Hx'. apply app_eq_nil in Hx'. destruct Hx' as [-> ->].
        rewrite app_nil_r.
        destruct fuel; simpl;
          (replace (length (acc ++ d) <? n)%nat with false
             by (symmetry; apply Nat.ltb_ge; rewrite length_app;
                 rewrite length_app in Hn; simpl in Hn; lia)); simpl;
          eexists _, _; (split; [reflexivity|]);
          (split; [now left | discriminate]).
      * rewrite (HxN eq_refl) in Hx'.
        destruct (IH fuel n (acc ++ d) data' rest Hx' ltac:(simpl in Hf; lia))
          as (s' & err & Hrun & Hrest & Hclean).
        { rewrite !length_app in *. lia. }
        rewrite Hrun. simpl. rewrite <- app_assoc.
        eexists _, _. split; [reflexivity|]. split; [exact Hrest | exact Hclean].
Qed.

(** Too few bytes before the stream's first error: the loop collects what
    there is and stops on that error. *)
Lemma stream_loop_short (s : stream) :
  forall fuel n acc,
    (length s < fuel)%nat ->
    (length acc + length (available s) < n)%nat ->
    exists s',
      ReadAtLeast_loop fuel n n acc None s =
      mkRes (Val (acc ++ available s, Some (first_error s))) s' [].
Proof.
  induction s as [|[d e] s IH]; intros fuel n acc Hf Hn;
    (destruct fuel as [|fuel]; [simpl in Hf; lia|]); simpl in *.
  - replace (length acc <? n)%nat with true by (symmetry; apply Nat.ltb_lt; lia).
    simpl. unfold bind at 1. cbn [io_Read stream_Reader]. unfold stream_Read. simpl.
    destruct fuel; simpl; rewrite andb_false_r; simpl; eexists; reflexivity.
  - assert (Hd : (length acc + length d < n)%nat).
    { destruct e; simpl in Hn; rewrite ?length_app in Hn; lia. }
    replace (length acc <? n)%nat with true by (symmetry; apply Nat.ltb_lt; lia).
    simpl. unfold bind at 1. cbn [io_Read stream_Reader]. unfold stream_Read. simpl.
    replace (n - length acc <? length d)%nat with false
      by (symmetry; apply Nat.ltb_ge; lia).
    simpl. destruct e as [er|].
    + destruct fuel; simpl; rewrite andb_false_r; simpl; eexists; reflexivity.
    + destruct (IH fuel n (acc ++ d) ltac:(lia)) as (s' & Hrun).
      { rewrite length_app in *. lia. }
      rewrite Hrun. simpl. rewrite <- app_assoc. eexists; reflexivity.
Qed.

Lemma stream_ReadFull_ok (s : stream) (data rest : bytes) :
  available s = data ++ rest ->
  exists s',
    io_ReadFull (length data) s = mkRes (Val (data, None)) s' [] /\
    (rest = [] \/ available s' = rest) /\
    (ends_cleanly s = true -> ends_cleanly s' = true /\ available s' = rest).
Proof.
  intros Hav.
  destruct (@stream_loop_full s (Datatypes.S (length s)) (length data)
              [] data rest Hav ltac:(lia) eq_refl) as (s' & err & Hrun & Hrest).
  exists s'. split; [|exact Hrest].
  unfold io_ReadFull, io_ReadAtLeast. rewrite Nat.ltb_irrefl.
  unfold bind at 1. unfold get at 1. cbn [out st tr patience stream_Reader].
  unfold bind at 1. rewrite Hrun. cbn [out st tr app].
  rewrite Nat.leb_refl. reflexivity.
Qed.

Lemma stream_ReadFull_short (s : stream) (n : nat) :
  (length (available s) < n)%nat ->
  exists s',
    io_ReadFull n s = mkRes (Val (available s, Some (short_error s))) s' [].
Proof.
  intros Hn.
  destruct (@stream_loop_short s (Datatypes.S (length s)) n []
              ltac:(lia) ltac:(simpl; lia)) as (s' & Hrun).
  exists s'.
  unfold io_ReadFull, io_ReadAtLeast. rewrite Nat.ltb_irrefl.
  unfold bind at 1. unfold get at 1. cbn [out st tr patience stream_Reader].
  unfold bind at 1. rewrite Hrun. cbn [out st tr app].
  replace (n <=? length (available s))%nat with false
    by (symmetry; apply Nat.leb_gt; exact Hn).
  unfold short_error.
  destruct (available s); simpl; [reflexivity|].
  destruct (first_error s); reflexivity.
Qed.

(* ------------------------------------------------------------------ *)
(** ** Laws of the monad *)

Lemma after_nil S A (r : Res S A) : after [] r = r.
Proof. destruct r; reflexivity. Qed.

Lemma after_after S A (t1 t2 : list event) (r : Res S A) :
  after t1 (after t2 r) = after (t1 ++ t2) r.
Proof. destruct r; simpl. now rewrite app_assoc. Qed.

Lemma out_after S A (t : list event) (r : Res S A) : out (after t r) = out r.
Proof. destruct r; reflexivity. Qed.

Lemma st_after S A (t : list event) (r : Res S A) : st (after t r) = st r.
Proof. destruct r; reflexivity. Qed.

Lemma tr_after S A (t : list event) (r : Res S A) : tr (after t r) = t ++ tr r.
Proof. destruct r; reflexivity. Qed.

Lemma bind_val S A B (m : M S A) (f : A -> M S B) s a s1 t1 :
  m s = mkRes (Val a) s1 t1 -> bind m f s = after t1 (f a s1).
Proof. intros E. unfold bind. now rewrite E. Qed.
Arguments bind_val {S A B m} f {s a s1 t1} _.

Lemma bind_panic S A B (m : M S A) (f : A -> M S B) s p s1 t1 :
  m s = mkRes (Panic p) s1 t1 -> bind m f s = mkRes (Panic p) s1 t1.
Proof. intros E. unfold bind. now rewrite E. Qed.
Arguments bind_panic {S A B m} f {s p s1 t1} _.

Lemma bind_ret S A B (a : A) (f : A -> M S B) s : bind (ret a) f s = f a s.
Proof. unfold bind, ret. apply after_nil. Qed.

Lemma bind_get S B (f : S -> M S B) s : bind get f s = f s s.
Proof. unfold bind, get. apply after_nil. Qed.

Lemma bind_assoc S A B C (m : M S A) (f : A -> M S B) (g : B -> M S C) s :
  bind (bind m f) g s = bind m (fun a => bind (f a) g) s.
Proof.
  unfold bind. destruct (m s) as [[a| |] s1 t1]; try reflexivity.
  destruct (f a s1) as [[b| |] s2 t2]; simpl; try reflexivity.
  now rewrite after_after.
Qed.

(* ------------------------------------------------------------------ *)
(** ** The bounded frame reader on a stream *)

Section FrameOnStream.
Variable limit : Z.
Variable s : stream.
Variables prefix rest : bytes.
Hypothesis prefix_len : length prefix = 4%nat.
Hypothesis prefix_first : available s = prefix ++ rest.

Let msgSize := int32 (Uint32 prefix).

Lemma stream_header :
  exists s1,
    binary_Read_int32 s = mkRes (Val (msgSize, None)) s1 [] /\
    st (io_ReadFull 4 s) = s1 /\
    (rest = [] \/ available s1 = rest) /\
    (ends_cleanly s = true -> ends_cleanly s1 = true /\ available s1 = rest).
Proof.
  destruct (stream_ReadFull_ok s prefix rest prefix_first)
    as (s1 & Hrun & Hrest & Hclean).
  rewrite prefix_len in Hrun. exists s1. unfold binary_Read_int32.
  rewrite (bind_val _ Hrun), Hrun. simpl. repeat split; assumption || apply Hclean; assumption.
Qed.

(** A declared length above the limit: the size-limit error, the stream
    left as the four-byte header read left it. *)
Lemma stream_frame_too_large :
  limit < msgSize ->
  exists s1,
    readResponseBounded limit s =
      mkRes (Val (None, Some (ErrBodySize msgSize limit))) s1 [] /\
    st (io_ReadFull 4 s) = s1 /\
    (rest = [] \/ available s1 = rest).
Proof.
  intros Hbig. destruct stream_header as (s1 & Hrun & Hst & Hrest & _).
  exists s1. unfold readResponseBounded. rewrite (bind_val _ Hrun). simpl.
  replace (limit <? msgSize) with true by (symmetry; now apply Z.ltb_lt).
  repeat split; assumption.
Qed.

(** A negative declared length with a non-negative limit passes the size
    test and reaches [make] with a negative length. *)
Lemma stream_frame_negative :
  msgSize < 0 -> 0 <= limit ->
  exists s1,
    readResponseBounded limit s =
      mkRes (Panic (MakesliceLenOutOfRange msgSize)) s1 [].
Proof.
  intros Hneg Hlim. destruct stream_header as (s1 & Hrun & _).
  exists s1. unfold readResponseBounded. rewrite (bind_val _ Hrun). simpl.
  replace (limit <? msgSize) with false by (symmetry; apply Z.ltb_ge; lia).
  unfold make_bytes.
  replace (msgSize <? 0) with true by (symmetry; now apply Z.ltb_lt).
  reflexivity.
Qed.

(** The whole body is available: it is returned verbatim. *)
Lemma stream_frame_body (body rest' : bytes) :
  msgSize = Z.of_nat (length body) -> msgSize <= limit ->
  rest = body ++ rest' ->
  exists s2,
    readResponseBounded limit s = mkRes (Val (Some body, None)) s2 [].
Proof.
  intros Hsize Hlim Hbody. destruct stream_header as (s1 & Hrun & _ & Hrest & _).
  assert (Hav : exists r, available s1 = body ++ r).
  { destruct Hrest as [Hnil | Hav].
    - rewrite Hnil in Hbody. symmetry in Hbody.
      apply app_eq_nil in Hbody. destruct Hbody as [-> _].
      now exists (available s1).
    - exists rest'. congruence. }
  destruct Hav as (r & Hav).
  destruct (stream_ReadFull_ok s1 body r Hav) as (s2 & Hrun2 & _).
  exists s2. unfold readResponseBounded. rewrite (bind_val _ Hrun). simpl.
  replace (limit <? msgSize) with false by (symmetry; apply Z.ltb_ge; lia).
  unfold make_bytes.
  replace (msgSize <? 0) with false by (symmetry; apply Z.ltb_ge; lia).
  rewrite bind_ret, Hsize, Nat2Z.id, (bind_val _ Hrun2). reflexivity.
Qed.

(** The stream ends before the declared length is reached: the error of
    the full read is returned, [EOF] when no body byte arrived and
    [ErrUnexpectedEOF] otherwise, and no body. *)
Lemma stream_frame_short :
  ends_cleanly s = true ->
  0 <= msgSize <= limit -> Z.of_nat (length rest) < msgSize ->
  exists s2,
    readResponseBounded limit s =
      mkRes (Val (None, Some (match rest with
                              | [] => EOF
                              | _ :: _ => ErrUnexpectedEOF
                              end))) s2 [].
Proof.
  intros Hclean Hsize Hshort.
  destruct stream_header as (s1 & Hrun & _ & _ & Hc).
  destruct (Hc Hclean) as [Hclean1 Hav].
  destruct (@stream_ReadFull_short s1 (Z.to_nat msgSize)) as (s2 & Hrun2).
  { rewrite Hav. lia. }
  exists s2. unfold readResponseBounded.
  rewrite (bind_val _ Hrun). simpl.
  replace (limit <? msgSize) with false by (symmetry; apply Z.ltb_ge; lia).
  unfold make_bytes.
  replace (msgSize <? 0) with false by (symmetry; apply Z.ltb_ge; lia).
  rewrite bind_ret, (bind_val _ Hrun2). simpl.
  unfold short_error. rewrite Hav, (ends_cleanly_first_error _ Hclean1).
  destruct rest; reflexivity.
Qed.
End FrameOnStream.

(* ------------------------------------------------------------------ *)
(** ** Reading through the instance *)

Lemma replace_incoming_open s i i' :
  open_on s i -> open_on (replace_incoming i' s) i'.
Proof.
  intros (c & Hc & Hcl & _). unfold replace_incoming. rewrite Hc.
  eexists. simpl. repeat split. exact Hcl.
Qed.

Lemma replace_incoming_twice s i i' :
  replace_incoming i' (replace_incoming i s) = replace_incoming i' s.
Proof.
  unfold replace_incoming. destruct (conn (peer s)) as [c|] eqn:Hc; simpl.
  - reflexivity.
  - now rewrite Hc.
Qed.

Lemma replace_incoming_same s i : open_on s i -> replace_incoming i s = s.
Proof.
  intros (c & Hc & _ & <-). unfold replace_incoming. rewrite Hc.
  destruct s as [[? ? ? ? ? ? ?] ?]; simpl in *. subst. now destruct c.
Qed.

Lemma Read_open s i want :
  open_on s i ->
  Read want s =
    mkRes (Val (fst (stream_read want i)))
          (replace_incoming (snd (stream_read want i)) s)
          [EvSetReadDeadline;
           EvRead want (fst (fst (stream_read want i)))
                  (snd (fst (stream_read want i)))].
Proof.
  intros (c & Hc & Hcl & <-).
  destruct s as [lp w]. simpl in Hc.
  unfold Read, on_conn, replace_incoming, bind, get, emit, update_peer, ret,
    conn_Read; simpl.
  rewrite Hc. simpl. rewrite Hcl.
  destruct (stream_read want (incoming c)) as [[got err] i'] eqn:E; simpl.
  destruct c; simpl in *. destruct lp; simpl in *. reflexivity.
Qed.

Lemma mirrors_bind A B (m : M Sys A) (m' : M stream A)
    (f : A -> M Sys B) (f' : A -> M stream B) s i :
  open_on s i ->
  mirrors (m s) (m' i) s ->
  (forall a s1 i1, open_on s1 i1 -> mirrors (f a s1) (f' a i1) s1) ->
  mirrors (bind m f s) (bind m' f' i) s.
Proof.
  intros Ho (Hout & Hst & Htr) Hf. unfold bind.
  destruct (m s) as [o s1 t1], (m' i) as [o' i1 t1']; simpl in *. subst o'.
  destruct o as [a| |]; try (repeat split; assumption).
  assert (Ho1 : open_on s1 i1) by (subst s1; eapply replace_incoming_open; eauto).
  destruct (Hf a s1 i1 Ho1) as (Hout2 & Hst2 & Htr2).
  unfold mirrors. rewrite !out_after, !st_after, tr_after. repeat split.
  - exact Hout2.
  - rewrite Hst2, Hst. apply replace_incoming_twice.
  - rewrite forallb_app, Htr, Htr2. reflexivity.
Qed.

Lemma mirrors_ret A (a : A) s i : open_on s i -> mirrors (ret a s) (ret a i) s.
Proof.
  intros Ho. repeat split. simpl. symmetry. now apply replace_incoming_same.
Qed.

Lemma mirrors_Read want s i :
  open_on s i -> mirrors (Read want s) (stream_Read want i) s.
Proof.
  intros Ho. rewrite (Read_open want Ho). unfold stream_Read.
  destruct (stream_read want i) as [v i']. repeat split.
Qed.

Lemma mirrors_loop fuel :
  forall size min acc err s i,
    open_on s i ->
    mirrors (ReadAtLeast_loop fuel size min acc err s)
            (ReadAtLeast_loop fuel size min acc err i) s.
Proof.
  induction fuel as [|fuel IH]; intros size min acc err s i Ho; simpl;
    destruct ((length acc <? min)%nat && is_nil err).
  - repeat split. simpl. symmetry. now apply replace_incoming_same.
  - now apply mirrors_ret.
  - apply mirrors_bind with (1 := Ho).
    + now apply mirrors_Read.
    + intros [got err'] s1 i1 Ho1. now apply IH.
  - now apply mirrors_ret.
Qed.

Lemma mirrors_ReadFull size s i :
  open_on s i -> mirrors (io_ReadFull size s) (io_ReadFull size i) s.
Proof.
  intros Ho. unfold io_ReadFull, io_ReadAtLeast.
  destruct (size <? size)%nat; [now apply mirrors_ret|].
  rewrite !bind_get.
  replace (patience s) with (patience i)
    by (destruct Ho as (c & Hc & _ & <-); simpl; now rewrite Hc).
  apply mirrors_bind with (1 := Ho).
  - now apply mirrors_loop.
  - intros [acc err] s1 i1 Ho1.
    destruct (size <=? length acc)%nat; [now apply mirrors_ret|].
    destruct (0 <? length acc)%nat; [|now apply mirrors_ret].
    destruct err as [[]|]; now apply mirrors_ret.
Qed.

Lemma mirrors_readResponseBounded limit s i :
  open_on s i ->
  mirrors (readResponseBounded limit s) (readResponseBounded limit i) s.
Proof.
  intros Ho. unfold readResponseBounded, binary_Read_int32.
  rewrite !bind_assoc.
  apply mirrors_bind with (1 := Ho); [now apply mirrors_ReadFull|].
  intros [bs err] s1 i1 Ho1.
  destruct err as [e|]; rewrite !bind_ret; [now apply mirrors_ret|].
  destruct (limit <? int32 (Uint32 bs)); [now apply mirrors_ret|].
  apply mirrors_bind with (1 := Ho1).
  - unfold make_bytes. destruct (int32 (Uint32 bs) <? 0); [|now apply mirrors_ret].
    repeat split. simpl. symmetry. now apply replace_incoming_same.
  - intros size s2 i2 Ho2.
    apply mirrors_bind with (1 := Ho2); [now apply mirrors_ReadFull|].
    intros [buf err] s3 i3 Ho3. destruct err; now apply mirrors_ret.
Qed.

(* ------------------------------------------------------------------ *)
(** ** The methods, call by call *)

Lemma Read_some s c want :
  conn (peer s) = Some c ->
  Read want s =
    mkRes (Val (fst (conn_Read want c))) (with_conn (snd (conn_Read want c)) s)
          [EvSetReadDeadline;
           EvRead want (fst (fst (conn_Read want c))) (snd (fst (conn_Read want c)))].
Proof.
  intros Hc. destruct s as [lp w]. simpl in Hc.
  unfold Read, on_conn, with_conn, bind, get, emit, update_peer, ret; simpl.
  rewrite Hc. simpl. destruct (conn_Read want c) as [[got err] c']; simpl.
  destruct lp; reflexivity.
Qed.

Lemma Read_nil s want :
  conn (peer s) = None -> Read want s = mkRes (Panic NilDereference) s [].
Proof.
  intros Hc. unfold Read, on_conn, bind, get; simpl. now rewrite Hc.
Qed.

Lemma Write_some s c data :
  conn (peer s) = Some c ->
  Write data s =
    mkRes (Val (fst (conn_Write data c))) (with_conn (snd (conn_Write data c)) s)
          [EvSetWriteDeadline;
           EvWrite data (fst (fst (conn_Write data c))) (snd (fst (conn_Write data c)))].
Proof.
  intros Hc. destruct s as [lp w]. simpl in Hc.
  unfold Write, on_conn, with_conn, bind, get, emit, update_peer, ret; simpl.
  rewrite Hc. simpl. destruct (conn_Write data c) as [[n err] c']; simpl.
  destruct lp; reflexivity.
Qed.

Lemma Write_nil s data :
  conn (peer s) = None -> Write data s = mkRes (Panic NilDereference) s [].
Proof.
  intros Hc. unfold Write, on_conn, bind, get; simpl. now rewrite Hc.
Qed.

Lemma Close_some s c :
  conn (peer s) = Some c ->
  Close s =
    mkRes (Val (fst (conn_Close c)))
          (with_conn (snd (conn_Close c)) (with_state stateDisconnected s))
          [EvClose (fst (conn_Close c))].
Proof.
  intros Hc. destruct s as [lp w]. simpl in Hc.
  unfold Close, on_conn, with_conn, with_state, bind, get, emit, update_peer, ret;
    simpl.
  repeat (rewrite Hc; simpl). reflexivity.
Qed.

Lemma Close_nil s :
  conn (peer s) = None ->
  Close s = mkRes (Val None) (with_state stateDisconnected s) [].
Proof.
  intros Hc. destruct s as [lp w]. simpl in Hc.
  unfold Close, with_state, bind, get, update_peer, ret; simpl.
  now rewrite Hc.
Qed.

Lemma Connect_refused s e ds :
  dials (world s) = DialErr e :: ds ->
  Connect s =
    mkRes (Val (Some e)) (mkSys (peer s) (dial_next (world s)))
          (connect_log s ++ [EvDial (addr (peer s)) false]).
Proof.
  intros Hd. destruct s as [[[lg|] ? ? ? ? ? ?] [ds' k]]; simpl in Hd; subst ds';
    reflexivity.
Qed.

Lemma Connect_unreachable s :
  dials (world s) = [] ->
  Connect s =
    mkRes (Val (Some (ErrNet 0))) s
          (connect_log s ++ [EvDial (addr (peer s)) false]).
Proof.
  intros Hd. destruct s as [[[lg|] ? ? ? ? ? ?] [ds' k]]; simpl in Hd; subst ds';
    reflexivity.
Qed.

Lemma Connect_accepted s inc ws ds :
  dials (world s) = DialOk inc ws :: ds ->
  Connect s =
    mkRes (Val None)
          (mkSys (set_conn (Some (mkConn (dialed (world s)) inc ws [] false)) (peer s))
                 (dial_next (world s)))
          (connect_log s ++ [EvDial (addr (peer s)) true]).
Proof.
  intros Hd. destruct s as [[[lg|] ? ? ? ? ? ?] [ds' k]]; simpl in Hd; subst ds';
    reflexivity.
Qed.

(* ------------------------------------------------------------------ *)
(** ** What socket I/O leaves alone *)

Lemma same_handle_refl c : same_handle c c.
Proof.
  destruct c as [c|]; simpl; [|exact I].
  repeat split. exists []. now rewrite app_nil_r.
Qed.

Lemma same_handle_trans c1 c2 c3 :
  same_handle c1 c2 -> same_handle c2 c3 -> same_handle c1 c3.
Proof.
  destruct c1 as [c1|], c2 as [c2|], c3 as [c3|]; simpl; try tauto.
  intros (I1 & C1 & m1 & W1) (I2 & C2 & m2 & W2). repeat split; try congruence.
  exists (m1 ++ m2). now rewrite W2, W1, app_assoc.
Qed.

Lemma steady_refl s : steady s s.
Proof. repeat split. apply same_handle_refl. Qed.

Lemma steady_trans s1 s2 s3 : steady s1 s2 -> steady s2 s3 -> steady s1 s3.
Proof.
  intros (W1 & P1 & H1) (W2 & P2 & H2). repeat split; try congruence.
  eapply same_handle_trans; eassumption.
Qed.

Lemma steady_fields s s' :
  steady s s' ->
  state (peer s') = state (peer s) /\
  connectCallback (peer s') = connectCallback (peer s) /\
  maxBodySize (peer s') = maxBodySize (peer s) /\
  addr (peer s') = addr (peer s) /\
  l (peer s') = l (peer s) /\
  Info (peer s') = Info (peer s).
Proof.
  intros (_ & P & _). destruct (peer s), (peer s'). unfold set_conn in P.
  simpl in *. now inversion P.
Qed.

Lemma steady_with_conn s c c' :
  conn (peer s) = Some c -> same_handle (Some c) (Some c') ->
  steady s (with_conn c' s).
Proof.
  intros Hc Hh. split; [reflexivity | split].
  - now destruct s as [[] ?].
  - simpl. now rewrite Hc.
Qed.

Lemma quiet_ret A (a : A) : quiet (ret a).
Proof. intros s. split; [apply steady_refl | reflexivity]. Qed.

Lemma quiet_throw A p : quiet (@throw Sys A p).
Proof. intros s. split; [apply steady_refl | reflexivity]. Qed.

Lemma quiet_spin A : quiet (@spin Sys A).
Proof. intros s. split; [apply steady_refl | reflexivity]. Qed.

Lemma quiet_bind A B (m : M Sys A) (f : A -> M Sys B) :
  quiet m -> (forall a, quiet (f a)) -> quiet (bind m f).
Proof.
  intros Hm Hf s. specialize (Hm s). unfold bind.
  destruct (m s) as [[a| |] s1 t1]; simpl in *; try exact Hm.
  destruct Hm as [Hs Ht]. destruct (Hf a s1) as [Hs' Ht'].
  rewrite st_after, tr_after, forallb_app, Ht, Ht'.
  split; [eapply steady_trans; eassumption | reflexivity].
Qed.

Lemma quiet_bind_get B (f : Sys -> M Sys B) :
  (forall x, quiet (f x)) -> quiet (bind get f).
Proof. intros Hf s. rewrite bind_get. apply Hf. Qed.

Lemma conn_Read_same_handle want c :
  same_handle (Some c) (Some (snd (conn_Read want c))).
Proof.
  unfold conn_Read. destruct (closed c) eqn:E; simpl.
  - apply (same_handle_refl (Some c)).
  - destruct (stream_read want (incoming c)); simpl.
    repeat split; [congruence|]. exists []. now rewrite app_nil_r.
Qed.

Lemma conn_Write_same_handle data c :
  same_handle (Some c) (Some (snd (conn_Write data c))).
Proof.
  unfold conn_Write. destruct (closed c) eqn:E; simpl.
  - apply (same_handle_refl (Some c)).
  - destruct (wscript c) as [|[|n e] ws]; simpl; repeat split;
      try congruence; eexists; reflexivity.
Qed.

Lemma quiet_Read want : quiet (Read want).
Proof.
  intros s. destruct (conn (peer s)) as [c|] eqn:Hc.
  - rewrite (@Read_some s c want Hc). simpl. split; [|reflexivity].
    apply steady_with_conn with (1 := Hc). apply conn_Read_same_handle.
  - rewrite (@Read_nil s want Hc). split; [apply steady_refl | reflexivity].
Qed.

Lemma quiet_Write data : quiet (Write data).
Proof.
  intros s. destruct (conn (peer s)) as [c|] eqn:Hc.
  - rewrite (@Write_some s c data Hc). simpl. split; [|reflexivity].
    apply steady_with_conn with (1 := Hc). apply conn_Write_same_handle.
  - rewrite (@Write_nil s data Hc). split; [apply steady_refl | reflexivity].
Qed.

Lemma quiet_loop fuel :
  forall size min acc err, quiet (ReadAtLeast_loop fuel size min acc err).
Proof.
  induction fuel as [|fuel IH]; intros size min acc err; simpl;
    destruct ((length acc <? min)%nat && is_nil err);
    try apply quiet_ret; try apply quiet_spin.
  apply quiet_bind; [apply quiet_Read|]. intros [got err']. apply IH.
Qed.

Lemma quiet_ReadFull size : quiet (io_ReadFull size).
Proof.
  unfold io_ReadFull, io_ReadAtLeast.
  destruct (size <? size)%nat; [apply quiet_ret|].
  apply quiet_bind_get. intros x. apply quiet_bind; [apply quiet_loop|].
  intros [acc err].
  destruct (size <=? length acc)%nat; [apply quiet_ret|].
  destruct (0 <? length acc)%nat; [|apply quiet_ret].
  destruct err as [[]|]; apply quiet_ret.
Qed.

Lemma quiet_readResponseBounded limit : quiet (readResponseBounded limit).
Proof.
  unfold readResponseBounded, binary_Read_int32.
  apply quiet_bind.
  - apply quiet_bind; [apply quiet_ReadFull|].
    intros [bs [e|]]; apply quiet_ret.
  - intros [msgSize [e|]]; [apply quiet_ret|].
    destruct (limit <? msgSize); [apply quiet_ret|].
    apply quiet_bind.
    + unfold make_bytes. destruct (msgSize <? 0); [apply quiet_throw | apply quiet_ret].
    + intros size. apply quiet_bind; [apply quiet_ReadFull|].
      intros [buf [e|]]; apply quiet_ret.
Qed.

Lemma quiet_write_slices ps : forall total, quiet (write_slices ps total).
Proof.
  induction ps as [|p ps IH]; intros total; simpl; [apply quiet_ret|].
  apply quiet_bind; [apply quiet_Write|].
  intros [n [e|]]; [apply quiet_ret | apply IH].
Qed.

Lemma quiet_WriteTo cmd : quiet (WriteTo cmd).
Proof. apply quiet_write_slices. Qed.

(* ------------------------------------------------------------------ *)
(** ** What a successful frame read has read *)

Lemma bytes_read_app t1 t2 : bytes_read (t1 ++ t2) = bytes_read t1 ++ bytes_read t2.
Proof. apply flat_map_app. Qed.

Lemma invocations_app t1 t2 :
  invocations (t1 ++ t2) = invocations t1 ++ invocations t2.
Proof. apply flat_map_app. Qed.

Lemma invocations_io t : forallb is_io_event t = true -> invocations t = [].
Proof.
  induction t as [|e t IH]; simpl; [reflexivity|].
  intros H. apply andb_prop in H. destruct H as [He Ht].
  rewrite (IH Ht). now destruct e.
Qed.

Lemma bind_inv_val S A B (m : M S A) (f : A -> M S B) s b s' t :
  bind m f s = mkRes (Val b) s' t ->
  exists a s1 t1 t2,
    m s = mkRes (Val a) s1 t1 /\ f a s1 = mkRes (Val b) s' t2 /\ t = t1 ++ t2.
Proof.
  unfold bind. destruct (m s) as [[a| |] s1 t1]; try discriminate.
  destruct (f a s1) as [o s2 t2] eqn:E. simpl. intros H. inversion H; subst.
  now exists a, s1, t1, t2.
Qed.

Lemma stream_read_length want i :
  (length (fst (fst (stream_read want i))) <= want)%nat.
Proof.
  destruct i as [|[d e] i]; simpl; [lia|].
  destruct (Nat.ltb_spec want (length d)); simpl; [|lia].
  rewrite length_firstn. lia.
Qed.

Lemma conn_Read_length want c :
  (length (fst (fst (conn_Read want c))) <= want)%nat.
Proof.
  unfold conn_Read. destruct (closed c); simpl; [lia|].
  pose proof (stream_read_length want (incoming c)) as H.
  destruct (stream_read want (incoming c)) as [[got e] i']. exact H.
Qed.

Lemma loop_collects fuel :
  forall size min acc err (s : Sys) a e' s' t,
    ReadAtLeast_loop fuel size min acc err s = mkRes (Val (a, e')) s' t ->
    a = acc ++ bytes_read t /\
    ((length acc <= size)%nat -> (length a <= size)%nat) /\
    (e' = None -> (min <= length a)%nat).
Proof.
  induction fuel as [|fuel IH]; intros size min acc err s a e' s' t; simpl;
    destruct (Nat.ltb_spec (length acc) min); simpl;
    try (destruct err; simpl);
    try (intros HH; inversion HH; subst; simpl; rewrite app_nil_r;
         repeat split; (tauto || discriminate || lia));
    try discriminate.
  intros HH. apply bind_inv_val in HH.
  destruct HH as ([got err'] & s1 & t1 & t2 & HR & Hloop & ->).
  cbn [io_Read LookupPeer_Reader] in HR.
  destruct (conn (peer s)) as [c|] eqn:Hc.
  2:{ rewrite (@Read_nil s _ Hc) in HR. discriminate. }
  rewrite (@Read_some s c _ Hc) in HR.
  pose proof (conn_Read_length (size - length acc) c) as Hlen.
  destruct (conn_Read (size - length acc) c) as [[g e] c']. simpl in HR, Hlen.
  inversion HR; subst. destruct (IH _ _ _ _ _ _ _ _ _ Hloop) as (Ha & Hsz & Hmin).
  repeat split.
  - rewrite Ha, bytes_read_app, <- app_assoc. simpl. now rewrite app_nil_r.
  - intros Hacc. apply Hsz. rewrite length_app. lia.
  - exact Hmin.
Qed.

(** A full read that reports no error has filled the whole buffer, with
    exactly the bytes the socket delivered. *)
Lemma ReadFull_filled size (s : Sys) buf s' t :
  io_ReadFull size s = mkRes (Val (buf, None)) s' t ->
  length buf = size /\ bytes_read t = buf.
Proof.
  unfold io_ReadFull, io_ReadAtLeast. rewrite Nat.ltb_irrefl, bind_get.
  intros H. apply bind_inv_val in H.
  destruct H as ([acc err] & s1 & t1 & t2 & Hloop & Hpost & ->).
  apply loop_collects in Hloop. destruct Hloop as (Hacc & Hsz & Hmin).
  simpl in Hacc. specialize (Hsz ltac:(simpl; lia)).
  assert (Hbuf : buf = acc /\ t2 = [] /\ (size <= length acc)%nat).
  { destruct (Nat.leb_spec size (length acc)).
    - inversion Hpost; subst. now repeat split.
    - destruct (0 <? length acc)%nat; [destruct err as [[]|]|];
        inversion Hpost; subst; specialize (Hmin eq_refl); lia. }
  destruct Hbuf as (-> & -> & Hle).
  rewrite bytes_read_app, app_nil_r.
  split; [now apply Nat.le_antisymm | now symmetry].
Qed.

(** The frame reader returns a body only with no error, and then the
    socket delivered a four-byte header and exactly the body it declares. *)
Lemma frame_read_complete limit (s : Sys) b e s' t :
  readResponseBounded limit s = mkRes (Val (Some b, e)) s' t ->
  e = None /\
  exists header,
    length header = 4%nat /\ bytes_read t = header ++ b /\
    Z.of_nat (length b) = int32 (Uint32 header) /\
    int32 (Uint32 header) <= limit.
Proof.
  unfold readResponseBounded, binary_Read_int32. rewrite bind_assoc.
  intros H. apply bind_inv_val in H.
  destruct H as ([hd [eh|]] & s1 & t1 & t2 & Hhd & Hrest & ->).
  { rewrite bind_ret in Hrest. discriminate. }
  rewrite bind_ret in Hrest.
  destruct (ReadFull_filled _ _ Hhd) as [Hlen Hbytes].
  destruct (Z.ltb_spec limit (int32 (Uint32 hd))); [discriminate|].
  apply bind_inv_val in Hrest.
  destruct Hrest as (size & s2 & t3 & t4 & Hmk & Hbody & ->).
  unfold make_bytes in Hmk.
  destruct (Z.ltb_spec (int32 (Uint32 hd)) 0); [discriminate|].
  inversion Hmk; subst.
  apply bind_inv_val in Hbody.
  destruct Hbody as ([buf [eb|]] & s3 & t5 & t6 & Hbuf & Hret & ->);
    [discriminate|].
  inversion Hret; subst.
  destruct (ReadFull_filled _ _ Hbuf) as [Hlen' Hbytes'].
  split; [reflexivity|]. exists (bytes_read t1). repeat split; try assumption.
  - rewrite !bytes_read_app, Hbytes'. simpl. now rewrite !app_nil_r.
  - rewrite Hlen'. lia.
Qed.

(* ------------------------------------------------------------------ *)
(** ** Close and Command, step by step *)

Lemma quiet_io_only A (m : M Sys A) : quiet m -> io_only m.
Proof. intros H s. apply H. Qed.

Lemma io_only_bind A B (m : M Sys A) (f : A -> M Sys B) :
  io_only m -> (forall a, io_only (f a)) -> io_only (bind m f).
Proof.
  intros Hm Hf s. specialize (Hm s). unfold bind.
  destruct (m s) as [[a| |] s1 t1]; simpl in *; try exact Hm.
  rewrite tr_after, forallb_app, Hm. apply Hf.
Qed.

Lemma io_only_ret A (a : A) : io_only (ret a).
Proof. intros s. reflexivity. Qed.

Lemma Close_returns s :
  exists e, Close s = mkRes (Val e) (st (Close s)) (tr (Close s)).
Proof.
  destruct (conn (peer s)) as [c|] eqn:Hc.
  - rewrite (@Close_some s c Hc). eexists; reflexivity.
  - rewrite (@Close_nil s Hc). eexists; reflexivity.
Qed.

Lemma Close_state s : state (peer (st (Close s))) = stateDisconnected.
Proof.
  destruct (conn (peer s)) as [c|] eqn:Hc.
  - now rewrite (@Close_some s c Hc).
  - now rewrite (@Close_nil s Hc).
Qed.

Lemma Close_conn s :
  conn (peer (st (Close s))) =
  option_map (fun c => snd (conn_Close c)) (conn (peer s)).
Proof.
  destruct (conn (peer s)) as [c|] eqn:Hc.
  - now rewrite (@Close_some s c Hc).
  - rewrite (@Close_nil s Hc). simpl. exact Hc.
Qed.

Lemma Close_io_only : io_only Close.
Proof.
  intros s. destruct (conn (peer s)) as [c|] eqn:Hc.
  - now rewrite (@Close_some s c Hc).
  - now rewrite (@Close_nil s Hc).
Qed.

Lemma bind_Close A (k : M Sys A) s :
  bind Close (fun _ => k) s = after (tr (Close s)) (k (st (Close s))).
Proof.
  destruct (Close_returns s) as (e & H). unfold bind. now rewrite H.
Qed.

Lemma write_slices_no_reads ps :
  forall total (s : Sys), bytes_read (tr (write_slices ps total s)) = [].
Proof.
  induction ps as [|p ps IH]; intros total s; simpl; [reflexivity|].
  unfold bind. cbn [io_Write LookupPeer_Writer].
  destruct (conn (peer s)) as [c|] eqn:Hc.
  - rewrite (@Write_some s c p Hc).
    destruct (conn_Write p c) as [[n [e|]] c']; simpl; [reflexivity|].
    rewrite tr_after, bytes_read_app, IH. reflexivity.
  - now rewrite (@Write_nil s p Hc).
Qed.

Section PeerFacts.
Variable handlers : funcId -> Sys -> outcome unit * Sys.

Lemma Command_after_connect cmd s s1 t1 :
  Command_connect handlers s = mkRes (Val None) s1 t1 ->
  Command handlers cmd s = after t1 (Command_roundtrip cmd s1).
Proof. intros H. unfold Command. now rewrite (bind_val _ H). Qed.

Lemma Command_connect_error cmd s e s1 t1 :
  Command_connect handlers s = mkRes (Val (Some e)) s1 t1 ->
  Command handlers cmd s = mkRes (Val (None, Some e)) s1 t1.
Proof.
  intros H. unfold Command. rewrite (bind_val _ H). simpl.
  now rewrite app_nil_r.
Qed.

Lemma Command_connect_connected s :
  state (peer s) = stateConnected ->
  Command_connect handlers s = mkRes (Val None) s [].
Proof.
  intros H. unfold Command_connect. rewrite bind_get, H. reflexivity.
Qed.

Lemma Command_connect_refused s e ds :
  state (peer s) <> stateConnected ->
  dials (world s) = DialErr e :: ds ->
  Command_connect handlers s =
    mkRes (Val (Some e)) (mkSys (peer s) (dial_next (world s)))
          (connect_log s ++ [EvDial (addr (peer s)) false]).
Proof.
  intros Hst Hd. unfold Command_connect. rewrite bind_get.
  replace (state (peer s) =? stateConnected) with false
    by (symmetry; now apply Z.eqb_neq).
  simpl. rewrite (bind_val _ (Connect_refused s Hd)). simpl.
  now rewrite app_nil_r.
Qed.

Lemma Command_connect_unreachable s :
  state (peer s) <> stateConnected ->
  dials (world s) = [] ->
  Command_connect handlers s =
    mkRes (Val (Some (ErrNet 0))) s
          (connect_log s ++ [EvDial (addr (peer s)) false]).
Proof.
  intros Hst Hd. unfold Command_connect. rewrite bind_get.
  replace (state (peer s) =? stateConnected) with false
    by (symmetry; now apply Z.eqb_neq).
  simpl. rewrite (bind_val _ (Connect_unreachable s Hd)). simpl.
  now rewrite app_nil_r.
Qed.

Lemma Command_connect_accepted s inc ws ds :
  state (peer s) <> stateConnected ->
  dials (world s) = DialOk inc ws :: ds ->
  Command_connect handlers s =
    after (greeting s inc ws)
      (bind (if state (peer s) =? stateDisconnected
             then call_connectCallback handlers else ret tt)
            (fun _ => ret None) (greeted s inc ws)).
Proof.
  intros Hst Hd. unfold Command_connect. rewrite bind_get.
  replace (state (peer s) =? stateConnected) with false
    by (symmetry; now apply Z.eqb_neq).
  simpl. rewrite (bind_val _ (Connect_accepted s Hd)).
  unfold bind at 1. unfold update_peer at 1. cbn [out st tr peer world].
  rewrite after_nil.
  unfold bind at 1.
  erewrite Write_some by reflexivity.
  rewrite after_after. unfold greeting, greeted. rewrite <- app_assoc.
  reflexivity.
Qed.
End PeerFacts.

(* ------------------------------------------------------------------ *)
(** ** Connect *)

Lemma dial_count_connect_log s : dial_count (connect_log s) = 0%nat.
Proof. unfold connect_log. now destruct (l (peer s)). Qed.

Lemma dial_count_app t1 t2 : dial_count (t1 ++ t2) = (dial_count t1 + dial_count t2)%nat.
Proof. unfold dial_count. now rewrite filter_app, length_app. Qed.

(** The two ways [Connect] ends: the dial failed and only the network
    moved on, or it succeeded and the connection just dialed is stored. *)
Lemma Connect_cases s :
  (exists e w t,
     Connect s = mkRes (Val (Some e)) (mkSys (peer s) w) t /\
     (dials (world s) = [] \/ exists ds, dials (world s) = DialErr e :: ds)) \/
  (exists inc ws ds,
     dials (world s) = DialOk inc ws :: ds /\
     Connect s =
       mkRes (Val None)
             (mkSys (set_conn (Some (dialed_conn s inc ws)) (peer s))
                    (dial_next (world s)))
             (connect_log s ++ [EvDial (addr (peer s)) true])).
Proof.
  destruct (dials (world s)) as [|[e|inc ws] ds] eqn:Hd.
  - left. exists (ErrNet 0), (world s), (connect_log s ++ [EvDial (addr (peer s)) false]).
    rewrite (Connect_unreachable s Hd). destruct s. split; [reflexivity | now left].
  - left. exists e, (dial_next (world s)),
             (connect_log s ++ [EvDial (addr (peer s)) false]).
    rewrite (Connect_refused s Hd). split; [reflexivity|]. right. now exists ds.
  - right. exists inc, ws, ds. split; [reflexivity|]. exact (Connect_accepted s Hd).
Qed.

(** C9.  [Connect] never writes the [state] field.  It dials exactly once.
    When the dial fails it returns the dial's error and the instance is
    untouched, handle included; when it succeeds it stores the connection
    just dialed and changes no other field. *)
Theorem Connect_keeps_state :
  forall s : Sys,
    state (peer (st (Connect s))) = state (peer s) /\
    dial_count (tr (Connect s)) = 1%nat /\
    (exists r, out (Connect s) = Val r) /\
    (forall e, out (Connect s) = Val (Some e) ->
       peer (st (Connect s)) = peer s /\
       (dials (world s) = [] \/ exists ds, dials (world s) = DialErr e :: ds)) /\
    (out (Connect s) = Val None ->
       exists inc ws ds,
         dials (world s) = DialOk inc ws :: ds /\
         peer (st (Connect s)) = set_conn (Some (dialed_conn s inc ws)) (peer s)).
Proof.
  intros s. destruct (dials (world s)) as [|[e|inc ws] ds] eqn:Hd.
  - rewrite (Connect_unreachable s Hd). cbn [out st tr].
    rewrite dial_count_app, dial_count_connect_log.
    repeat split; try reflexivity.
    + eexists; reflexivity.
    + now left.
    + discriminate.
  - rewrite (Connect_refused s Hd). cbn [out st tr peer].
    rewrite dial_count_app, dial_count_connect_log.
    repeat split; try reflexivity.
    + eexists; reflexivity.
    + right. exists ds. congruence.
    + discriminate.
  - rewrite (Connect_accepted s Hd). cbn [out st tr peer].
    rewrite dial_count_app, dial_count_connect_log.
    repeat split; try reflexivity; try discriminate.
    + eexists; reflexivity.
    + intros _. now exists inc, ws, ds.
Qed.

(* ------------------------------------------------------------------ *)
(** ** Close *)

(** C6, on the code.  After one successful [Command] the first [Close]
    returns no error and the second one, called right after it, returns
    the error of closing a closed connection. *)
Lemma second_Close_reports_closed_handle :
  state (peer connected_once) = stateConnected /\
  out (Close connected_once) = Val None /\
  out (Close (st (Close connected_once))) = Val (Some ErrClosed).
Proof. repeat split. Qed.

(** C6, amended.  [Close] never panics and leaves the state Disconnected,
    the first time and the second.  On an instance that holds no
    connection it returns no error, both times.  On an instance that
    holds one, the handle is kept, so the second call closes it again and
    returns what that reports: the error of a closed connection. *)
Theorem Close_twice :
  forall s : Sys,
    (exists e, out (Close s) = Val e) /\
    state (peer (st (Close s))) = stateDisconnected /\
    state (peer (st (Close (st (Close s))))) = stateDisconnected /\
    out (Close (st (Close s))) =
      Val (match conn (peer s) with
           | None => None
           | Some _ => Some ErrClosed
           end) /\
    (conn (peer s) = None -> out (Close s) = Val None) /\
    (forall c, conn (peer s) = Some c ->
       out (Close s) = Val (if closed c then Some ErrClosed else None)).
Proof.
  intros s. split; [|split; [|split; [|split; [|split]]]].
  - destruct (Close_returns s) as (e & H). exists e. now rewrite H.
  - apply Close_state.
  - apply Close_state.
  - destruct (conn (peer s)) as [c|] eqn:Hc.
    + assert (H : conn (peer (st (Close s))) = Some (snd (conn_Close c)))
        by (now rewrite Close_conn, Hc).
      now rewrite (Close_some _ H).
    + assert (H : conn (peer (st (Close s))) = None)
        by (now rewrite Close_conn, Hc).
      now rewrite (Close_nil _ H).
  - intros Hc. now rewrite (Close_nil _ Hc).
  - intros c Hc. now rewrite (Close_some _ Hc).
Qed.

(* ------------------------------------------------------------------ *)
(** ** The nil handler *)

(** C10.  The constructor stores a nil handler as it is given.  An
    instance in state Disconnected whose handler is nil panics on a nil
    dereference in every [Command] whose dial succeeds, after the state
    was set to Connected and the preamble was written and before anything
    of the command is written; so a [Command] that connects from
    Disconnected without panicking has a handler. *)
Theorem nil_callback_panics :
  forall (handlers : funcId -> Sys -> outcome unit * Sys),
    (forall address limit lg,
       connectCallback (NewLookupPeer address limit lg None) = None /\
       state (NewLookupPeer address limit lg None) = stateDisconnected) /\
    (forall s cmd inc ws ds,
       connectCallback (peer s) = None ->
       state (peer s) = stateDisconnected ->
       dials (world s) = DialOk inc ws :: ds ->
       Command handlers cmd s =
         mkRes (Panic NilDereference) (greeted s inc ws) (greeting s inc ws) /\
       state (peer (greeted s inc ws)) = stateConnected) /\
    (forall s cmd inc ws ds,
       state (peer s) = stateDisconnected ->
       dials (world s) = DialOk inc ws :: ds ->
       (forall p, out (Command handlers cmd s) <> Panic p) ->
       connectCallback (peer s) <> None).
Proof.
  intros handlers.
  assert (Hpanic : forall s cmd inc ws ds,
             connectCallback (peer s) = None ->
             state (peer s) = stateDisconnected ->
             dials (world s) = DialOk inc ws :: ds ->
             Command handlers cmd s =
               mkRes (Panic NilDereference) (greeted s inc ws) (greeting s inc ws)).
  { intros s cmd inc ws ds Hcb Hst Hd.
    assert (Hne : state (peer s) <> stateConnected) by (rewrite Hst; discriminate).
    unfold Command. unfold bind at 1.
    rewrite (Command_connect_accepted handlers s Hne Hd), Hst. simpl.
    unfold bind, call_connectCallback.
    replace (connectCallback (peer (greeted s inc ws))) with (@None funcId)
      by (rewrite <- Hcb; now destruct s as [[] ?]).
    simpl. now rewrite app_nil_r. }
  split; [|split].
  - intros; split; reflexivity.
  - intros s cmd inc ws ds Hcb Hst Hd. split.
    + eapply Hpanic; eassumption.
    + reflexivity.
  - intros s cmd inc ws ds Hst Hd Hsafe Hcb.
    apply (Hsafe NilDereference).
    now rewrite (Hpanic s cmd inc ws ds Hcb Hst Hd).
Qed.

(** C10 on a fresh instance built with a nil handler: its first [Command]
    against a server that accepts the connection panics. *)
Lemma nil_callback_panics_witness :
  out (Command idle_handlers (Some ping)
         (mkSys (NewLookupPeer "127.0.0.1:4160" 1024 None None) pong_server))
  = Panic NilDereference.
Proof.
  pose proof (proj1 (proj1 (proj2 (nil_callback_panics idle_handlers))
                (mkSys (NewLookupPeer "127.0.0.1:4160" 1024 None None) pong_server)
                (Some ping) pong_stream [] [] eq_refl eq_refl eq_refl)) as H.
  rewrite H. reflexivity.
Defined.

(* ------------------------------------------------------------------ *)
(** ** The bounded frame reader *)

(** C1, on the code.  Whenever the first four bytes of the stream decode
    to a negative length and the limit is not negative, the frame reader
    does not return an error: the length passes the size test and [make]
    panics on it. *)
Theorem negative_length_reaches_make :
  forall (limit : Z) (s : stream) (header rest : bytes),
    length header = 4%nat ->
    available s = header ++ rest ->
    int32 (Uint32 header) < 0 ->
    0 <= limit ->
    out (readResponseBounded limit s) =
      Panic (MakesliceLenOutOfRange (int32 (Uint32 header))) /\
    forall sys, open_on sys s ->
      out (readResponseBounded limit sys) =
        Panic (MakesliceLenOutOfRange (int32 (Uint32 header))).
Proof.
  intros limit s header rest Hlen Hav Hneg Hlim.
  destruct (@stream_frame_negative limit s header rest Hlen Hav Hneg Hlim) as (s1 & H).
  split.
  - now rewrite H.
  - intros sys Ho.
    destruct (@mirrors_readResponseBounded limit sys s Ho) as (Hout & _).
    rewrite Hout. now rewrite H.
Qed.

(** C1 at the header [FF FF FF FF] with limit 1024: the reader panics,
    and so does the [Command] that meets that answer. *)
Lemma negative_length_reaches_make_witness :
  out (readResponseBounded 1024 negative_stream) =
    Panic (MakesliceLenOutOfRange (-1)) /\
  out (Command idle_handlers (Some ping)
         (mkSys fresh_peer (mkWorld [DialOk negative_stream []] 0))) =
    Panic (MakesliceLenOutOfRange (-1)).
Proof.
  split.
  - exact (proj1 (@negative_length_reaches_make 1024 negative_stream
                    [xff; xff; xff; xff]%byte [] eq_refl eq_refl eq_refl
                    ltac:(discriminate))).
  - reflexivity.
Defined.

(** Through the instance: the oversized frame costs the socket exactly
    the four header bytes. *)
Lemma frame_too_large_on_instance limit (sys : Sys) i header rest :
  length header = 4%nat ->
  available i = header ++ rest ->
  limit < int32 (Uint32 header) ->
  open_on sys i ->
  exists t,
    readResponseBounded limit sys =
      mkRes (Val (None, Some (ErrBodySize (int32 (Uint32 header)) limit)))
            (replace_incoming (st (io_ReadFull 4 i)) sys) t /\
    bytes_read t = header.
Proof.
  intros Hlen Hav Hbig Ho.
  destruct (stream_ReadFull_ok i header rest Hav) as (i1 & Hrun & _).
  rewrite Hlen in Hrun.
  destruct (@mirrors_ReadFull 4 sys i Ho) as (Hout & Hst & _).
  rewrite Hrun in Hout, Hst. simpl in Hout, Hst.
  destruct (io_ReadFull 4 sys) as [o s1 t] eqn:HR. simpl in Hout, Hst. subst o s1.
  exists t. destruct (ReadFull_filled _ _ HR) as [_ Hbytes]. split; [|exact Hbytes].
  unfold readResponseBounded, binary_Read_int32.
  rewrite bind_assoc, (bind_val _ HR), bind_ret, Hrun. cbn [st].
  replace (limit <? int32 (Uint32 header)) with true
    by (symmetry; now apply Z.ltb_lt).
  simpl. now rewrite app_nil_r.
Qed.

(** C3.  When the declared length is greater than the limit, the frame
    reader returns the size-limit error and leaves the stream as the read
    of the four header bytes left it: nothing of the body is read or
    skipped.  A [Command] that gets that far (it is connected and the
    command is written) returns that error, reads nothing from the socket
    but the header, closes the connection and leaves the state
    Disconnected. *)
Theorem oversized_frame_rejected_unread :
  forall (limit : Z) (i : stream) (header rest : bytes),
    length header = 4%nat ->
    available i = header ++ rest ->
    limit < int32 (Uint32 header) ->
    (exists i1,
       readResponseBounded limit i =
         mkRes (Val (None, Some (ErrBodySize (int32 (Uint32 header)) limit))) i1 [] /\
       is_size_limit_error (ErrBodySize (int32 (Uint32 header)) limit) = true /\
       st (io_ReadFull 4 i) = i1 /\
       (rest = [] \/ available i1 = rest)) /\
    (forall handlers cmd s s1 t1 s2 n t2,
       Command_connect handlers s = mkRes (Val None) s1 t1 ->
       WriteTo cmd s1 = mkRes (Val (n, None)) s2 t2 ->
       open_on s2 i ->
       maxBodySize (peer s2) = limit ->
       exists s' t3,
         Command handlers (Some cmd) s =
           mkRes (Val (None, Some (ErrBodySize (int32 (Uint32 header)) limit)))
                 s' (t1 ++ t2 ++ t3 ++ [EvClose None]) /\
         bytes_read t3 = header /\
         state (peer s') = stateDisconnected /\
         exists c, conn (peer s') = Some c /\ closed c = true /\
                   incoming c = st (io_ReadFull 4 i)).
Proof.
  intros limit i header rest Hlen Hav Hbig. split.
  - destruct (@stream_frame_too_large limit i header rest Hlen Hav Hbig)
      as (i1 & H & Hst & Hrest).
    exists i1. now repeat split.
  - intros handlers cmd s s1 t1 s2 n t2 Hconn Hwrite Ho Hlim.
    destruct (@frame_too_large_on_instance limit s2 i header rest Hlen Hav Hbig Ho)
      as (t3 & Hread & Hbytes).
    pose proof (replace_incoming_open (st (io_ReadFull 4 i)) Ho) as Ho'.
    destruct Ho' as (c & Hc & Hcl & Hinc).
    exists (st (Close (replace_incoming (st (io_ReadFull 4 i)) s2))), t3.
    split; [|split; [exact Hbytes | split; [apply Close_state|]]].
    + rewrite (@Command_after_connect handlers (Some cmd) s s1 t1 Hconn).
      unfold Command_roundtrip.
      rewrite (bind_val _ Hwrite). cbn beta iota.
      rewrite bind_get, Hlim, (bind_val _ Hread). cbn beta iota.
      rewrite bind_Close, (Close_some _ Hc). unfold conn_Close. rewrite Hcl.
      simpl. reflexivity.
    + rewrite Close_conn, Hc. simpl. eexists. repeat split. exact Hinc.
Qed.

(** C3 at a frame that declares 2048 bytes against a limit of 1024: the
    two body bytes that follow the header are still unread. *)
Lemma oversized_frame_rejected_unread_witness :
  exists s' t,
    Command idle_handlers (Some ping)
      (mkSys fresh_peer (mkWorld [DialOk big_stream []] 0)) =
      mkRes (Val (None, Some (ErrBodySize 2048 1024))) s' t /\
    state (peer s') = stateDisconnected /\
    exists c, conn (peer s') = Some c /\ closed c = true /\
              available (incoming c) = [x01; x02]%byte.
Proof.
  destruct (proj2 (@oversized_frame_rejected_unread 1024 big_stream
                     [x00; x00; x08; x00]%byte [x01; x02]%byte
                     eq_refl eq_refl eq_refl)
              idle_handlers ping (mkSys fresh_peer (mkWorld [DialOk big_stream []] 0))
              _ _ _ _ _ eq_refl eq_refl
              ltac:(eexists; repeat split) eq_refl)
    as (s' & t3 & Hrun & _ & Hst & c & Hc & Hcl & Hinc).
  exists s'. eexists. split; [exact Hrun|]. split; [exact Hst|].
  exists c. repeat split; try assumption. now rewrite Hinc.
Defined.

(* ------------------------------------------------------------------ *)
(** ** The round trip *)

Lemma frame_read_shape limit (s : Sys) r e s' t :
  readResponseBounded limit s = mkRes (Val (r, e)) s' t ->
  (r = None /\ e <> None) \/ (exists b, r = Some b /\ e = None).
Proof.
  destruct r as [b|].
  - intros H. apply frame_read_complete in H. right. exists b. tauto.
  - intros H. left. split; [reflexivity|]. intros ->. revert H.
    unfold readResponseBounded, binary_Read_int32. rewrite bind_assoc.
    intros H. apply bind_inv_val in H.
    destruct H as ([hd [eh|]] & s1 & t1 & t2 & _ & Hrest & _);
      rewrite bind_ret in Hrest; [discriminate|].
    destruct (limit <? int32 (Uint32 hd)); [discriminate|].
    apply bind_inv_val in Hrest.
    destruct Hrest as (size & s2 & t3 & t4 & _ & Hbody & _).
    apply bind_inv_val in Hbody.
    destruct Hbody as ([buf [eb|]] & s3 & t5 & t6 & _ & Hret & _); discriminate.
Qed.

Lemma roundtrip_io_only cmd : io_only (Command_roundtrip cmd).
Proof.
  destruct cmd as [c|]; simpl; [|apply io_only_ret].
  apply io_only_bind; [apply quiet_io_only, quiet_WriteTo|].
  intros [n [e|]].
  - apply io_only_bind; [apply Close_io_only | intros; apply io_only_ret].
  - intros s. rewrite bind_get. apply io_only_bind.
    + apply quiet_io_only, quiet_readResponseBounded.
    + intros [r [e|]]; [|apply io_only_ret].
      apply io_only_bind; [apply Close_io_only | intros; apply io_only_ret].
Qed.

(** Where a round trip leaves the instance: as reads and writes on the
    held connection leave it, or closed and Disconnected. *)
Lemma roundtrip_steady_or_closed cmd s :
  steady s (st (Command_roundtrip cmd s)) \/
  state (peer (st (Command_roundtrip cmd s))) = stateDisconnected.
Proof.
  destruct cmd as [c|]; [|left; apply steady_refl].
  remember (Command_roundtrip (Some c) s) as R eqn:HR.
  simpl in HR. unfold bind at 1 in HR.
  pose proof (proj1 (quiet_WriteTo c s)) as Hw.
  destruct (WriteTo c s) as [[[n [e|]]| |] s2 t2];
    cbn [st] in Hw; try (subst R; left; exact Hw).
  - rewrite bind_Close in HR. subst R. rewrite !st_after. right. apply Close_state.
  - rewrite bind_get in HR. unfold bind at 1 in HR.
    pose proof (proj1 (quiet_readResponseBounded (maxBodySize (peer s2)) s2)) as Hr.
    destruct (readResponseBounded (maxBodySize (peer s2)) s2)
      as [[[r [e|]]| |] s3 t3]; cbn [st] in Hr;
      try (subst R; left; rewrite ?st_after; eapply steady_trans; eassumption).
    rewrite bind_Close in HR. subst R. rewrite !st_after. right. apply Close_state.
Qed.

(** What a round trip returns: a body that was read in full and no error,
    or an error, no body, and the state forced to Disconnected. *)
Lemma roundtrip_all_or_nothing c s body err s' t :
  Command_roundtrip (Some c) s = mkRes (Val (body, err)) s' t ->
  match err with
  | None =>
      exists b header,
        body = Some b /\ length header = 4%nat /\
        bytes_read t = header ++ b /\
        Z.of_nat (length b) = int32 (Uint32 header)
  | Some _ => body = None /\ state (peer s') = stateDisconnected
  end.
Proof.
  simpl. intros H. apply bind_inv_val in H.
  destruct H as ([n [ew|]] & s2 & t2 & t3 & Hw & Hk & ->).
  - rewrite bind_Close in Hk. unfold ret in Hk. simpl in Hk.
    inversion Hk; subst. split; [reflexivity | apply Close_state].
  - rewrite bind_get in Hk. apply bind_inv_val in Hk.
    destruct Hk as ([r [er|]] & s3 & t4 & t5 & Hr & Hk & ->).
    + rewrite bind_Close in Hk. unfold ret in Hk. simpl in Hk.
      inversion Hk; subst. split; [reflexivity | apply Close_state].
    + inversion Hk; subst.
      destruct (frame_read_shape _ _ Hr) as [[_ Hn] | (b & -> & _)];
        [congruence|].
      destruct (frame_read_complete _ _ Hr) as (_ & header & Hlen & Hb & Hsz & _).
      exists b, header. repeat split; try assumption.
      pose proof (write_slices_no_reads (slices c) 0 s) as Hnr.
      unfold WriteTo in Hw. rewrite Hw in Hnr. simpl in Hnr.
      rewrite !bytes_read_app, Hnr, Hb. simpl. now rewrite app_nil_r.
Qed.

Lemma roundtrip_write_failure c s n e s2 t2 :
  WriteTo c s = mkRes (Val (n, Some e)) s2 t2 ->
  Command_roundtrip (Some c) s =
    mkRes (Val (None, Some e)) (st (Close s2)) (t2 ++ tr (Close s2)).
Proof.
  intros Hw. simpl. rewrite (bind_val _ Hw). cbn beta iota.
  rewrite bind_Close. simpl. now rewrite app_nil_r.
Qed.

Lemma roundtrip_read_failure c s n s2 t2 r e s3 t3 :
  WriteTo c s = mkRes (Val (n, None)) s2 t2 ->
  readResponseBounded (maxBodySize (peer s2)) s2 = mkRes (Val (r, Some e)) s3 t3 ->
  Command_roundtrip (Some c) s =
    mkRes (Val (None, Some e)) (st (Close s3)) (t2 ++ t3 ++ tr (Close s3)).
Proof.
  intros Hw Hr. simpl. rewrite (bind_val _ Hw). cbn beta iota.
  rewrite bind_get, (bind_val _ Hr). cbn beta iota.
  rewrite bind_Close. simpl. now rewrite app_nil_r.
Qed.

(* ------------------------------------------------------------------ *)
(** ** The lazy connect *)

Lemma greeted_conn s inc ws :
  exists c n,
    conn (peer (greeted s inc ws)) = Some c /\
    conn_id c = dialed (world s) /\ closed c = false /\
    wlog c = [(MagicV1, n)] /\ incoming c = inc.
Proof.
  unfold greeted, dialed_conn, conn_Write. simpl.
  destruct ws as [|[|k e] ws]; simpl; eexists _, _; repeat split.
Qed.

Lemma greeting_quiet s inc ws :
  invocations (greeting s inc ws) = [] /\ bytes_read (greeting s inc ws) = [] /\
  dial_count (greeting s inc ws) = 1%nat.
Proof.
  unfold greeting, connect_log. destruct (l (peer s)); repeat split.
Qed.

Section ConnectFacts.
Variable handlers : funcId -> Sys -> outcome unit * Sys.

(** From Disconnected, once the dial succeeded: the handler runs on the
    greeted instance, and [Command] goes on from the state it leaves. *)
Lemma Command_connect_handler s inc ws ds f :
  state (peer s) = stateDisconnected ->
  dials (world s) = DialOk inc ws :: ds ->
  connectCallback (peer s) = Some f ->
  Command_connect handlers s =
    mkRes (match fst (handlers f (greeted s inc ws)) with
           | Val _ => Val None
           | Panic p => Panic p
           | Diverge => Diverge
           end)
          (snd (handlers f (greeted s inc ws)))
          (greeting s inc ws ++ [EvCallback f]).
Proof.
  intros Hst Hd Hcb.
  assert (Hne : state (peer s) <> stateConnected) by (rewrite Hst; discriminate).
  rewrite (Command_connect_accepted handlers s Hne Hd), Hst. simpl.
  unfold bind, call_connectCallback.
  replace (connectCallback (peer (greeted s inc ws))) with (Some f)
    by (rewrite <- Hcb; now destruct s as [[] ?]).
  destruct (handlers f (greeted s inc ws)) as [[[]| |] s_after]; simpl;
    now rewrite ?app_nil_r.
Qed.

Lemma Command_connect_no_handler s inc ws ds :
  state (peer s) = stateDisconnected ->
  dials (world s) = DialOk inc ws :: ds ->
  connectCallback (peer s) = None ->
  Command_connect handlers s =
    mkRes (Panic NilDereference) (greeted s inc ws) (greeting s inc ws).
Proof.
  intros Hst Hd Hcb.
  assert (Hne : state (peer s) <> stateConnected) by (rewrite Hst; discriminate).
  rewrite (Command_connect_accepted handlers s Hne Hd), Hst. simpl.
  unfold bind, call_connectCallback.
  replace (connectCallback (peer (greeted s inc ws))) with (@None funcId)
    by (rewrite <- Hcb; now destruct s as [[] ?]).
  simpl. now rewrite app_nil_r.
Qed.

Lemma Command_connect_unnotified s inc ws ds :
  state (peer s) <> stateConnected ->
  state (peer s) <> stateDisconnected ->
  dials (world s) = DialOk inc ws :: ds ->
  Command_connect handlers s =
    mkRes (Val None) (greeted s inc ws) (greeting s inc ws).
Proof.
  intros Hne Hnd Hd.
  rewrite (Command_connect_accepted handlers s Hne Hd).
  replace (state (peer s) =? stateDisconnected) with false
    by (symmetry; now apply Z.eqb_neq).
  rewrite bind_ret. simpl. now rewrite app_nil_r.
Qed.
End ConnectFacts.

(* ------------------------------------------------------------------ *)
(** ** The reconnect handler *)

(** C4.  On an instance in state Disconnected (a fresh one, or one whose
    earlier calls failed), a [Command] that returns without error has
    dialed successfully, has a handler [f], and made its calls in this
    order: the dial, the write of the magic preamble on the connection
    just dialed, the invocation of [f], and then only the socket I/O of
    the round trip.  [f] is invoked exactly once; when it runs, the new
    connection has seen the preamble write and nothing else; every write
    of the command comes after it returned. *)
Theorem first_command_invokes_handler_once :
  forall handlers cmd s body s' t,
    state (peer s) = stateDisconnected ->
    Command handlers cmd s = mkRes (Val (body, None)) s' t ->
    exists f inc ws ds s_after,
      connectCallback (peer s) = Some f /\
      dials (world s) = DialOk inc ws :: ds /\
      handlers f (greeted s inc ws) = (Val tt, s_after) /\
      t = greeting s inc ws ++
          EvCallback f :: tr (Command_roundtrip cmd s_after) /\
      forallb is_io_event (tr (Command_roundtrip cmd s_after)) = true /\
      invocations t = [f] /\
      exists c n,
        conn (peer (greeted s inc ws)) = Some c /\
        conn_id c = dialed (world s) /\ closed c = false /\
        wlog c = [(MagicV1, n)].
Proof.
  intros handlers cmd s body s' t Hst Hrun.
  assert (Hne : state (peer s) <> stateConnected) by (rewrite Hst; discriminate).
  destruct (dials (world s)) as [|[e|inc ws] ds] eqn:Hd.
  - rewrite (@Command_connect_error handlers cmd _ _ _ _
               (@Command_connect_unreachable handlers s Hne Hd)) in Hrun.
    discriminate.
  - rewrite (@Command_connect_error handlers cmd _ _ _ _
               (@Command_connect_refused handlers s e ds Hne Hd)) in Hrun.
    discriminate.
  - destruct (connectCallback (peer s)) as [f|] eqn:Hcb.
    2:{ unfold Command in Hrun.
        rewrite (bind_panic _ (@Command_connect_no_handler handlers s inc ws ds
                                 Hst Hd Hcb)) in Hrun.
        discriminate. }
    pose proof (@Command_connect_handler handlers s inc ws ds f Hst Hd Hcb) as Hc.
    destruct (handlers f (greeted s inc ws)) as [[[]| |] s_after] eqn:Hh;
      simpl in Hc;
      try (unfold Command in Hrun; unfold bind in Hrun; rewrite Hc in Hrun;
           discriminate).
    rewrite (@Command_after_connect handlers cmd s _ _ Hc) in Hrun.
    pose proof (roundtrip_io_only cmd s_after) as Hio.
    destruct (Command_roundtrip cmd s_after) as [o s2 t2] eqn:HR.
    simpl in Hrun, Hio. inversion Hrun; subst.
    destruct (greeting_quiet s inc ws) as (Hinv & _ & _).
    destruct (greeted_conn s inc ws) as (c & n & Hc1 & Hc2 & Hc3 & Hc4 & _).
    exists f, inc, ws, ds, s_after. rewrite HR. cbn [tr].
    repeat split; try assumption.
    + now rewrite <- app_assoc.
    + rewrite !invocations_app, Hinv, (invocations_io _ Hio). reflexivity.
    + now exists c, n.
Qed.

(** C4 on the PING/PONG exchange of a fresh instance: handler 0 runs once. *)
Lemma first_command_invokes_handler_once_witness :
  exists t s',
    Command idle_handlers (Some ping) (mkSys fresh_peer pong_server) =
      mkRes (Val (Some PONG, None)) s' t /\
    invocations t = [0%nat] /\
    state (peer s') = stateConnected.
Proof.
  pose (r := Command idle_handlers (Some ping) (mkSys fresh_peer pong_server)).
  assert (Hr : r = mkRes (Val (Some PONG, None)) (st r) (tr r))
    by (vm_compute; reflexivity).
  destruct (@first_command_invokes_handler_once idle_handlers (Some ping)
              (mkSys fresh_peer pong_server) (Some PONG) (st r) (tr r) eq_refl Hr)
    as (f & inc & ws & ds & s_after & Hcb & _ & _ & _ & _ & Hinv & _).
  exists (tr r), (st r). split; [exact Hr|]. split.
  - rewrite Hinv. f_equal. simpl in Hcb. congruence.
  - vm_compute. reflexivity.
Defined.

(* ------------------------------------------------------------------ *)
(** ** Failures *)

Lemma connect_trace_no_reads handlers s :
  bytes_read (tr (Command_connect handlers s)) = [].
Proof.
  destruct (Z.eq_dec (state (peer s)) stateConnected) as [Hc|Hne].
  { now rewrite (Command_connect_connected handlers s Hc). }
  destruct (dials (world s)) as [|[e|inc ws] ds] eqn:Hd.
  - rewrite (@Command_connect_unreachable handlers s Hne Hd). cbn [tr].
    rewrite bytes_read_app. unfold connect_log. now destruct (l (peer s)).
  - rewrite (@Command_connect_refused handlers s e ds Hne Hd). cbn [tr].
    rewrite bytes_read_app. unfold connect_log. now destruct (l (peer s)).
  - destruct (greeting_quiet s inc ws) as (_ & Hnr & _).
    destruct (Z.eq_dec (state (peer s)) stateDisconnected) as [Hdis|Hnd].
    + destruct (connectCallback (peer s)) as [f|] eqn:Hcb.
      * rewrite (@Command_connect_handler handlers s inc ws ds f Hdis Hd Hcb).
        cbn [tr]. now rewrite bytes_read_app, Hnr.
      * now rewrite (@Command_connect_no_handler handlers s inc ws ds Hdis Hd Hcb).
    + now rewrite (@Command_connect_unnotified handlers s inc ws ds Hne Hnd Hd).
Qed.

(** C5, on the code.  After a read failure the instance is Disconnected
    and the next [Command] dials; when that dial is refused the call
    returns the dial's error, having written no preamble and invoked no
    handler.  And [Command(nil)] on a Connected instance returns neither
    a body nor an error. *)
Lemma next_call_may_not_reconnect :
  (out (Command idle_handlers (Some ping) (mkSys fresh_peer flaky_then_refused)) =
     Val (None, Some ErrUnexpectedEOF) /\
   state (peer stranded) = stateDisconnected /\
   Command idle_handlers (Some ping) stranded =
     mkRes (Val (None, Some (ErrNet 111)))
           (mkSys (peer stranded) (mkWorld [] 2))
           [EvDial "127.0.0.1:4160" false]) /\
  Command idle_handlers None connected_once =
    mkRes (Val (None, None)) connected_once [].
Proof. repeat split. Qed.

(** C5, amended.  (a) Once connected, a failure of the write of the
    command or of the read of the response frame is returned as it is,
    and the state is Disconnected afterwards.  (b) A [Command] on a
    Disconnected instance starts with a dial; when the dial succeeds it
    writes the preamble on the new connection and then invokes the
    handler, exactly once, with no second dial.  (c) A [Command] that
    returns gave either no error and a body read in full (the socket
    delivered a four-byte header and the number of bytes it declares; a
    nil command gives no body at all), or an error and no body, with the
    state Disconnected. *)
Theorem failure_disconnects_and_next_call_reconnects :
  forall handlers,
    (forall cmd s s1 t1,
       Command_connect handlers s = mkRes (Val None) s1 t1 ->
       (forall n e s2 t2,
          WriteTo cmd s1 = mkRes (Val (n, Some e)) s2 t2 ->
          out (Command handlers (Some cmd) s) = Val (None, Some e) /\
          state (peer (st (Command handlers (Some cmd) s))) = stateDisconnected) /\
       (forall n s2 t2 r e s3 t3,
          WriteTo cmd s1 = mkRes (Val (n, None)) s2 t2 ->
          readResponseBounded (maxBodySize (peer s2)) s2 =
            mkRes (Val (r, Some e)) s3 t3 ->
          out (Command handlers (Some cmd) s) = Val (None, Some e) /\
          state (peer (st (Command handlers (Some cmd) s))) = stateDisconnected)) /\
    (forall cmd s,
       state (peer s) = stateDisconnected ->
       (exists ok rest,
          tr (Command handlers cmd s) =
            connect_log s ++ EvDial (addr (peer s)) ok :: rest) /\
       (forall inc ws ds f,
          dials (world s) = DialOk inc ws :: ds ->
          connectCallback (peer s) = Some f ->
          exists rest,
            tr (Command handlers cmd s) =
              greeting s inc ws ++ EvCallback f :: rest /\
            invocations (tr (Command handlers cmd s)) = [f] /\
            dial_count (tr (Command handlers cmd s)) = 1%nat)) /\
    (forall cmd s body err s' t,
       state (peer s) = stateDisconnected \/ state (peer s) = stateConnected ->
       Command handlers cmd s = mkRes (Val (body, err)) s' t ->
       match err with
       | None =>
           (cmd = None /\ body = None) \/
           (exists b header,
              cmd <> None /\ body = Some b /\ length header = 4%nat /\
              bytes_read t = header ++ b /\
              Z.of_nat (length b) = int32 (Uint32 header))
       | Some _ => body = None /\ state (peer s') = stateDisconnected
       end).
Proof.
  intros handlers. split; [|split].
  - intros cmd s s1 t1 Hconn. split.
    + intros n e s2 t2 Hw.
      rewrite (@Command_after_connect handlers (Some cmd) s s1 t1 Hconn).
      rewrite (@roundtrip_write_failure cmd s1 n e s2 t2 Hw).
      split; [reflexivity | apply Close_state].
    + intros n s2 t2 r e s3 t3 Hw Hr.
      rewrite (@Command_after_connect handlers (Some cmd) s s1 t1 Hconn).
      rewrite (@roundtrip_read_failure cmd s1 n s2 t2 r e s3 t3 Hw Hr).
      split; [reflexivity | apply Close_state].
  - intros cmd s Hst.
    assert (Hne : state (peer s) <> stateConnected) by (rewrite Hst; discriminate).
    split.
    + destruct (dials (world s)) as [|[e|inc ws] ds] eqn:Hd.
      * rewrite (@Command_connect_error handlers cmd _ _ _ _
                   (@Command_connect_unreachable handlers s Hne Hd)).
        eexists _, _. reflexivity.
      * rewrite (@Command_connect_error handlers cmd _ _ _ _
                   (@Command_connect_refused handlers s e ds Hne Hd)).
        eexists _, _. reflexivity.
      * unfold Command, bind.
        rewrite (@Command_connect_accepted handlers s inc ws ds Hne Hd).
        unfold greeting.
        destruct (bind _ _ (greeted s inc ws)) as [[[e|]| |] s1 t1];
          cbn [after]; try rewrite tr_after; cbn [tr];
          rewrite <- ?app_assoc; eexists _, _; reflexivity.
    + intros inc ws ds f Hd Hcb.
      pose proof (@Command_connect_handler handlers s inc ws ds f Hst Hd Hcb) as Hc.
      destruct (greeting_quiet s inc ws) as (Hinv & _ & Hdial).
      pose proof (roundtrip_io_only cmd (snd (handlers f (greeted s inc ws)))) as Hio.
      assert (Hshape : exists rest,
                 tr (Command handlers cmd s) =
                   greeting s inc ws ++ EvCallback f :: rest /\
                 forallb is_io_event rest = true).
      { unfold Command, bind at 1. rewrite Hc.
        destruct (fst (handlers f (greeted s inc ws))) as [[]| |].
        - rewrite tr_after, <- app_assoc. eexists. split; [reflexivity | exact Hio].
        - exists []. split; reflexivity.
        - exists []. split; reflexivity. }
      destruct Hshape as (rest & Ht & Hrest). exists rest. rewrite Ht.
      split; [reflexivity|]. split.
      * rewrite invocations_app, Hinv. simpl. now rewrite (invocations_io _ Hrest).
      * rewrite dial_count_app, Hdial. unfold dial_count. simpl.
        assert (Hnone : filter (fun e => match e with
                                         | EvDial _ _ => true
                                         | _ => false
                                         end) rest = []).
        { clear Ht. induction rest as [|e rest IH]; [reflexivity|].
          simpl in Hrest. apply andb_prop in Hrest. destruct Hrest as [He Hr].
          simpl. destruct e; try discriminate; now apply IH. }
        now rewrite Hnone.
  - intros cmd s body err s' t Hlive Hrun.
    pose proof (connect_trace_no_reads handlers s) as Hnr.
    unfold Command in Hrun. apply bind_inv_val in Hrun.
    destruct Hrun as ([e|] & s1 & t1 & t2 & Hc & Hk & ->).
    + inversion Hk; subst. split; [reflexivity|].
      destruct Hlive as [Hdis | Hcon].
      * assert (Hne : state (peer s) <> stateConnected)
          by (rewrite Hdis; discriminate).
        destruct (dials (world s)) as [|[e'|inc ws] ds] eqn:Hd.
        -- rewrite (@Command_connect_unreachable handlers s Hne Hd) in Hc.
           inversion Hc; subst. exact Hdis.
        -- rewrite (@Command_connect_refused handlers s e' ds Hne Hd) in Hc.
           inversion Hc; subst. exact Hdis.
        -- destruct (connectCallback (peer s)) as [f|] eqn:Hcb.
           ++ rewrite (@Command_connect_handler handlers s inc ws ds f Hdis Hd Hcb)
                in Hc.
              destruct (fst (handlers f (greeted s inc ws))) as [[]| |];
                discriminate.
           ++ rewrite (@Command_connect_no_handler handlers s inc ws ds Hdis Hd Hcb)
                in Hc. discriminate.
      * rewrite (Command_connect_connected handlers s Hcon) in Hc. discriminate.
    + rewrite Hc in Hnr. cbn [tr] in Hnr.
      destruct cmd as [c|].
      2:{ inversion Hk; subst. now left. }
      pose proof (roundtrip_all_or_nothing _ _ Hk) as H.
      destruct err as [e|]; [exact H|].
      destruct H as (b & header & Hb & Hlen & Hbytes & Hsz).
      right. exists b, header. repeat split; try assumption.
      * discriminate.
      * now rewrite bytes_read_app, Hnr.
Qed.

(** C5 on a server that truncates its first answer and serves the second:
    the first call fails and disconnects, the second one reconnects,
    invokes handler 0 once and returns the body. *)
Lemma failure_disconnects_and_next_call_reconnects_witness :
  out (Command idle_handlers (Some ping) (mkSys fresh_peer flaky_then_pong)) =
    Val (None, Some ErrUnexpectedEOF) /\
  state (peer after_failure) = stateDisconnected /\
  invocations (tr (Command idle_handlers (Some ping) after_failure)) = [0%nat] /\
  dial_count (tr (Command idle_handlers (Some ping) after_failure)) = 1%nat /\
  out (Command idle_handlers (Some ping) after_failure) = Val (Some PONG, None).
Proof.
  assert (Hst : state (peer after_failure) = stateDisconnected)
    by (vm_compute; reflexivity).
  destruct (proj2 (proj1 (proj2
              (failure_disconnects_and_next_call_reconnects idle_handlers))
              (Some ping) after_failure Hst)
              pong_stream [] [] 0%nat
              ltac:(vm_compute; reflexivity) ltac:(vm_compute; reflexivity))
    as (rest & _ & Hinv & Hdial).
  split; [vm_compute; reflexivity|].
  split; [exact Hst|].
  split; [exact Hinv|].
  split; [exact Hdial|].
  vm_compute. reflexivity.
Defined.

(* ------------------------------------------------------------------ *)
(** ** The nil command *)

(** C7, on the code.  [Command(nil)] on a fresh instance returns the
    dial's error when the connection is refused; and when the handler
    closes the instance it returns no error but leaves the instance
    Disconnected, its connection closed. *)
Lemma nil_command_can_fail :
  out (Command idle_handlers None (mkSys fresh_peer refusing_network)) =
    Val (None, Some (ErrNet 111)) /\
  out (Command closing_handlers None (mkSys fresh_peer silent_server)) =
    Val (None, None) /\
  state (peer (st (Command closing_handlers None (mkSys fresh_peer silent_server))))
    = stateDisconnected /\
  option_map closed
    (conn (peer (st (Command closing_handlers None (mkSys fresh_peer silent_server)))))
    = Some true.
Proof. repeat split. Qed.

(** C7, amended.  [Command(nil)] writes no payload and reads no frame.
    On a Connected instance it does nothing at all and returns an empty
    result and no error.  Otherwise it calls [Connect]: when the dial
    fails it returns the dial's error and leaves the instance as it was;
    when the dial succeeds it sets the state to Connected, writes the
    preamble on the new connection, invokes the handler if the state was
    Disconnected and, when the handler returns, returns an empty result
    and no error.  The instance is then as the handler left it: Connected
    with the connection open unless the handler changed that. *)
Theorem nil_command_probe :
  forall handlers s,
    (state (peer s) = stateConnected ->
       Command handlers None s = mkRes (Val (None, None)) s []) /\
    (state (peer s) <> stateConnected ->
       (dials (world s) = [] ->
          Command handlers None s =
            mkRes (Val (None, Some (ErrNet 0))) s
                  (connect_log s ++ [EvDial (addr (peer s)) false])) /\
       (forall e ds,
          dials (world s) = DialErr e :: ds ->
          Command handlers None s =
            mkRes (Val (None, Some e)) (mkSys (peer s) (dial_next (world s)))
                  (connect_log s ++ [EvDial (addr (peer s)) false])) /\
       (forall inc ws ds,
          dials (world s) = DialOk inc ws :: ds ->
          (state (peer s) <> stateDisconnected ->
             Command handlers None s =
               mkRes (Val (None, None)) (greeted s inc ws) (greeting s inc ws)) /\
          (forall f s_after,
             state (peer s) = stateDisconnected ->
             connectCallback (peer s) = Some f ->
             handlers f (greeted s inc ws) = (Val tt, s_after) ->
             Command handlers None s =
               mkRes (Val (None, None)) s_after
                     (greeting s inc ws ++ [EvCallback f])) /\
          state (peer (greeted s inc ws)) = stateConnected /\
          exists c n,
            conn (peer (greeted s inc ws)) = Some c /\ closed c = false /\
            wlog c = [(MagicV1, n)] /\ incoming c = inc)).
Proof.
  intros handlers s. split.
  - intros Hc.
    now rewrite (@Command_after_connect handlers None s s []
                   (Command_connect_connected handlers s Hc)).
  - intros Hne. split; [|split].
    + intros Hd.
      exact (@Command_connect_error handlers None _ _ _ _
               (@Command_connect_unreachable handlers s Hne Hd)).
    + intros e ds Hd.
      exact (@Command_connect_error handlers None _ _ _ _
               (@Command_connect_refused handlers s e ds Hne Hd)).
    + intros inc ws ds Hd. split; [|split; [|split]].
      * intros Hnd.
        rewrite (@Command_after_connect handlers None s _ _
                   (@Command_connect_unnotified handlers s inc ws ds Hne Hnd Hd)).
        simpl. now rewrite app_nil_r.
      * intros f s_after Hdis Hcb Hh.
        pose proof (@Command_connect_handler handlers s inc ws ds f Hdis Hd Hcb) as Hc.
        rewrite Hh in Hc. simpl in Hc.
        rewrite (@Command_after_connect handlers None s _ _ Hc).
        simpl. now rewrite app_nil_r.
      * reflexivity.
      * destruct (greeted_conn s inc ws) as (c & n & H1 & _ & H3 & H4 & H5).
        now exists c, n.
Qed.

(** C7 on a fresh instance and on the same instance once connected. *)
Lemma nil_command_probe_witness :
  Command idle_handlers None (mkSys fresh_peer silent_server) =
    mkRes (Val (None, None))
          (greeted (mkSys fresh_peer silent_server) [] [])
          (greeting (mkSys fresh_peer silent_server) [] [] ++ [EvCallback 0%nat]) /\
  Command idle_handlers None connected_once =
    mkRes (Val (None, None)) connected_once [].
Proof.
  split.
  - exact (proj1 (proj2 (proj2 (proj2 (proj2
             (nil_command_probe idle_handlers (mkSys fresh_peer silent_server))
             ltac:(discriminate))) [] [] [] eq_refl))
             0%nat _ eq_refl eq_refl eq_refl).
  - exact (proj1 (nil_command_probe idle_handlers connected_once) eq_refl).
Defined.

(* ------------------------------------------------------------------ *)
(** ** The invariant of state Connected *)

Lemma steady_handle_present s s' :
  steady s s' -> handle_present s -> handle_present s'.
Proof.
  intros Hs Hp Hst. destruct (steady_fields Hs) as (Hstate & _).
  destruct Hs as (_ & _ & Hh). rewrite Hstate in Hst. specialize (Hp Hst).
  destruct (conn (peer s)), (conn (peer s')); simpl in Hh; congruence || tauto.
Qed.

Lemma steady_preamble_attempted s s' :
  steady s s' -> preamble_attempted s -> preamble_attempted s'.
Proof.
  intros Hs Hp Hst. destruct (steady_fields Hs) as (Hstate & _).
  destruct Hs as (_ & _ & Hh). rewrite Hstate in Hst.
  destruct (Hp Hst) as (c & n & more & Hc & Hw). rewrite Hc in Hh.
  destruct (conn (peer s')) as [c'|]; simpl in Hh; [|contradiction].
  destruct Hh as (_ & _ & extra & Hw'). exists c', n, (more ++ extra).
  split; [reflexivity|]. now rewrite Hw', Hw.
Qed.

Lemma disconnected_handle_present s :
  state (peer s) <> stateConnected -> handle_present s.
Proof. intros Hne Hst. contradiction. Qed.

Lemma disconnected_preamble_attempted s :
  state (peer s) <> stateConnected -> preamble_attempted s.
Proof. intros Hne Hst. contradiction. Qed.

(** [Command] keeps any property of the system that holds of every
    instance that is not Connected, holds of the instance as the handler
    is about to see it, survives socket I/O on the held connection, and
    that the handlers keep. *)
Lemma Command_keeps (P : Sys -> Prop) handlers :
  (forall s, state (peer s) <> stateConnected -> P s) ->
  (forall s inc ws, P (greeted s inc ws)) ->
  (forall s s', steady s s' -> P s -> P s') ->
  (forall f s, P s -> P (snd (handlers f s))) ->
  forall cmd s, P s -> P (st (Command handlers cmd s)).
Proof.
  intros Hoff Hgreet Hsteady Hh cmd s HP.
  assert (Hround : forall s1, P s1 -> P (st (Command_roundtrip cmd s1))).
  { intros s1 H1. destruct (roundtrip_steady_or_closed cmd s1) as [Hs | Hd].
    - eapply Hsteady; eassumption.
    - apply Hoff. rewrite Hd. discriminate. }
  assert (Hconn : P (st (Command_connect handlers s))).
  { destruct (Z.eq_dec (state (peer s)) stateConnected) as [Hc|Hne].
    { now rewrite (Command_connect_connected handlers s Hc). }
    destruct (dials (world s)) as [|[e|inc ws] ds] eqn:Hd.
    - now rewrite (@Command_connect_unreachable handlers s Hne Hd).
    - rewrite (@Command_connect_refused handlers s e ds Hne Hd). cbn [st].
      apply Hoff. exact Hne.
    - destruct (Z.eq_dec (state (peer s)) stateDisconnected) as [Hdis|Hnd].
      + destruct (connectCallback (peer s)) as [f|] eqn:Hcb.
        * rewrite (@Command_connect_handler handlers s inc ws ds f Hdis Hd Hcb).
          cbn [st]. apply Hh, Hgreet.
        * rewrite (@Command_connect_no_handler handlers s inc ws ds Hdis Hd Hcb).
          apply Hgreet.
      + rewrite (@Command_connect_unnotified handlers s inc ws ds Hne Hnd Hd).
        apply Hgreet. }
  unfold Command, bind.
  destruct (Command_connect handlers s) as [[[e|]| |] s1 t1]; cbn [st] in Hconn;
    try exact Hconn.
  rewrite st_after. now apply Hround.
Qed.

(** C8, on the code.  The write of the preamble can fail and its result
    is dropped: against a server whose connection fails the first write,
    [Command(nil)] leaves the instance Connected with nothing sent.  And
    [Connect], called on a Connected instance, replaces the connection by
    one on which nothing was written. *)
Lemma connected_without_preamble_sent :
  (preamble_sent (mkSys fresh_peer deaf_server) /\
   ~ preamble_sent (st (Command idle_handlers None (mkSys fresh_peer deaf_server)))) /\
  (preamble_sent connected_to_first /\
   ~ preamble_sent (st (Connect connected_to_first))).
Proof.
  split; split.
  - intros H. discriminate.
  - intros H. destruct (H eq_refl) as (c & more & Hc & Hs).
    vm_compute in Hc. inversion Hc; subst c. discriminate.
  - intros _. eexists _, []. split; reflexivity.
  - intros H. destruct (H eq_refl) as (c & more & Hc & Hs).
    vm_compute in Hc. inversion Hc; subst c. discriminate.
Qed.

(** C8, amended.  Connected implies a connection is held: every method
    keeps it ([Connect], [Read], [Write], [Close], and [Command] when the
    handlers do).  Connected implies the first write on the held
    connection was the write of the preamble, whatever it returned:
    [Read], [Write], [Close] and [Command] keep it when the handlers do;
    both hold of every new instance. *)
Theorem connected_invariant :
  forall handlers,
    (forall s,
       handle_present s ->
       handle_present (st (Connect s)) /\
       (forall want, handle_present (st (Read want s))) /\
       (forall data, handle_present (st (Write data s))) /\
       handle_present (st (Close s))) /\
    ((forall f s, handle_present s -> handle_present (snd (handlers f s))) ->
     forall cmd s, handle_present s -> handle_present (st (Command handlers cmd s))) /\
    (forall s,
       preamble_attempted s ->
       (forall want, preamble_attempted (st (Read want s))) /\
       (forall data, preamble_attempted (st (Write data s))) /\
       preamble_attempted (st (Close s))) /\
    ((forall f s, preamble_attempted s -> preamble_attempted (snd (handlers f s))) ->
     forall cmd s,
       preamble_attempted s -> preamble_attempted (st (Command handlers cmd s))) /\
    (forall address limit lg cb w,
       handle_present (mkSys (NewLookupPeer address limit lg cb) w) /\
       preamble_attempted (mkSys (NewLookupPeer address limit lg cb) w)).
Proof.
  intros handlers. split; [|split; [|split; [|split]]].
  - intros s Hp. split; [|split; [|split]].
    + destruct (Connect_cases s) as [(e & w & t & -> & _) | (inc & ws & ds & _ & ->)].
      * exact Hp.
      * intros _. discriminate.
    + intros want. exact (steady_handle_present (proj1 (quiet_Read want s)) Hp).
    + intros data. exact (steady_handle_present (proj1 (quiet_Write data s)) Hp).
    + apply disconnected_handle_present. rewrite Close_state. discriminate.
  - intros Hh. apply Command_keeps.
    + apply disconnected_handle_present.
    + intros s inc ws _. destruct (greeted_conn s inc ws) as (c & n & Hc & _).
      rewrite Hc. discriminate.
    + apply steady_handle_present.
    + exact Hh.
  - intros s Hp. split; [|split].
    + intros want. exact (steady_preamble_attempted (proj1 (quiet_Read want s)) Hp).
    + intros data. exact (steady_preamble_attempted (proj1 (quiet_Write data s)) Hp).
    + apply disconnected_preamble_attempted. rewrite Close_state. discriminate.
  - intros Hh. apply Command_keeps.
    + apply disconnected_preamble_attempted.
    + intros s inc ws _.
      destruct (greeted_conn s inc ws) as (c & n & Hc & _ & _ & Hw & _).
      now exists c, n, [].
    + apply steady_preamble_attempted.
    + exact Hh.
  - intros address limit lg cb w. split; intros H; discriminate.
Qed.

(** C8 on the instance after the PING/PONG exchange. *)
Lemma connected_invariant_witness :
  handle_present (st (Command idle_handlers (Some ping) (mkSys fresh_peer pong_server))) /\
  preamble_attempted
    (st (Command idle_handlers (Some ping) (mkSys fresh_peer pong_server))).
Proof.
  pose proof (connected_invariant idle_handlers) as (_ & Hh & _ & Hp & Hnew).
  destruct (Hnew "127.0.0.1:4160"%string 1024 None (Some 0%nat) pong_server)
    as [H1 H2].
  split.
  - exact (Hh (fun _ _ H => H) (Some ping) _ H1).
  - exact (Hp (fun _ _ H => H) (Some ping) _ H2).
Defined.

(* ------------------------------------------------------------------ *)
(** ** A well-formed frame *)

(** C2.  For a declared length [n] with [0 <= n <= limit]: when the
    stream supplies the four-byte header and then at least [n] bytes, in
    bursts of any sizes, the frame reader returns exactly those [n]
    bytes; so it does when it reads them through the instance, and a
    [Command] that is connected and has written its command returns them
    and stays Connected.  When the stream ends before [n] bytes, the
    frame reader returns the error of the full read and no body. *)
Theorem frame_returns_declared_body :
  forall (limit : Z) (i : stream) (header body rest : bytes),
    length header = 4%nat ->
    int32 (Uint32 header) = Z.of_nat (length body) ->
    Z.of_nat (length body) <= limit ->
    (available i = header ++ body ++ rest ->
       out (readResponseBounded limit i) = Val (Some body, None) /\
       (forall sys, open_on sys i ->
          out (readResponseBounded limit sys) = Val (Some body, None)) /\
       (forall handlers cmd s s1 t1 s2 n t2,
          Command_connect handlers s = mkRes (Val None) s1 t1 ->
          WriteTo cmd s1 = mkRes (Val (n, None)) s2 t2 ->
          open_on s2 i ->
          maxBodySize (peer s2) = limit ->
          out (Command handlers (Some cmd) s) = Val (Some body, None) /\
          state (peer (st (Command handlers (Some cmd) s))) = state (peer s2))) /\
    (forall part,
       ends_cleanly i = true ->
       available i = header ++ part ->
       (length part < length body)%nat ->
       out (readResponseBounded limit i) =
         Val (None, Some (match part with
                          | [] => EOF
                          | _ :: _ => ErrUnexpectedEOF
                          end))).
Proof.
  intros limit i header body rest Hlen Hsize Hlim. split.
  - intros Hav.
    destruct (@stream_frame_body limit i header (body ++ rest) Hlen Hav body rest
                Hsize ltac:(lia) eq_refl) as (i2 & H).
    assert (Hsys : forall sys, open_on sys i ->
                     out (readResponseBounded limit sys) = Val (Some body, None)).
    { intros sys Ho.
      destruct (@mirrors_readResponseBounded limit sys i Ho) as (Hout & _).
      rewrite Hout. now rewrite H. }
    split; [now rewrite H|]. split; [exact Hsys|].
    intros handlers cmd s s1 t1 s2 n t2 Hconn Hw Ho Hmax.
    rewrite (@Command_after_connect handlers (Some cmd) s s1 t1 Hconn).
    unfold Command_roundtrip. rewrite (bind_val _ Hw). cbn beta iota.
    rewrite bind_get, Hmax.
    pose proof (Hsys s2 Ho) as Hout.
    pose proof (proj1 (quiet_readResponseBounded limit s2)) as Hsteady.
    destruct (readResponseBounded limit s2) as [o s3 t3] eqn:Hr.
    cbn [out st] in Hout, Hsteady. subst o.
    rewrite (bind_val _ Hr). cbn beta iota.
    rewrite !out_after, !st_after. split; [reflexivity|].
    apply (steady_fields Hsteady).
  - intros part Hclean Hav Hshort.
    destruct (@stream_frame_short limit i header part Hlen Hav Hclean
                ltac:(lia) ltac:(lia)) as (i2 & H).
    now rewrite H.
Qed.

(** C2 on the frame [00 00 00 04 "PONG"] delivered in three bursts. *)
Lemma frame_returns_declared_body_witness :
  out (readResponseBounded 1024 pong_stream) = Val (Some PONG, None) /\
  out (Command idle_handlers (Some ping) (mkSys fresh_peer pong_server)) =
    Val (Some PONG, None).
Proof.
  destruct (proj1 (@frame_returns_declared_body 1024 pong_stream
                     [x00; x00; x00; x04]%byte PONG [] eq_refl eq_refl
                     ltac:(discriminate)) eq_refl) as (Hstream & _ & Hcmd).
  split; [exact Hstream|].
  pose (s0 := mkSys fresh_peer pong_server).
  pose (r1 := Command_connect idle_handlers s0).
  pose (r2 := @WriteTo Sys _ ping (st r1)).
  assert (H1 : r1 = mkRes (Val None) (st r1) (tr r1)) by (vm_compute; reflexivity).
  assert (H2 : r2 = mkRes (Val (5, None)) (st r2) (tr r2)) by (vm_compute; reflexivity).
  assert (Ho : open_on (st r2) pong_stream)
    by (eexists; split; [vm_compute; reflexivity | split; reflexivity]).
  exact (proj1 (Hcmd idle_handlers ping s0 (st r1) (tr r1) (st r2) 5 (tr r2)
                  H1 H2 Ho eq_refl)).
Defined.

(* ------------------------------------------------------------------ *)
(** ** Termination *)

Lemma stream_ReadFull_returns n (i : stream) :
  exists v i', io_ReadFull n i = mkRes (Val v) i' [].
Proof.
  destruct (le_lt_dec n (length (available i))) as [Hle|Hlt].
  - pose proof (firstn_skipn n (available i)) as Hsplit. symmetry in Hsplit.
    destruct (stream_ReadFull_ok i _ _ Hsplit) as (i' & Hrun & _).
    rewrite length_firstn, Nat.min_l in Hrun by exact Hle.
    eexists _, _. exact Hrun.
  - destruct (@stream_ReadFull_short i n Hlt) as (i' & Hrun).
    eexists _, _. exact Hrun.
Qed.

Lemma out_bind_diverge S A B (m : M S A) (f : A -> M S B) s :
  out (bind m f s) = Diverge ->
  out (m s) = Diverge \/
  exists a s1 t1, m s = mkRes (Val a) s1 t1 /\ out (f a s1) = Diverge.
Proof.
  unfold bind. destruct (m s) as [[a| |] s1 t1]; simpl.
  - rewrite out_after. intros H. right. exists a, s1, t1. split; [reflexivity | exact H].
  - discriminate.
  - now left.
Qed.

(** A full read through the instance never spins: a nil handle panics at
    once, a closed one fails at once, an open one is a stream. *)
Lemma ReadFull_returns size (s : Sys) : out (io_ReadFull size s) <> Diverge.
Proof.
  destruct (conn (peer s)) as [c|] eqn:Hc.
  - destruct (closed c) eqn:Hcl.
    + unfold io_ReadFull, io_ReadAtLeast. rewrite Nat.ltb_irrefl, bind_get.
      cbn [patience LookupPeer_Reader]. rewrite Hc.
      intros H. apply out_bind_diverge in H.
      destruct H as [H | (a & s1 & t1 & _ & H)].
      * revert H. cbn [ReadAtLeast_loop length].
        destruct (0 <? size)%nat; [|discriminate]. cbn [andb is_nil].
        unfold bind. cbn [io_Read LookupPeer_Reader].
        rewrite (@Read_some s c _ Hc). unfold conn_Read. rewrite Hcl.
        cbn [fst snd]. rewrite out_after.
        destruct (length (incoming c)); simpl; rewrite andb_false_r; discriminate.
      * revert H. destruct a as [acc err].
        destruct (size <=? length acc)%nat; [discriminate|].
        destruct (0 <? length acc)%nat; [destruct err as [[]|]|]; discriminate.
    + assert (Ho : open_on s (incoming c)) by (now exists c).
      destruct (@mirrors_ReadFull size s (incoming c) Ho) as (Hout & _).
      destruct (stream_ReadFull_returns size (incoming c)) as (v & i' & Hrun).
      rewrite Hout, Hrun. discriminate.
  - unfold io_ReadFull, io_ReadAtLeast. rewrite Nat.ltb_irrefl, bind_get.
    cbn [patience LookupPeer_Reader]. rewrite Hc.
    intros H. apply out_bind_diverge in H.
    destruct H as [H | (a & s1 & t1 & _ & H)].
    + revert H. cbn [ReadAtLeast_loop length].
      destruct (0 <? size)%nat; [|discriminate]. cbn [andb is_nil].
      unfold bind. cbn [io_Read LookupPeer_Reader].
      rewrite (@Read_nil s _ Hc). discriminate.
    + revert H. destruct a as [acc err].
      destruct (size <=? length acc)%nat; [discriminate|].
      destruct (0 <? length acc)%nat; [destruct err as [[]|]|]; discriminate.
Qed.

Lemma readResponseBounded_returns limit (s : Sys) :
  out (readResponseBounded limit s) <> Diverge.
Proof.
  unfold readResponseBounded, binary_Read_int32. rewrite bind_assoc.
  intros H. apply out_bind_diverge in H.
  destruct H as [H | ([hd [e|]] & s1 & t1 & _ & H)].
  - exact (ReadFull_returns 4 s H).
  - rewrite bind_ret in H. discriminate.
  - rewrite bind_ret in H.
    destruct (limit <? int32 (Uint32 hd)); [discriminate|].
    apply out_bind_diverge in H.
    destruct H as [H | (size & s2 & t2 & _ & H)].
    + unfold make_bytes in H. destruct (int32 (Uint32 hd) <? 0); discriminate.
    + apply out_bind_diverge in H.
      destruct H as [H | ([buf [e|]] & s3 & t3 & _ & H)]; try discriminate.
      exact (ReadFull_returns size s2 H).
Qed.

Lemma write_slices_returns ps :
  forall total (s : Sys), out (write_slices ps total s) <> Diverge.
Proof.
  induction ps as [|p ps IH]; intros total s; simpl; [discriminate|].
  intros H. apply out_bind_diverge in H.
  destruct H as [H | ([n [e|]] & s1 & t1 & _ & H)].
  - cbn [io_Write LookupPeer_Writer] in H.
    destruct (conn (peer s)) as [c|] eqn:Hc.
    + rewrite (@Write_some s c p Hc) in H. discriminate.
    + rewrite (@Write_nil s p Hc) in H. discriminate.
  - discriminate.
  - exact (IH _ _ H).
Qed.

Lemma roundtrip_returns cmd s : out (Command_roundtrip cmd s) <> Diverge.
Proof.
  destruct cmd as [c|]; simpl; [|discriminate].
  intros H. apply out_bind_diverge in H.
  destruct H as [H | ([n [e|]] & s1 & t1 & _ & H)].
  - exact (write_slices_returns _ _ _ H).
  - rewrite bind_Close, out_after in H. discriminate.
  - rewrite bind_get in H. apply out_bind_diverge in H.
    destruct H as [H | ([r [e|]] & s2 & t2 & _ & H)].
    + exact (readResponseBounded_returns _ _ H).
    + rewrite bind_Close, out_after in H. discriminate.
    + discriminate.
Qed.

(** [Command] always ends, by a return or a panic, unless the handler it
    invokes does not. *)
Lemma Command_ends handlers cmd s :
  out (Command handlers cmd s) = Diverge ->
  exists f s0, fst (handlers f s0) = Diverge.
Proof.
  unfold Command. intros H. apply out_bind_diverge in H.
  destruct H as [H | ([e|] & s1 & t1 & _ & H)].
  - destruct (Z.eq_dec (state (peer s)) stateConnected) as [Hc|Hne].
    { rewrite (Command_connect_connected handlers s Hc) in H. discriminate. }
    destruct (dials (world s)) as [|[e|inc ws] ds] eqn:Hd.
    + rewrite (@Command_connect_unreachable handlers s Hne Hd) in H. discriminate.
    + rewrite (@Command_connect_refused handlers s e ds Hne Hd) in H. discriminate.
    + destruct (Z.eq_dec (state (peer s)) stateDisconnected) as [Hdis|Hnd].
      * destruct (connectCallback (peer s)) as [f|] eqn:Hcb.
        -- rewrite (@Command_connect_handler handlers s inc ws ds f Hdis Hd Hcb) in H.
           cbn [out] in H. exists f, (greeted s inc ws).
           destruct (fst (handlers f (greeted s inc ws))) as [[]| |];
             discriminate || reflexivity.
        -- rewrite (@Command_connect_no_handler handlers s inc ws ds Hdis Hd Hcb) in H.
           discriminate.
      * rewrite (@Command_connect_unnotified handlers s inc ws ds Hne Hnd Hd) in H.
        discriminate.
  - discriminate.
  - exfalso. exact (roundtrip_returns _ _ H).
Qed.

(* ------------------------------------------------------------------ *)
(** ** Read and Write without a connection; the calls of Connect *)

Lemma Read_returns_some s c want :
  conn (peer s) = Some c -> exists v, out (Read want s) = Val v.
Proof. intros Hc. rewrite (@Read_some s c want Hc). eexists; reflexivity. Qed.

Lemma Write_returns_some s c data :
  conn (peer s) = Some c -> exists v, out (Write data s) = Val v.
Proof. intros Hc. rewrite (@Write_some s c data Hc). eexists; reflexivity. Qed.

(** X1.  [Read] and [Write] panic on a nil dereference exactly when the
    instance holds no connection, as a new instance does; the instance is
    then untouched and nothing is called.  With a connection they return,
    and change no field of the instance but [conn]. *)
Theorem Read_Write_need_a_connection :
  forall (s : Sys) (want : nat) (data : bytes),
    (conn (peer s) = None <-> out (Read want s) = Panic NilDereference) /\
    (conn (peer s) = None <-> out (Write data s) = Panic NilDereference) /\
    (conn (peer s) = None ->
       Read want s = mkRes (Panic NilDereference) s [] /\
       Write data s = mkRes (Panic NilDereference) s []) /\
    (conn (peer s) <> None ->
       (exists v, out (Read want s) = Val v) /\
       (exists v, out (Write data s) = Val v)) /\
    set_conn None (peer (st (Read want s))) = set_conn None (peer s) /\
    set_conn None (peer (st (Write data s))) = set_conn None (peer s) /\
    (forall address limit lg cb w,
       out (Read want (mkSys (NewLookupPeer address limit lg cb) w)) =
         Panic NilDereference).
Proof.
  intros s want data.
  split; [|split; [|split; [|split; [|split; [|split]]]]].
  - split.
    + intros Hc. now rewrite (@Read_nil s want Hc).
    + destruct (conn (peer s)) as [c|] eqn:Hc; [|reflexivity].
      rewrite (@Read_some s c want Hc). discriminate.
  - split.
    + intros Hc. now rewrite (@Write_nil s data Hc).
    + destruct (conn (peer s)) as [c|] eqn:Hc; [|reflexivity].
      rewrite (@Write_some s c data Hc). discriminate.
  - intros Hc. split; [exact (@Read_nil s want Hc) | exact (@Write_nil s data Hc)].
  - destruct (conn (peer s)) as [c|] eqn:Hc; [|contradiction].
    intros _. split.
    + exact (@Read_returns_some s c want Hc).
    + exact (@Write_returns_some s c data Hc).
  - exact (proj1 (proj2 (proj1 (quiet_Read want s)))).
  - exact (proj1 (proj2 (proj1 (quiet_Write data s)))).
  - intros. reflexivity.
Qed.

Lemma connect_log_connect_only s : forallb is_connect_event (connect_log s) = true.
Proof. unfold connect_log. now destruct (l (peer s)). Qed.

(** X2.  The calls [Connect] makes are, in order, one line to the logger
    when there is a logger and none when it is nil, then one dial of
    [lp.addr]: nothing is written, read or closed.  So a connection that
    was held is not closed: on success the handle is overwritten by the
    new connection, which is open and has seen no write. *)
Theorem Connect_only_logs_and_dials :
  forall s : Sys,
    (exists ok, tr (Connect s) = connect_log s ++ [EvDial (addr (peer s)) ok]) /\
    (l (peer s) = None -> connect_log s = []) /\
    (forall lg, l (peer s) = Some lg ->
       connect_log s = [EvLog ("LOOKUP connecting to " ++ addr (peer s))]) /\
    forallb is_connect_event (tr (Connect s)) = true /\
    (out (Connect s) = Val None ->
       exists c, conn (peer (st (Connect s))) = Some c /\
                 closed c = false /\ wlog c = [] /\
                 conn_id c = dialed (world s)).
Proof.
  intros s. split; [|split; [|split; [|split]]].
  - destruct (Connect_cases s) as [(e & w & t & H & Hd) | (inc & ws & ds & Hd & H)].
    + destruct Hd as [Hd | (ds & Hd)].
      * rewrite (Connect_unreachable s Hd). eexists; reflexivity.
      * rewrite (Connect_refused s Hd). eexists; reflexivity.
    + rewrite H. eexists; reflexivity.
  - intros Hl. unfold connect_log. now rewrite Hl.
  - intros lg Hl. unfold connect_log. now rewrite Hl.
  - destruct (Connect_cases s) as [(e & w & t & H & Hd) | (inc & ws & ds & Hd & H)].
    + destruct Hd as [Hd | (ds & Hd)].
      * rewrite (Connect_unreachable s Hd). cbn [tr].
        now rewrite forallb_app, connect_log_connect_only.
      * rewrite (Connect_refused s Hd). cbn [tr].
        now rewrite forallb_app, connect_log_connect_only.
    + rewrite H. cbn [tr]. now rewrite forallb_app, connect_log_connect_only.
  - destruct (Connect_cases s) as [(e & w & t & H & Hd) | (inc & ws & ds & Hd & H)].
    + rewrite H. discriminate.
    + rewrite H. intros _. eexists. repeat split.
Qed.

(* ------------------------------------------------------------------ *)
(** ** The calls of Command *)

(** Every call of a computation satisfies [P]. *)
Lemma trace_bind (P : event -> bool) A B (m : M Sys A) (f : A -> M Sys B) :
  (forall s, forallb P (tr (m s)) = true) ->
  (forall a s, forallb P (tr (f a s)) = true) ->
  forall s, forallb P (tr (bind m f s)) = true.
Proof.
  intros Hm Hf s. specialize (Hm s). unfold bind.
  destruct (m s) as [[a| |] s1 t1]; simpl in *; try exact Hm.
  rewrite tr_after, forallb_app, Hm. apply Hf.
Qed.

Lemma Read_reads_only want s : forallb is_read_event (tr (Read want s)) = true.
Proof.
  destruct (conn (peer s)) as [c|] eqn:Hc.
  - now rewrite (@Read_some s c want Hc).
  - now rewrite (@Read_nil s want Hc).
Qed.

Lemma Write_writes_only data s : forallb is_write_event (tr (Write data s)) = true.
Proof.
  destruct (conn (peer s)) as [c|] eqn:Hc.
  - now rewrite (@Write_some s c data Hc).
  - now rewrite (@Write_nil s data Hc).
Qed.

Lemma loop_reads_only fuel :
  forall size min acc err (s : Sys),
    forallb is_read_event (tr (ReadAtLeast_loop fuel size min acc err s)) = true.
Proof.
  induction fuel as [|fuel IH]; intros size min acc err; simpl;
    destruct ((length acc <? min)%nat && is_nil err); try reflexivity.
  apply trace_bind; [apply Read_reads_only|]. intros [got err']. apply IH.
Qed.

Lemma ReadFull_reads_only size (s : Sys) :
  forallb is_read_event (tr (io_ReadFull size s)) = true.
Proof.
  unfold io_ReadFull, io_ReadAtLeast.
  destruct (size <? size)%nat; [reflexivity|]. rewrite bind_get.
  apply trace_bind; [intros s'; apply loop_reads_only|].
  intros [acc err] s'.
  destruct (size <=? length acc)%nat; [reflexivity|].
  destruct (0 <? length acc)%nat; [|reflexivity].
  destruct err as [[]|]; reflexivity.
Qed.

Lemma frame_reads_only limit (s : Sys) :
  forallb is_read_event (tr (readResponseBounded limit s)) = true.
Proof.
  unfold readResponseBounded, binary_Read_int32. revert s.
  apply trace_bind.
  - apply trace_bind; [intros s; apply ReadFull_reads_only|].
    intros [bs [e|]] s; reflexivity.
  - intros [msgSize [e|]] s; [reflexivity|].
    destruct (limit <? msgSize); [reflexivity|]. revert s.
    apply trace_bind.
    + intros s. unfold make_bytes. now destruct (msgSize <? 0).
    + intros size. apply trace_bind; [intros s; apply ReadFull_reads_only|].
      intros [buf [e|]] s; reflexivity.
Qed.

Lemma write_slices_writes_only ps :
  forall total (s : Sys),
    forallb is_write_event (tr (write_slices ps total s)) = true.
Proof.
  induction ps as [|p ps IH]; intros total; simpl; [reflexivity|].
  apply trace_bind; [intros s; apply Write_writes_only|].
  intros [n [e|]] s; [reflexivity | apply IH].
Qed.

Lemma writes_app t1 t2 : writes (t1 ++ t2) = writes t1 ++ writes t2.
Proof. apply flat_map_app. Qed.

Lemma read_count_app t1 t2 : read_count (t1 ++ t2) = (read_count t1 + read_count t2)%nat.
Proof. unfold read_count. now rewrite filter_app, length_app. Qed.

Lemma reads_have_no_writes t : forallb is_read_event t = true -> writes t = [].
Proof.
  induction t as [|e t IH]; simpl; [reflexivity|].
  intros H. apply andb_prop in H. destruct H as [He Ht].
  rewrite (IH Ht). now destruct e.
Qed.

Lemma writes_have_no_reads t : forallb is_write_event t = true -> read_count t = 0%nat.
Proof.
  induction t as [|e t IH]; [reflexivity|]. simpl.
  intros H. apply andb_prop in H. destruct H as [He Ht].
  unfold read_count in *. simpl. destruct e; try discriminate; now apply IH.
Qed.

Lemma Close_trace_cases s :
  tr (Close s) = [] \/ exists e, tr (Close s) = [EvClose e].
Proof.
  destruct (conn (peer s)) as [c|] eqn:Hc.
  - rewrite (@Close_some s c Hc). right. eexists; reflexivity.
  - rewrite (@Close_nil s Hc). now left.
Qed.

Lemma Close_no_writes_no_reads s :
  writes (tr (Close s)) = [] /\ read_count (tr (Close s)) = 0%nat.
Proof. destruct (Close_trace_cases s) as [-> | (e & ->)]; now split. Qed.

(** The writes [WriteTo] makes are the slices of the command, in order, up
    to the first one that fails. *)
Lemma write_slices_prefix ps :
  forall total (s : Sys),
    exists k, writes (tr (write_slices ps total s)) = firstn k ps.
Proof.
  induction ps as [|p ps IH]; intros total s; simpl.
  - exists 0%nat. reflexivity.
  - unfold bind. cbn [io_Write LookupPeer_Writer].
    destruct (conn (peer s)) as [c|] eqn:Hc.
    + rewrite (@Write_some s c p Hc).
      destruct (conn_Write p c) as [[n [e|]] c']; cbn [fst snd].
      * exists 1%nat. reflexivity.
      * destruct (IH (total + Z.of_nat n) (with_conn c' s)) as (k & Hk).
        exists (S k). rewrite tr_after, writes_app, Hk. reflexivity.
    + rewrite (@Write_nil s p Hc). exists 0%nat. reflexivity.
Qed.

(** The trace of a round trip: the writes of the command, then, when
    they all succeeded, the reads of the frame, then the close when either
    failed. *)
Lemma roundtrip_trace_shape c s :
  exists t_read t_close,
    tr (Command_roundtrip (Some c) s) = tr (WriteTo c s) ++ t_read ++ t_close /\
    forallb is_read_event t_read = true /\
    (t_close = [] \/ exists e, t_close = [EvClose e]) /\
    (t_read <> [] -> exists n s2 t2, WriteTo c s = mkRes (Val (n, None)) s2 t2).
Proof.
  remember (Command_roundtrip (Some c) s) as R eqn:HR.
  simpl in HR. unfold bind at 1 in HR.
  destruct (WriteTo c s) as [[[n [e|]]| |] s2 t2] eqn:Hw; cbn [tr].
  - rewrite bind_Close in HR. subst R. rewrite !tr_after. simpl.
    exists [], (tr (Close s2)). rewrite app_nil_r.
    repeat split; [apply Close_trace_cases | congruence].
  - rewrite bind_get in HR. unfold bind at 1 in HR.
    pose proof (frame_reads_only (maxBodySize (peer s2)) s2) as Hro.
    destruct (readResponseBounded (maxBodySize (peer s2)) s2)
      as [[[r [e|]]| |] s3 t3]; cbn [tr] in Hro; subst R.
    + rewrite bind_Close, !tr_after. simpl. rewrite app_nil_r.
      exists t3, (tr (Close s3)).
      repeat split; [exact Hro | apply Close_trace_cases | eauto].
    + rewrite !tr_after. simpl.
      exists t3, []. repeat split; [exact Hro | now left | eauto].
    + rewrite tr_after. cbn [tr]. exists t3, []. rewrite app_nil_r.
      repeat split; [exact Hro | now left | eauto].
    + rewrite tr_after. cbn [tr]. exists t3, []. rewrite app_nil_r.
      repeat split; [exact Hro | now left | eauto].
  - subst R. exists [], []. rewrite !app_nil_r. repeat split; [now left | congruence].
  - subst R. exists [], []. rewrite !app_nil_r. repeat split; [now left | congruence].
Qed.

Lemma roundtrip_writes c s :
  exists k, writes (tr (Command_roundtrip (Some c) s)) = firstn k (slices c).
Proof.
  destruct (roundtrip_trace_shape c s) as (t_read & t_close & Ht & Hro & Hcl & _).
  destruct (write_slices_prefix (slices c) 0 s) as (k & Hk). exists k.
  rewrite Ht, !writes_app, (reads_have_no_writes _ Hro). unfold WriteTo. rewrite Hk.
  destruct Hcl as [-> | (e & ->)]; simpl; now rewrite app_nil_r.
Qed.

Lemma dial_count_io t : forallb is_io_event t = true -> dial_count t = 0%nat.
Proof.
  induction t as [|e t IH]; [reflexivity|]. simpl.
  intros H. apply andb_prop in H. destruct H as [He Ht].
  unfold dial_count in *. simpl. destruct e; try discriminate; now apply IH.
Qed.

(** The trace of [Command] is the trace of its connect step followed by
    calls on the held connection only. *)
Lemma Command_trace_split handlers cmd s :
  exists rest,
    tr (Command handlers cmd s) = tr (Command_connect handlers s) ++ rest /\
    forallb is_io_event rest = true.
Proof.
  unfold Command, bind.
  destruct (Command_connect handlers s) as [[[e|]| |] s1 t1]; cbn [tr].
  - exists []. split; reflexivity.
  - rewrite tr_after. eexists. split; [reflexivity | apply roundtrip_io_only].
  - exists []. now rewrite app_nil_r.
  - exists []. now rewrite app_nil_r.
Qed.

(** The traces the connect step can leave. *)
Lemma connect_trace_cases handlers s :
  (state (peer s) = stateConnected /\ tr (Command_connect handlers s) = []) \/
  (state (peer s) <> stateConnected /\
   (forall inc ws ds, dials (world s) <> DialOk inc ws :: ds) /\
   tr (Command_connect handlers s) =
     connect_log s ++ [EvDial (addr (peer s)) false]) \/
  (exists inc ws ds,
     state (peer s) <> stateConnected /\
     dials (world s) = DialOk inc ws :: ds /\
     ((tr (Command_connect handlers s) = greeting s inc ws /\
       (state (peer s) <> stateDisconnected \/ connectCallback (peer s) = None)) \/
      (exists f,
         state (peer s) = stateDisconnected /\
         connectCallback (peer s) = Some f /\
         tr (Command_connect handlers s) = greeting s inc ws ++ [EvCallback f]))).
Proof.
  destruct (Z.eq_dec (state (peer s)) stateConnected) as [Hc|Hne].
  { left. split; [exact Hc|]. now rewrite (Command_connect_connected handlers s Hc). }
  right. destruct (dials (world s)) as [|[e|inc ws] ds] eqn:Hd.
  - left. split; [exact Hne|]. split; [discriminate|].
    now rewrite (@Command_connect_unreachable handlers s Hne Hd).
  - left. split; [exact Hne|]. split; [discriminate|].
    now rewrite (@Command_connect_refused handlers s e ds Hne Hd).
  - right. exists inc, ws, ds. split; [exact Hne|]. split; [reflexivity|].
    destruct (Z.eq_dec (state (peer s)) stateDisconnected) as [Hdis|Hnd].
    + destruct (connectCallback (peer s)) as [f|] eqn:Hcb.
      * right. exists f. repeat split; try assumption.
        now rewrite (@Command_connect_handler handlers s inc ws ds f Hdis Hd Hcb).
      * left. split; [|now right].
        now rewrite (@Command_connect_no_handler handlers s inc ws ds Hdis Hd Hcb).
    + left. split; [|now left].
      now rewrite (@Command_connect_unnotified handlers s inc ws ds Hne Hnd Hd).
Qed.

Lemma Close_world s : world (st (Close s)) = world s.
Proof.
  destruct (conn (peer s)) as [c|] eqn:Hc.
  - now rewrite (@Close_some s c Hc).
  - now rewrite (@Close_nil s Hc).
Qed.

(** Where a round trip leaves the instance: as reads and writes on the
    held connection leave it, possibly closed after them. *)
Lemma roundtrip_state_shape cmd s :
  steady s (st (Command_roundtrip cmd s)) \/
  exists s2, steady s s2 /\ st (Command_roundtrip cmd s) = st (Close s2).
Proof.
  destruct cmd as [c|]; [|left; apply steady_refl].
  remember (Command_roundtrip (Some c) s) as R eqn:HR.
  simpl in HR. unfold bind at 1 in HR.
  pose proof (proj1 (quiet_WriteTo c s)) as Hw.
  destruct (WriteTo c s) as [[[n [e|]]| |] s2 t2];
    cbn [st] in Hw; try (subst R; left; exact Hw).
  - rewrite bind_Close in HR. subst R. rewrite !st_after. right. now exists s2.
  - rewrite bind_get in HR. unfold bind at 1 in HR.
    pose proof (proj1 (quiet_readResponseBounded (maxBodySize (peer s2)) s2)) as Hr.
    destruct (readResponseBounded (maxBodySize (peer s2)) s2)
      as [[[r [e|]]| |] s3 t3]; cbn [st] in Hr;
      try (subst R; left; rewrite ?st_after; eapply steady_trans; eassumption).
    rewrite bind_Close in HR. subst R. rewrite !st_after. right.
    exists s3. split; [eapply steady_trans; eassumption | reflexivity].
Qed.

(** X3.  On an instance in state Connected, [Command] is the round trip
    alone: it dials nothing, invokes no handler and leaves the network as
    it was; the first thing it writes is the command, not the preamble
    (its writes are the slices of the command, up to the first failure). *)
Theorem Command_reuses_connection :
  forall handlers cmd s,
    state (peer s) = stateConnected ->
    Command handlers cmd s = Command_roundtrip cmd s /\
    dial_count (tr (Command handlers cmd s)) = 0%nat /\
    invocations (tr (Command handlers cmd s)) = [] /\
    world (st (Command handlers cmd s)) = world s /\
    (forall c, cmd = Some c ->
       exists k, writes (tr (Command handlers cmd s)) = firstn k (slices c)).
Proof.
  intros handlers cmd s Hc.
  assert (HC : Command handlers cmd s = Command_roundtrip cmd s).
  { rewrite (@Command_after_connect handlers cmd s s []
               (Command_connect_connected handlers s Hc)).
    apply after_nil. }
  rewrite HC. pose proof (roundtrip_io_only cmd s) as Hio.
  split; [reflexivity|]. split; [now apply dial_count_io|].
  split; [now apply invocations_io|]. split.
  - destruct (roundtrip_state_shape cmd s) as [Hs | (s2 & Hs & ->)].
    + apply Hs.
    + rewrite Close_world. apply Hs.
  - intros c ->. apply roundtrip_writes.
Qed.

(** X3 on the second exchange over one connection: no dial, no handler,
    and the second answer comes back. *)
Lemma Command_reuses_connection_witness :
  dial_count (tr (Command idle_handlers (Some ping) after_pong)) = 0%nat /\
  invocations (tr (Command idle_handlers (Some ping) after_pong)) = [] /\
  out (Command idle_handlers (Some ping) after_pong) = Val (Some OK, None).
Proof.
  destruct (@Command_reuses_connection idle_handlers (Some ping) after_pong
              ltac:(vm_compute; reflexivity)) as (_ & Hd & Hi & _).
  split; [exact Hd|]. split; [exact Hi|]. vm_compute. reflexivity.
Defined.

(** X4.  On an instance whose state is neither Connected nor Disconnected
    (a zero-valued struct is in [stateInit]), [Command] connects, sets the
    state to Connected and writes the preamble, but does not invoke the
    handler: it goes straight on to the round trip, whatever the handlers
    are, and a nil handler is harmless. *)
Theorem unnotified_first_connect :
  forall handlers cmd s inc ws ds,
    state (peer s) <> stateConnected ->
    state (peer s) <> stateDisconnected ->
    dials (world s) = DialOk inc ws :: ds ->
    Command handlers cmd s =
      after (greeting s inc ws) (Command_roundtrip cmd (greeted s inc ws)) /\
    invocations (tr (Command handlers cmd s)) = [] /\
    state (peer (greeted s inc ws)) = stateConnected /\
    (exists more, writes (tr (Command handlers cmd s)) = MagicV1 :: more) /\
    (forall handlers', Command handlers' cmd s = Command handlers cmd s).
Proof.
  intros handlers cmd s inc ws ds Hne Hnd Hd.
  assert (HC : forall h, Command h cmd s =
             after (greeting s inc ws) (Command_roundtrip cmd (greeted s inc ws))).
  { intros h.
    exact (@Command_after_connect h cmd s _ _
             (@Command_connect_unnotified h s inc ws ds Hne Hnd Hd)). }
  rewrite (HC handlers). split; [reflexivity|].
  destruct (greeting_quiet s inc ws) as (Hinv & _ & _).
  split; [|split; [reflexivity | split]].
  - rewrite tr_after, invocations_app, Hinv.
    now rewrite (invocations_io _ (roundtrip_io_only cmd (greeted s inc ws))).
  - rewrite tr_after, writes_app. unfold greeting, connect_log.
    destruct (l (peer s)); simpl; eexists; reflexivity.
  - intros h'. now rewrite (HC h').
Qed.

(** X4 on a zero-valued instance with no handler: the exchange succeeds. *)
Lemma unnotified_first_connect_witness :
  out (Command idle_handlers (Some ping)
         (mkSys (zero_peer "127.0.0.1:4160" 1024) pong_server))
    = Val (Some PONG, None) /\
  invocations (tr (Command idle_handlers (Some ping)
                     (mkSys (zero_peer "127.0.0.1:4160" 1024) pong_server))) = [].
Proof.
  destruct (@unnotified_first_connect idle_handlers (Some ping)
              (mkSys (zero_peer "127.0.0.1:4160" 1024) pong_server)
              pong_stream [] [] ltac:(discriminate) ltac:(discriminate) eq_refl)
    as (_ & Hi & _).
  split; [vm_compute; reflexivity | exact Hi].
Defined.

(** X5.  Whatever the instance, the command and the outcome, one
    [Command] dials at most once (exactly once unless the state is
    Connected: there is no retry) and invokes at most one handler; a
    handler that runs is the instance's own, the state was Disconnected
    and the dial had succeeded. *)
Theorem Command_dials_and_notifies_at_most_once :
  forall handlers cmd s,
    (dial_count (tr (Command handlers cmd s)) <= 1)%nat /\
    (state (peer s) <> stateConnected <->
     dial_count (tr (Command handlers cmd s)) = 1%nat) /\
    (length (invocations (tr (Command handlers cmd s))) <= 1)%nat /\
    (forall f, In f (invocations (tr (Command handlers cmd s))) ->
       state (peer s) = stateDisconnected /\
       connectCallback (peer s) = Some f /\
       exists inc ws ds, dials (world s) = DialOk inc ws :: ds).
Proof.
  intros handlers cmd s.
  destruct (Command_trace_split handlers cmd s) as (rest & Ht & Hio).
  rewrite Ht, dial_count_app, invocations_app.
  rewrite (dial_count_io _ Hio), (invocations_io _ Hio), app_nil_r, Nat.add_0_r.
  assert (Hlog : dial_count (connect_log s) = 0%nat /\ invocations (connect_log s) = []).
  { unfold connect_log. now destruct (l (peer s)). }
  destruct Hlog as [Hl1 Hl2].
  destruct (connect_trace_cases handlers s)
    as [[Hc ->] | [(Hne & _ & ->) | (inc & ws & ds & Hne & Hd & Hcase)]].
  - cbn. split; [lia|]. split; [split; [intros H; contradiction | discriminate]|].
    split; [lia|]. intros f [].
  - rewrite dial_count_app, invocations_app, Hl1, Hl2. cbn.
    split; [lia|]. split; [split; [reflexivity | intros _; exact Hne]|].
    split; [lia|]. intros f [].
  - destruct (greeting_quiet s inc ws) as (Hinv & _ & Hdial).
    destruct Hcase as [[-> _] | (f & Hdis & Hcb & ->)].
    + rewrite Hinv, Hdial. cbn.
      split; [lia|]. split; [split; [reflexivity | intros _; exact Hne]|].
      split; [lia|]. intros f [].
    + rewrite dial_count_app, invocations_app, Hinv, Hdial. cbn.
      split; [lia|]. split; [split; [reflexivity | intros _; exact Hne]|].
      split; [lia|].
      intros f' [<- | []]. repeat split; try assumption. now exists inc, ws, ds.
Qed.

(* ------------------------------------------------------------------ *)
(** ** After an error *)

Lemma with_conn_same s c : conn (peer s) = Some c -> with_conn c s = s.
Proof.
  intros Hc. destruct s as [[] ?]. unfold with_conn, set_conn. simpl in *.
  now subst.
Qed.

Lemma steady_conn_some s s' c :
  steady s s' -> conn (peer s) = Some c ->
  exists c', conn (peer s') = Some c' /\ closed c' = closed c /\
             conn_id c' = conn_id c.
Proof.
  intros (_ & _ & Hh) Hc. rewrite Hc in Hh.
  destruct (conn (peer s')) as [c'|]; simpl in Hh; [|contradiction].
  exists c'. tauto.
Qed.

Lemma steady_conn_none s s' :
  steady s s' -> conn (peer s) = None -> conn (peer s') = None.
Proof.
  intros (_ & _ & Hh) Hc. rewrite Hc in Hh.
  destruct (conn (peer s')); simpl in Hh; [contradiction | reflexivity].
Qed.

(** A write error can only come from a connection. *)
Lemma write_slices_error_has_conn ps :
  forall total (s : Sys) n e s2 t2,
    write_slices ps total s = mkRes (Val (n, Some e)) s2 t2 ->
    conn (peer s) <> None.
Proof.
  destruct ps as [|p ps]; intros total s n e s2 t2; simpl; [discriminate|].
  intros H Hc. unfold bind in H. cbn [io_Write LookupPeer_Writer] in H.
  rewrite (@Write_nil s p Hc) in H. discriminate.
Qed.

(** Without a connection the frame reader panics on its first read. *)
Lemma frame_read_without_conn limit (s : Sys) :
  conn (peer s) = None ->
  readResponseBounded limit s = mkRes (Panic NilDereference) s [].
Proof.
  intros Hc. unfold readResponseBounded, binary_Read_int32, io_ReadFull,
    io_ReadAtLeast.
  cbn [Nat.ltb Nat.leb]. rewrite !bind_assoc, bind_get.
  cbn [patience LookupPeer_Reader]. rewrite Hc.
  cbn [ReadAtLeast_loop length Nat.ltb Nat.leb andb is_nil].
  rewrite !bind_assoc. unfold bind at 1. cbn [io_Read LookupPeer_Reader].
  now rewrite (@Read_nil s _ Hc).
Qed.

(** On a closed connection a full read of at least one byte fails at once
    with the error of the closed connection. *)
Lemma ReadFull_closed size (s : Sys) c :
  conn (peer s) = Some c -> closed c = true -> (0 < size)%nat ->
  io_ReadFull size s =
    mkRes (Val ([], Some ErrClosed)) s
          [EvSetReadDeadline; EvRead size [] (Some ErrClosed)].
Proof.
  intros Hc Hcl Hsz. unfold io_ReadFull, io_ReadAtLeast.
  rewrite Nat.ltb_irrefl, bind_get. cbn [patience LookupPeer_Reader]. rewrite Hc.
  cbn [ReadAtLeast_loop length].
  replace (0 <? size)%nat with true by (symmetry; now apply Nat.ltb_lt).
  cbn [andb is_nil]. rewrite bind_assoc. unfold bind at 1.
  cbn [io_Read LookupPeer_Reader]. rewrite (@Read_some s c _ Hc).
  unfold conn_Read. rewrite Hcl. cbn [fst snd]. rewrite (with_conn_same s Hc).
  rewrite Nat.sub_0_r.
  destruct (length (incoming c)); cbn [ReadAtLeast_loop app length];
    rewrite andb_false_r; rewrite bind_ret; cbn [length];
    replace (size <=? 0)%nat with false by (symmetry; apply Nat.leb_gt; lia);
    reflexivity.
Qed.

Lemma frame_read_closed limit (s : Sys) c :
  conn (peer s) = Some c -> closed c = true ->
  readResponseBounded limit s =
    mkRes (Val (None, Some ErrClosed)) s
          [EvSetReadDeadline; EvRead 4 [] (Some ErrClosed)].
Proof.
  intros Hc Hcl. unfold readResponseBounded, binary_Read_int32.
  rewrite bind_assoc, (bind_val _ (@ReadFull_closed 4 s c Hc Hcl ltac:(lia))).
  reflexivity.
Qed.

Lemma Write_closed data (s : Sys) c :
  conn (peer s) = Some c -> closed c = true ->
  Write data s =
    mkRes (Val (0%nat, Some ErrClosed)) s
          [EvSetWriteDeadline; EvWrite data 0 (Some ErrClosed)].
Proof.
  intros Hc Hcl. rewrite (@Write_some s c data Hc). unfold conn_Write.
  rewrite Hcl. cbn [fst snd]. now rewrite (with_conn_same s Hc).
Qed.

Lemma Read_closed want (s : Sys) c :
  conn (peer s) = Some c -> closed c = true ->
  Read want s =
    mkRes (Val ([], Some ErrClosed)) s
          [EvSetReadDeadline; EvRead want [] (Some ErrClosed)].
Proof.
  intros Hc Hcl. rewrite (@Read_some s c want Hc). unfold conn_Read.
  rewrite Hcl. cbn [fst snd]. now rewrite (with_conn_same s Hc).
Qed.

(** A round trip that returns an error has closed a connection. *)
Lemma roundtrip_error_closes cmd s body e s' t :
  Command_roundtrip (Some cmd) s = mkRes (Val (body, Some e)) s' t ->
  exists c t0 ec,
    conn (peer s') = Some c /\ closed c = true /\ t = t0 ++ [EvClose ec].
Proof.
  simpl. intros H. apply bind_inv_val in H.
  destruct H as ([n [ew|]] & s2 & t2 & t3 & Hw & Hk & ->).
  - rewrite bind_Close in Hk. unfold ret in Hk. simpl in Hk. inversion Hk; subst.
    pose proof (write_slices_error_has_conn _ _ _ Hw) as Hsome.
    destruct (conn (peer s)) as [c|] eqn:Hc; [|contradiction].
    destruct (steady_conn_some (proj1 (quiet_WriteTo cmd s)) Hc) as (c2 & Hc2 & _).
    rewrite Hw in Hc2. cbn [st] in Hc2.
    rewrite (Close_some _ Hc2). cbn [st tr]. eexists _, t2, _.
    split; [reflexivity|]. split; [reflexivity|]. now rewrite app_nil_r.
  - rewrite bind_get in Hk. apply bind_inv_val in Hk.
    destruct Hk as ([r [er|]] & s3 & t4 & t5 & Hr & Hk & ->); [|discriminate].
    rewrite bind_Close in Hk. unfold ret in Hk. simpl in Hk. inversion Hk; subst.
    destruct (conn (peer s2)) as [c2|] eqn:Hc2.
    2:{ rewrite (frame_read_without_conn _ _ Hc2) in Hr. discriminate. }
    destruct (steady_conn_some
                (proj1 (quiet_readResponseBounded (maxBodySize (peer s2)) s2)) Hc2)
      as (c3 & Hc3 & _).
    rewrite Hr in Hc3. cbn [st] in Hc3.
    rewrite (Close_some _ Hc3). cbn [st tr]. eexists _, (t2 ++ t4), _.
    split; [reflexivity|]. split; [reflexivity|].
    now rewrite app_nil_r, app_assoc.
Qed.

(** X6.  Once the connect step is over, every error [Command] returns
    was followed by [Close]: the call to [lp.conn.Close()] is the last
    call made, the instance is Disconnected and still holds the handle,
    now closed, so that a [Read] or [Write] on the instance fails with
    the error of the closed connection instead of touching the stream. *)
Theorem errors_leave_connection_closed :
  forall handlers cmd s s1 t1 body e s' t,
    Command_connect handlers s = mkRes (Val None) s1 t1 ->
    Command handlers (Some cmd) s = mkRes (Val (body, Some e)) s' t ->
    state (peer s') = stateDisconnected /\
    (exists c, conn (peer s') = Some c /\ closed c = true) /\
    (exists t0 ec, t = t0 ++ [EvClose ec]) /\
    (forall data, out (Write data s') = Val (0%nat, Some ErrClosed)) /\
    (forall want, out (Read want s') = Val ([], Some ErrClosed)).
Proof.
  intros handlers cmd s s1 t1 body e s' t Hconn Hrun.
  rewrite (@Command_after_connect handlers (Some cmd) s s1 t1 Hconn) in Hrun.
  destruct (Command_roundtrip (Some cmd) s1) as [o s2 t2] eqn:HR.
  simpl in Hrun. inversion Hrun; subst.
  pose proof (roundtrip_all_or_nothing _ _ HR) as [_ Hst].
  destruct (roundtrip_error_closes _ _ HR) as (c & t0 & ec & Hc & Hcl & ->).
  split; [exact Hst|]. split; [now exists c|]. split.
  - exists (t1 ++ t0), ec. now rewrite app_assoc.
  - split; intros x.
    + now rewrite (Write_closed x _ Hc Hcl).
    + now rewrite (Read_closed x _ Hc Hcl).
Qed.

(** X6 on the truncated answer: the connection is closed behind the error. *)
Lemma errors_leave_connection_closed_witness :
  state (peer after_failure) = stateDisconnected /\
  option_map closed (conn (peer after_failure)) = Some true /\
  out (Write PING after_failure) = Val (0%nat, Some ErrClosed).
Proof.
  pose (s0 := mkSys fresh_peer flaky_then_pong).
  pose (r1 := Command_connect idle_handlers s0).
  pose (r := Command idle_handlers (Some ping) s0).
  assert (H1 : r1 = mkRes (Val None) (st r1) (tr r1)) by (vm_compute; reflexivity).
  assert (H2 : r = mkRes (Val (None, Some ErrUnexpectedEOF)) (st r) (tr r))
    by (vm_compute; reflexivity).
  destruct (@errors_leave_connection_closed idle_handlers ping s0 _ _ _ _ _ _ H1 H2)
    as (Hst & (c & Hc & Hcl) & _ & Hw & _).
  split; [exact Hst|]. split; [|exact (Hw PING)].
  change after_failure with (st r). now rewrite Hc, <- Hcl.
Defined.

(** X7.  When the write of the command fails, [Command] makes no read:
    after the connect step its calls are the writes up to the failing
    one and the close, and the error returned is the write's. *)
Theorem failed_write_skips_the_read :
  forall handlers cmd s s1 t1 n e s2 t2,
    Command_connect handlers s = mkRes (Val None) s1 t1 ->
    WriteTo cmd s1 = mkRes (Val (n, Some e)) s2 t2 ->
    Command handlers (Some cmd) s =
      mkRes (Val (None, Some e)) (st (Close s2)) (t1 ++ t2 ++ tr (Close s2)) /\
    read_count (t2 ++ tr (Close s2)) = 0%nat /\
    forallb is_write_event t2 = true /\
    (exists k, writes t2 = firstn (S k) (slices cmd)) /\
    exists ec, tr (Close s2) = [EvClose ec].
Proof.
  intros handlers cmd s s1 t1 n e s2 t2 Hconn Hw.
  pose proof (write_slices_writes_only (slices cmd) 0 s1) as Hwo.
  destruct (write_slices_prefix (slices cmd) 0 s1) as (k & Hk).
  pose proof (write_slices_error_has_conn _ _ _ Hw) as Hsome.
  unfold WriteTo in Hw. rewrite Hw in Hwo, Hk. cbn [tr] in Hwo, Hk.
  split; [|split; [|split; [exact Hwo | split]]].
  - rewrite (@Command_after_connect handlers (Some cmd) s s1 t1 Hconn).
    now rewrite (@roundtrip_write_failure cmd s1 n e s2 t2 Hw).
  - rewrite read_count_app, (writes_have_no_reads _ Hwo).
    now rewrite (proj2 (Close_no_writes_no_reads s2)).
  - destruct k as [|k]; [|now exists k].
    exfalso. destruct (slices cmd) as [|p ps]; [discriminate|].
    simpl in Hw. unfold bind in Hw. cbn [io_Write LookupPeer_Writer] in Hw.
    destruct (conn (peer s1)) as [c|] eqn:Hc; [|contradiction].
    rewrite (@Write_some s1 c p Hc) in Hw.
    destruct (conn_Write p c) as [[m [ew|]] c']; cbn [fst snd] in Hw.
    + inversion Hw; subst. simpl in Hk. discriminate.
    + apply (f_equal (@tr _ _)) in Hw. rewrite tr_after in Hw. cbn [tr] in Hw.
      subst t2. simpl in Hk. discriminate.
  - destruct (conn (peer s1)) as [c|] eqn:Hc; [|contradiction].
    destruct (steady_conn_some (proj1 (quiet_WriteTo cmd s1)) Hc) as (c2 & Hc2 & _).
    unfold WriteTo in Hc2. rewrite Hw in Hc2. cbn [st] in Hc2.
    rewrite (Close_some _ Hc2). eexists; reflexivity.
Qed.

(** X7 against a server that accepts the preamble and fails the next
    write: nothing is read. *)
Lemma failed_write_skips_the_read_witness :
  out (Command idle_handlers (Some ping)
         (mkSys fresh_peer (mkWorld [DialOk pong_stream [WrOk; WrFail 2 (ErrNet 32)]] 0)))
    = Val (None, Some (ErrNet 32)) /\
  read_count (tr (Command idle_handlers (Some ping)
         (mkSys fresh_peer (mkWorld [DialOk pong_stream [WrOk; WrFail 2 (ErrNet 32)]] 0))))
    = 0%nat.
Proof.
  pose (s0 := mkSys fresh_peer (mkWorld [DialOk pong_stream [WrOk; WrFail 2 (ErrNet 32)]] 0)).
  pose (r1 := Command_connect idle_handlers s0).
  pose (r2 := @WriteTo Sys _ ping (st r1)).
  assert (H1 : r1 = mkRes (Val None) (st r1) (tr r1)) by (vm_compute; reflexivity).
  assert (H2 : r2 = mkRes (Val (2, Some (ErrNet 32))) (st r2) (tr r2))
    by (vm_compute; reflexivity).
  destruct (@failed_write_skips_the_read idle_handlers ping s0 _ _ _ _ _ _ H1 H2)
    as (Hrun & _).
  fold s0. rewrite Hrun. split; [reflexivity | vm_compute; reflexivity].
Defined.

(** X8.  When the connect step leaves the instance with a closed
    connection, as a handler that closes the instance on its own failure
    does, [Command] with any command returns the error of the closed
    connection: nothing of the command is sent, the pending input is not
    touched, and the state ends Disconnected. *)
Theorem Command_on_closed_connection :
  forall handlers cmd s s1 t1 c,
    Command_connect handlers s = mkRes (Val None) s1 t1 ->
    conn (peer s1) = Some c ->
    closed c = true ->
    out (Command handlers (Some cmd) s) = Val (None, Some ErrClosed) /\
    state (peer (st (Command handlers (Some cmd) s))) = stateDisconnected /\
    exists c',
      conn (peer (st (Command handlers (Some cmd) s))) = Some c' /\
      wlog c' = wlog c /\ incoming c' = incoming c /\ closed c' = true.
Proof.
  intros handlers cmd s s1 t1 c Hconn Hc Hcl.
  rewrite (@Command_after_connect handlers (Some cmd) s s1 t1 Hconn).
  rewrite out_after, st_after.
  assert (HR : exists t,
             Command_roundtrip (Some cmd) s1 =
               mkRes (Val (None, Some ErrClosed)) (st (Close s1)) t).
  { destruct cmd as [[|p ps]]; unfold Command_roundtrip, WriteTo;
      cbn [slices write_slices].
    - rewrite bind_ret, bind_get, (bind_val _ (frame_read_closed _ _ Hc Hcl)).
      cbn beta iota. rewrite bind_Close. simpl. eexists; reflexivity.
    - rewrite bind_assoc, (bind_val _ (Write_closed p _ Hc Hcl)).
      cbn beta iota. rewrite bind_ret. cbn beta iota.
      rewrite bind_Close. simpl. eexists; reflexivity. }
  destruct HR as (t & ->). cbn [out st].
  split; [reflexivity|]. split; [apply Close_state|].
  rewrite Close_conn, Hc. simpl. eexists. repeat split.
Qed.

(** X8 with handlers that close the instance: the first [Command] of a
    new instance fails with the error of the closed connection. *)
Lemma Command_on_closed_connection_witness :
  out (Command closing_handlers (Some ping) (mkSys fresh_peer pong_server)) =
    Val (None, Some ErrClosed) /\
  state (peer (st (Command closing_handlers (Some ping)
                     (mkSys fresh_peer pong_server)))) = stateDisconnected.
Proof.
  pose (s0 := mkSys fresh_peer pong_server).
  pose (r1 := Command_connect closing_handlers s0).
  assert (H1 : r1 = mkRes (Val None) (st r1) (tr r1)) by (vm_compute; reflexivity).
  destruct (@Command_on_closed_connection closing_handlers ping s0 (st r1) (tr r1)
              _ H1 ltac:(vm_compute; reflexivity) eq_refl) as (Ho & Hs & _).
  split; [exact Ho | exact Hs].
Defined.

(* ------------------------------------------------------------------ *)
(** ** Exchanges on a healthy connection *)

(** On a Connected instance [Command] is its round trip. *)
Lemma Command_when_connected handlers cmd s :
  state (peer s) = stateConnected ->
  Command handlers cmd s = Command_roundtrip cmd s.
Proof.
  intros Hc.
  rewrite (@Command_after_connect handlers cmd s s []
             (Command_connect_connected handlers s Hc)).
  apply after_nil.
Qed.

Lemma with_conn_twice c c' s : with_conn c' (with_conn c s) = with_conn c' s.
Proof. now destruct s as [[] ?]. Qed.

Lemma accept_nil c : accept [] c = c.
Proof. unfold accept. simpl. rewrite app_nil_r. now destruct c. Qed.

(** On an open connection whose writes succeed, [WriteTo] writes every
    slice of the command in full, in order. *)
Lemma write_slices_accepted ps :
  forall total (s : Sys) c,
    conn (peer s) = Some c -> closed c = false -> wscript c = [] ->
    exists t,
      write_slices ps total s =
        mkRes (Val (total + Z.of_nat (length (concat ps)), None))
              (with_conn (accept ps c) s) t /\
      writes t = ps.
Proof.
  induction ps as [|p ps IH]; intros total s c Hc Hcl Hws.
  - simpl. rewrite accept_nil, (with_conn_same s Hc), Z.add_0_r.
    exists []. split; reflexivity.
  - cbn [write_slices]. unfold bind at 1. cbn [io_Write LookupPeer_Writer].
    rewrite (@Write_some s c p Hc). unfold conn_Write. rewrite Hcl, Hws.
    cbn [fst snd tl].
    destruct (IH (total + Z.of_nat (length p))
                 (with_conn (mkConn (conn_id c) (incoming c) []
                                    (wlog c ++ [(p, length p)]) false) s)
                 (mkConn (conn_id c) (incoming c) []
                         (wlog c ++ [(p, length p)]) false)
                 eq_refl eq_refl eq_refl) as (t & Hrun & Hwr).
    rewrite Hrun. cbn [after]. eexists. split.
    + f_equal.
      * f_equal. f_equal. cbn [concat]. rewrite length_app. lia.
      * rewrite with_conn_twice. f_equal.
        unfold accept. cbn [conn_id incoming wscript wlog closed map].
        now rewrite Hcl, Hws, <- app_assoc.
    + cbn [writes flat_map app]. fold (writes t). now rewrite Hwr.
Qed.

Lemma sent_accept ps c : sent (accept ps c) = sent c ++ concat ps.
Proof.
  unfold sent, accept. cbn [wlog]. rewrite map_app, concat_app. f_equal.
  induction ps as [|p ps IH]; [reflexivity|]. simpl.
  now rewrite firstn_all, IH.
Qed.

(** On a stream, a well-formed frame is consumed exactly: what follows it
    is what the stream still has to deliver. *)
Lemma stream_frame_exact limit (i : stream) header body rest :
  length header = 4%nat ->
  int32 (Uint32 header) = Z.of_nat (length body) ->
  Z.of_nat (length body) <= limit ->
  available i = header ++ body ++ rest ->
  ends_cleanly i = true \/ rest <> [] ->
  exists i2,
    readResponseBounded limit i = mkRes (Val (Some body, None)) i2 [] /\
    available i2 = rest /\
    (ends_cleanly i = true -> ends_cleanly i2 = true).
Proof.
  intros Hlen Hsize Hlim Hav Hmore.
  destruct (@stream_header i header (body ++ rest) Hlen Hav)
    as (i1 & Hrun & _ & Hrest & Hclean).
  assert (Hav1 : available i1 = body ++ rest).
  { destruct Hmore as [Hc | Hne]; [apply (Hclean Hc)|].
    destruct Hrest as [Hnil | H]; [|exact H].
    apply app_eq_nil in Hnil. destruct Hnil as [_ Hnil]. contradiction. }
  destruct (stream_ReadFull_ok i1 body rest Hav1) as (i2 & Hrun2 & Hrest2 & Hclean2).
  exists i2. split; [|split].
  - unfold readResponseBounded. rewrite (bind_val _ Hrun). simpl.
    replace (limit <? int32 (Uint32 header)) with false
      by (symmetry; apply Z.ltb_ge; lia).
    unfold make_bytes.
    replace (int32 (Uint32 header) <? 0) with false
      by (symmetry; apply Z.ltb_ge; lia).
    rewrite bind_ret, Hsize, Nat2Z.id, (bind_val _ Hrun2). reflexivity.
  - destruct Hmore as [Hc | Hne].
    + apply Hclean2, (Hclean Hc).
    + destruct Hrest2 as [Hnil | H]; [contradiction | exact H].
  - intros Hc. apply Hclean2, (Hclean Hc).
Qed.

(** One round trip on an open connection whose writes succeed, when the
    pending input starts with a well-formed frame within the limit. *)
Lemma roundtrip_on_open_connection cmd s c header body rest :
  conn (peer s) = Some c -> closed c = false -> wscript c = [] ->
  length header = 4%nat ->
  int32 (Uint32 header) = Z.of_nat (length body) ->
  Z.of_nat (length body) <= maxBodySize (peer s) ->
  available (incoming c) = header ++ body ++ rest ->
  ends_cleanly (incoming c) = true \/ rest <> [] ->
  exists c' t,
    Command_roundtrip (Some cmd) s =
      mkRes (Val (Some body, None)) (with_conn c' s) t /\
    closed c' = false /\ wscript c' = [] /\
    conn_id c' = conn_id c /\
    available (incoming c') = rest /\
    (ends_cleanly (incoming c) = true -> ends_cleanly (incoming c') = true) /\
    sent c' = sent c ++ concat (slices cmd) /\
    writes t = slices cmd.
Proof.
  intros Hc Hcl Hws Hlen Hsize Hlim Hav Hmore.
  destruct (@stream_frame_exact (maxBodySize (peer s)) (incoming c) header body rest
              Hlen Hsize Hlim Hav Hmore) as (i2 & Hframe & Hav2 & Hclean).
  destruct (write_slices_accepted (slices cmd) 0 s Hc Hcl Hws) as (tw & Hw & Hwr).
  set (s2 := with_conn (accept (slices cmd) c) s) in *.
  assert (Ho : open_on s2 (incoming c)).
  { exists (accept (slices cmd) c). repeat split. exact Hcl. }
  destruct (@mirrors_readResponseBounded (maxBodySize (peer s)) s2 (incoming c) Ho)
    as (Hout & Hst2 & Hro).
  rewrite Hframe in Hout, Hst2. cbn [out st] in Hout, Hst2.
  destruct (readResponseBounded (maxBodySize (peer s)) s2) as [o s3 t3] eqn:Hr.
  cbn [out st tr] in Hout, Hst2, Hro. subst o s3.
  set (c' := mkConn (conn_id c) i2 (wscript c)
                    (wlog c ++ map (fun p => (p, length p)) (slices cmd)) (closed c)).
  assert (Hs3 : replace_incoming i2 s2 = with_conn c' s).
  { unfold replace_incoming, s2. destruct s as [[] ?]. reflexivity. }
  exists c', (tw ++ t3).
  split; [|split; [|split; [|split; [|split; [|split; [|split]]]]]].
  - unfold Command_roundtrip, WriteTo. rewrite (bind_val _ Hw). cbn beta iota.
    rewrite bind_get.
    replace (maxBodySize (peer s2)) with (maxBodySize (peer s))
      by (unfold s2; now destruct s as [[] ?]).
    rewrite (bind_val _ Hr). cbn beta iota. unfold ret. cbn [after].
    now rewrite Hs3, app_nil_r.
  - exact Hcl.
  - exact Hws.
  - reflexivity.
  - exact Hav2.
  - exact Hclean.
  - change c' with (mkConn (conn_id (accept (slices cmd) c)) i2
                           (wscript (accept (slices cmd) c))
                           (wlog (accept (slices cmd) c))
                           (closed (accept (slices cmd) c))).
    unfold sent at 1. cbn [wlog]. fold (sent (accept (slices cmd) c)).
    apply sent_accept.
  - now rewrite writes_app, Hwr, (reads_have_no_writes _ Hro), app_nil_r.
Qed.

Lemma healthy_with_conn s c c' :
  healthy s c -> closed c' = false -> wscript c' = [] ->
  healthy (with_conn c' s) c'.
Proof.
  intros (Hst & _) Hcl Hws. unfold healthy.
  destruct s as [[] ?]. cbn in *. now repeat split.
Qed.

(** X9.  On a Connected instance whose connection is open and accepts
    its writes, when the peer's pending input starts with a well-formed
    frame within the limit, [Command] returns the body of that frame and
    the instance is as healthy as before: same connection, still open,
    the command's slices sent in full after what was sent before, and
    the pending input reduced by exactly that frame, so that the next
    [Command] reads the next frame. *)
Theorem exchange_keeps_connection_healthy :
  forall handlers cmd s c header body rest,
    healthy s c ->
    length header = 4%nat ->
    int32 (Uint32 header) = Z.of_nat (length body) ->
    Z.of_nat (length body) <= maxBodySize (peer s) ->
    available (incoming c) = header ++ body ++ rest ->
    ends_cleanly (incoming c) = true \/ rest <> [] ->
    exists c' t,
      Command handlers (Some cmd) s =
        mkRes (Val (Some body, None)) (with_conn c' s) t /\
      healthy (with_conn c' s) c' /\
      conn_id c' = conn_id c /\
      available (incoming c') = rest /\
      (ends_cleanly (incoming c) = true -> ends_cleanly (incoming c') = true) /\
      sent c' = sent c ++ concat (slices cmd) /\
      writes t = slices cmd.
Proof.
  intros handlers cmd s c header body rest Hh Hlen Hsize Hlim Hav Hmore.
  pose proof Hh as (Hst & Hc & Hcl & Hws).
  destruct (@roundtrip_on_open_connection cmd s c header body rest
              Hc Hcl Hws Hlen Hsize Hlim Hav Hmore)
    as (c' & t & Hrun & Hcl' & Hws' & Hid & Hav' & Hclean & Hsent & Hwr).
  exists c', t. rewrite (@Command_when_connected handlers (Some cmd) s Hst).
  split; [exact Hrun|]. split; [exact (@healthy_with_conn _ _ _ Hh Hcl' Hws')|].
  repeat split; assumption.
Qed.

(** X9 on the second exchange with the chatty server: the second frame
    comes back and the wire has carried the preamble and both commands. *)
Lemma exchange_keeps_connection_healthy_witness :
  exists c' t,
    Command idle_handlers (Some ping) after_pong =
      mkRes (Val (Some OK, None)) (with_conn c' after_pong) t /\
    sent c' = MagicV1 ++ PING ++ [x0a]%byte ++ PING ++ [x0a]%byte /\
    available (incoming c') = [].
Proof.
  pose (c := mkConn 0 [Rd [x00; x00; x00; x02; x4f]%byte None; Rd [x4b]%byte None] []
                    [(MagicV1, 4%nat); (PING, 4%nat); ([x0a]%byte, 1%nat)] false).
  assert (Hh : healthy after_pong c)
    by (repeat split; vm_compute; reflexivity).
  destruct (@exchange_keeps_connection_healthy idle_handlers ping after_pong c
              [x00; x00; x00; x02]%byte OK [] Hh eq_refl eq_refl
              ltac:(vm_compute; discriminate) eq_refl ltac:(left; reflexivity))
    as (c' & t & Hrun & _ & _ & Hav & _ & Hsent & _).
  exists c', t. split; [exact Hrun|]. split; [exact Hsent | exact Hav].
Defined.

(* ------------------------------------------------------------------ *)
(** ** Truncated and failing streams *)

(** A read error on the connection's stream is the error [Command]
    returns. *)
Lemma Command_read_error handlers cmd s s1 t1 n s2 t2 i r e :
  Command_connect handlers s = mkRes (Val None) s1 t1 ->
  WriteTo cmd s1 = mkRes (Val (n, None)) s2 t2 ->
  open_on s2 i ->
  out (readResponseBounded (maxBodySize (peer s2)) i) = Val (r, Some e) ->
  out (Command handlers (Some cmd) s) = Val (None, Some e) /\
  state (peer (st (Command handlers (Some cmd) s))) = stateDisconnected.
Proof.
  intros Hconn Hw Ho Hstream.
  destruct (@mirrors_readResponseBounded (maxBodySize (peer s2)) s2 i Ho)
    as (Hout & _).
  rewrite Hstream in Hout.
  destruct (readResponseBounded (maxBodySize (peer s2)) s2) as [o s3 t3] eqn:Hr.
  cbn [out] in Hout. subst o.
  rewrite (@Command_after_connect handlers (Some cmd) s s1 t1 Hconn).
  rewrite (@roundtrip_read_failure cmd s1 n s2 t2 r e s3 t3 Hw Hr).
  split; [reflexivity | apply Close_state].
Qed.

(** X10.  When the stream ends before the four bytes of the header, the
    frame reader returns [io.EOF] if it ended before the first byte and
    [io.ErrUnexpectedEOF] if it ended inside the header; no size test is
    made and no body is read.  A [Command] that is connected and has
    written its command returns that error and ends Disconnected. *)
Theorem truncated_header :
  forall (limit : Z) (i : stream),
    ends_cleanly i = true ->
    (length (available i) < 4)%nat ->
    out (readResponseBounded limit i) =
      Val (None, Some (match available i with
                       | [] => EOF
                       | _ :: _ => ErrUnexpectedEOF
                       end)) /\
    (forall handlers cmd s s1 t1 n s2 t2,
       Command_connect handlers s = mkRes (Val None) s1 t1 ->
       WriteTo cmd s1 = mkRes (Val (n, None)) s2 t2 ->
       open_on s2 i ->
       maxBodySize (peer s2) = limit ->
       out (Command handlers (Some cmd) s) =
         Val (None, Some (match available i with
                          | [] => EOF
                          | _ :: _ => ErrUnexpectedEOF
                          end)) /\
       state (peer (st (Command handlers (Some cmd) s))) = stateDisconnected).
Proof.
  intros limit i Hclean Hshort.
  assert (Hstream : out (readResponseBounded limit i) =
            Val (None, Some (match available i with
                             | [] => EOF
                             | _ :: _ => ErrUnexpectedEOF
                             end))).
  { destruct (@stream_ReadFull_short i 4 Hshort) as (i' & Hrun).
    unfold readResponseBounded, binary_Read_int32.
    rewrite bind_assoc, (bind_val _ Hrun). cbn beta iota. rewrite bind_ret.
    cbn [after out ret]. unfold short_error.
    rewrite (ends_cleanly_first_error _ Hclean). now destruct (available i). }
  split; [exact Hstream|].
  intros handlers cmd s s1 t1 n s2 t2 Hconn Hw Ho Hmax. subst limit.
  exact (@Command_read_error handlers cmd s s1 t1 n s2 t2 i _ _ Hconn Hw Ho Hstream).
Qed.

(** X10 against the silent server: it accepted the connection and closed
    it without a byte, so [Command] returns [io.EOF]. *)
Lemma truncated_header_witness :
  out (Command idle_handlers (Some ping) (mkSys fresh_peer silent_server)) =
    Val (None, Some EOF).
Proof.
  pose (s0 := mkSys fresh_peer silent_server).
  pose (r1 := Command_connect idle_handlers s0).
  pose (r2 := @WriteTo Sys _ ping (st r1)).
  assert (H1 : r1 = mkRes (Val None) (st r1) (tr r1)) by (vm_compute; reflexivity).
  assert (H2 : r2 = mkRes (Val (5, None)) (st r2) (tr r2)) by (vm_compute; reflexivity).
  assert (Ho : open_on (st r2) [])
    by (eexists; split; [vm_compute; reflexivity | split; reflexivity]).
  exact (proj1 (proj2 (@truncated_header 1024 [] eq_refl ltac:(simpl; lia))
                  idle_handlers ping s0 (st r1) (tr r1) 5 (st r2) (tr r2)
                  H1 H2 Ho eq_refl)).
Defined.

(** Past the bytes asked for, the error that ends the stream is still
    the one it was. *)
Lemma stream_loop_keeps_error (s : stream) :
  forall fuel n acc data rest,
    available s = data ++ rest ->
    rest <> [] ->
    (length s < fuel)%nat ->
    n = (length acc + length data)%nat ->
    first_error (st (ReadAtLeast_loop fuel n n acc None s)) = first_error s.
Proof.
  induction s as [|[d e] s IH]; intros fuel n acc data rest Hav Hne Hf Hn.
  - simpl in Hav. symmetry in Hav. apply app_eq_nil in Hav. tauto.
  - destruct fuel as [|fuel]; [simpl in Hf; lia|]. simpl.
    destruct (Nat.ltb_spec (length acc) n) as [Hlt|Hge]; simpl; [|reflexivity].
    replace (n - length acc)%nat with (length data) by lia.
    unfold bind at 1. cbn [io_Read stream_Reader]. unfold stream_Read. simpl.
    destruct (Nat.ltb_spec (length data) (length d)) as [Hshort|Hlong]; simpl.
    + rewrite st_after.
      destruct fuel; simpl;
        (replace (length (acc ++ firstn (length data) d) <? n)%nat with false
           by (symmetry; apply Nat.ltb_ge; rewrite length_app, length_firstn; lia));
        simpl; now destruct e.
    + rewrite st_after. destruct e as [er|].
      * simpl in Hav. exfalso.
        assert (Hl : (length d = length data + length rest)%nat)
          by (rewrite Hav, length_app; reflexivity).
        destruct rest; [contradiction | simpl in Hl; lia].
      * simpl in Hav.
        destruct (app_eq_prefix _ _ _ _ Hav Hlong) as (data' & -> & Hx').
        apply (IH fuel n (acc ++ d) data' rest Hx' Hne).
        -- simpl in Hf. lia.
        -- rewrite !length_app in *. lia.
Qed.

(** X11.  When the header and at least one byte of the body arrived and
    the stream then fails before the declared length is reached, the
    frame reader returns no body and the stream's error as it is (a reset,
    an expired deadline), except that [io.EOF] becomes
    [io.ErrUnexpectedEOF]; a [Command] that is connected and has written
    its command returns that error and ends Disconnected. *)
Theorem body_read_error_is_returned :
  forall (limit : Z) (i : stream) (header part : bytes),
    length header = 4%nat ->
    available i = header ++ part ->
    part <> [] ->
    Z.of_nat (length part) < int32 (Uint32 header) ->
    int32 (Uint32 header) <= limit ->
    out (readResponseBounded limit i) =
      Val (None, Some (match first_error i with
                       | EOF => ErrUnexpectedEOF
                       | e => e
                       end)) /\
    (forall handlers cmd s s1 t1 n s2 t2,
       Command_connect handlers s = mkRes (Val None) s1 t1 ->
       WriteTo cmd s1 = mkRes (Val (n, None)) s2 t2 ->
       open_on s2 i ->
       maxBodySize (peer s2) = limit ->
       out (Command handlers (Some cmd) s) =
         Val (None, Some (match first_error i with
                          | EOF => ErrUnexpectedEOF
                          | e => e
                          end)) /\
       state (peer (st (Command handlers (Some cmd) s))) = stateDisconnected).
Proof.
  intros limit i header part Hlen Hav Hne Hshort Hlim.
  assert (Hstream : out (readResponseBounded limit i) =
            Val (None, Some (match first_error i with
                             | EOF => ErrUnexpectedEOF
                             | e => e
                             end))).
  { destruct (@stream_header i header part Hlen Hav) as (i1 & Hrun & Hst & Hrest & _).
    destruct Hrest as [Hnil | Hav1]; [contradiction|].
    assert (Herr : first_error i1 = first_error i).
    { rewrite <- Hst. unfold io_ReadFull, io_ReadAtLeast.
      rewrite Nat.ltb_irrefl, bind_get. cbn [patience stream_Reader].
      pose proof (@stream_loop_keeps_error i (S (length i)) 4 [] header part
                    Hav Hne ltac:(lia) ltac:(simpl; lia)) as Hkeep.
      unfold bind.
      destruct (ReadAtLeast_loop (S (length i)) 4 4 [] None i)
        as [[[acc err]| |] i' t']; cbn [st] in Hkeep; try exact Hkeep.
      rewrite st_after.
      destruct (4 <=? length acc)%nat; [exact Hkeep|].
      destruct (0 <? length acc)%nat; [destruct err as [[]|]|]; exact Hkeep. }
    destruct (@stream_ReadFull_short i1 (Z.to_nat (int32 (Uint32 header))))
      as (i2 & Hrun2).
    { rewrite Hav1. lia. }
    unfold readResponseBounded. rewrite (bind_val _ Hrun). simpl.
    replace (limit <? int32 (Uint32 header)) with false
      by (symmetry; apply Z.ltb_ge; lia).
    unfold make_bytes.
    replace (int32 (Uint32 header) <? 0) with false
      by (symmetry; apply Z.ltb_ge; lia).
    rewrite bind_ret, (bind_val _ Hrun2). cbn [after out ret].
    unfold short_error. rewrite Hav1, Herr.
    destruct part; [contradiction|]. now destruct (first_error i). }
  split; [exact Hstream|].
  intros handlers cmd s s1 t1 n s2 t2 Hconn Hw Ho Hmax. subst limit.
  exact (@Command_read_error handlers cmd s s1 t1 n s2 t2 i _ _ Hconn Hw Ho Hstream).
Qed.

(** X11 on a connection reset after the header and one byte of the body. *)
Lemma body_read_error_is_returned_witness :
  out (readResponseBounded 1024 reset_stream) = Val (None, Some (ErrNet 104)) /\
  out (Command idle_handlers (Some ping)
         (mkSys fresh_peer (mkWorld [DialOk reset_stream []] 0))) =
    Val (None, Some (ErrNet 104)).
Proof.
  destruct (@body_read_error_is_returned 1024 reset_stream
              [x00; x00; x00; x04]%byte [x50]%byte eq_refl eq_refl
              ltac:(discriminate) eq_refl ltac:(discriminate)) as (Hs & _).
  split; [exact Hs | vm_compute; reflexivity].
Defined.

(* ------------------------------------------------------------------ *)
(** ** Panics *)

Lemma out_bind_panic S A B (m : M S A) (f : A -> M S B) s p :
  out (bind m f s) = Panic p ->
  out (m s) = Panic p \/
  exists a s1 t1, m s = mkRes (Val a) s1 t1 /\ out (f a s1) = Panic p.
Proof.
  unfold bind. destruct (m s) as [[a| |] s1 t1]; simpl.
  - rewrite out_after. intros H. right. exists a, s1, t1. split; [reflexivity | exact H].
  - intros H. left. now inversion H.
  - discriminate.
Qed.

Lemma steady_keeps_conn s s' :
  steady s s' -> conn (peer s) <> None -> conn (peer s') <> None.
Proof.
  intros Hs Hc. destruct (conn (peer s)) as [c|] eqn:E; [|contradiction].
  destruct (steady_conn_some Hs E) as (c' & -> & _). discriminate.
Qed.

Lemma write_slices_no_panic ps :
  forall total (s : Sys) p,
    conn (peer s) <> None -> out (write_slices ps total s) <> Panic p.
Proof.
  induction ps as [|q ps IH]; intros total s p Hc; simpl; [discriminate|].
  intros H. apply out_bind_panic in H.
  destruct (conn (peer s)) as [c|] eqn:E; [|contradiction].
  cbn [io_Write LookupPeer_Writer] in H. rewrite (@Write_some s c q E) in H.
  destruct H as [H | ([n [e|]] & s1 & t1 & Hw & H)]; try discriminate.
  inversion Hw; subst. revert H. apply IH. discriminate.
Qed.

Lemma loop_no_panic fuel :
  forall size min acc err (s : Sys) p,
    conn (peer s) <> None ->
    out (ReadAtLeast_loop fuel size min acc err s) <> Panic p.
Proof.
  induction fuel as [|fuel IH]; intros size min acc err s p Hc; simpl;
    destruct ((length acc <? min)%nat && is_nil err); try discriminate.
  intros H. apply out_bind_panic in H.
  destruct (conn (peer s)) as [c|] eqn:E; [|contradiction].
  cbn [io_Read LookupPeer_Reader] in H. rewrite (@Read_some s c _ E) in H.
  destruct H as [H | ([got err'] & s1 & t1 & Hr & H)]; [discriminate|].
  inversion Hr; subst. revert H. apply IH. discriminate.
Qed.

Lemma ReadFull_no_panic size (s : Sys) p :
  conn (peer s) <> None -> out (io_ReadFull size s) <> Panic p.
Proof.
  intros Hc. unfold io_ReadFull, io_ReadAtLeast.
  rewrite Nat.ltb_irrefl, bind_get. intros H. apply out_bind_panic in H.
  destruct H as [H | ([acc err] & s1 & t1 & _ & H)].
  - revert H. now apply loop_no_panic.
  - revert H. destruct (size <=? length acc)%nat; [discriminate|].
    destruct (0 <? length acc)%nat; [destruct err as [[]|]|]; discriminate.
Qed.

(** With a connection, the frame reader panics only in [make], on a
    negative length that the size test let through. *)
Lemma frame_panic_is_makeslice limit (s : Sys) p :
  conn (peer s) <> None ->
  out (readResponseBounded limit s) = Panic p ->
  exists n, p = MakesliceLenOutOfRange n /\ n < 0 /\ n <= limit.
Proof.
  intros Hc. unfold readResponseBounded, binary_Read_int32. rewrite bind_assoc.
  intros H. apply out_bind_panic in H.
  destruct H as [H | ([hd [e|]] & s1 & t1 & Hhd & H)].
  - exfalso. revert H. now apply ReadFull_no_panic.
  - rewrite bind_ret in H. discriminate.
  - rewrite bind_ret in H.
    destruct (Z.ltb_spec limit (int32 (Uint32 hd))); [discriminate|].
    apply out_bind_panic in H.
    destruct H as [H | (size & s2 & t2 & Hmk & H)].
    + unfold make_bytes in H.
      destruct (Z.ltb_spec (int32 (Uint32 hd)) 0); [|discriminate].
      inversion H; subst. eexists. repeat split; assumption.
    + exfalso. unfold make_bytes in Hmk.
      destruct (int32 (Uint32 hd) <? 0); [discriminate|]. inversion Hmk; subst.
      apply out_bind_panic in H.
      destruct H as [H | ([buf [e|]] & s3 & t3 & _ & H)]; try discriminate.
      revert H. apply ReadFull_no_panic.
      pose proof (proj1 (quiet_ReadFull 4 s)) as Hs. rewrite Hhd in Hs.
      exact (steady_keeps_conn Hs Hc).
Qed.

(** X12.  On a Connected instance that holds a connection, [Command] can
    panic in one way only: the response declares a negative length that
    is not above the limit, and [make] panics on it.  Neither the writes,
    nor the reads, nor [Close] panic, and no handler is involved. *)
Theorem connected_Command_panics_only_in_make :
  forall handlers cmd s p,
    state (peer s) = stateConnected ->
    conn (peer s) <> None ->
    out (Command handlers cmd s) = Panic p ->
    exists c n,
      cmd = Some c /\ p = MakesliceLenOutOfRange n /\
      n < 0 /\ n <= maxBodySize (peer s).
Proof.
  intros handlers cmd s p Hst Hc.
  rewrite (@Command_when_connected handlers cmd s Hst).
  destruct cmd as [c|]; [|discriminate]. simpl.
  intros H. apply out_bind_panic in H.
  destruct H as [H | ([n [e|]] & s2 & t2 & Hw & H)].
  - exfalso. revert H. now apply write_slices_no_panic.
  - rewrite bind_Close, out_after in H. discriminate.
  - pose proof (proj1 (quiet_WriteTo c s)) as Hs.
    rewrite Hw in Hs. cbn [st] in Hs.
    rewrite bind_get in H. apply out_bind_panic in H.
    destruct H as [H | ([r [e|]] & s3 & t3 & _ & H)].
    + destruct (frame_panic_is_makeslice _ _ (steady_keeps_conn Hs Hc) H)
        as (m & -> & Hneg & Hle).
      exists c, m. repeat split; try assumption.
      destruct (steady_fields Hs) as (_ & _ & <- & _). exact Hle.
    + rewrite bind_Close, out_after in H. discriminate.
    + discriminate.
Qed.

(** X12 on a Connected instance whose server declares a body of -1
    bytes. *)
Lemma connected_Command_panics_only_in_make_witness :
  exists c n,
    Some ping = Some c /\
    MakesliceLenOutOfRange (-1) = MakesliceLenOutOfRange n /\
    n < 0 /\
    n <= maxBodySize (peer (replace_incoming negative_stream connected_once)).
Proof.
  apply (@connected_Command_panics_only_in_make idle_handlers (Some ping)
           (replace_incoming negative_stream connected_once)
           (MakesliceLenOutOfRange (-1)));
    vm_compute; (reflexivity || discriminate).
Defined.

(* ------------------------------------------------------------------ *)
(** ** What the methods never assign *)

(** [Command] keeps any property of the system that socket I/O on the
    held connection, [Close], a dial, the greeting of a new connection
    and the handlers keep. *)
Lemma Command_preserves (P : Sys -> Prop) handlers :
  (forall s s', steady s s' -> P s -> P s') ->
  (forall s, P s -> P (st (Close s))) ->
  (forall s w, P s -> P (mkSys (peer s) w)) ->
  (forall s inc ws, P s -> P (greeted s inc ws)) ->
  (forall f s, P s -> P (snd (handlers f s))) ->
  forall cmd s, P s -> P (st (Command handlers cmd s)).
Proof.
  intros Hsteady Hclose Hworld Hgreet Hh cmd s HP.
  assert (Hround : forall s1, P s1 -> P (st (Command_roundtrip cmd s1))).
  { intros s1 H1. destruct (roundtrip_state_shape cmd s1) as [Hs | (s2 & Hs & ->)].
    - eapply Hsteady; eassumption.
    - apply Hclose. eapply Hsteady; eassumption. }
  assert (Hconn : P (st (Command_connect handlers s))).
  { destruct (Z.eq_dec (state (peer s)) stateConnected) as [Hc|Hne].
    { now rewrite (Command_connect_connected handlers s Hc). }
    destruct (dials (world s)) as [|[e|inc ws] ds] eqn:Hd.
    - now rewrite (@Command_connect_unreachable handlers s Hne Hd).
    - rewrite (@Command_connect_refused handlers s e ds Hne Hd). cbn [st].
      now apply Hworld.
    - destruct (Z.eq_dec (state (peer s)) stateDisconnected) as [Hdis|Hnd].
      + destruct (connectCallback (peer s)) as [f|] eqn:Hcb.
        * rewrite (@Command_connect_handler handlers s inc ws ds f Hdis Hd Hcb).
          cbn [st]. now apply Hh, Hgreet.
        * rewrite (@Command_connect_no_handler handlers s inc ws ds Hdis Hd Hcb).
          now apply Hgreet.
      + rewrite (@Command_connect_unnotified handlers s inc ws ds Hne Hnd Hd).
        now apply Hgreet. }
  unfold Command, bind.
  destruct (Command_connect handlers s) as [[[e|]| |] s1 t1]; cbn [st] in Hconn;
    try exact Hconn.
  rewrite st_after. now apply Hround.
Qed.

Lemma steady_config s s' : steady s s' -> config (peer s') = config (peer s).
Proof.
  intros Hs. destruct (steady_fields Hs) as (_ & H1 & H2 & H3 & H4 & H5).
  unfold config. congruence.
Qed.

Lemma Close_config s : config (peer (st (Close s))) = config (peer s).
Proof.
  destruct (conn (peer s)) as [c|] eqn:Hc.
  - rewrite (@Close_some s c Hc). now destruct s as [[] ?].
  - rewrite (@Close_nil s Hc). now destruct s as [[] ?].
Qed.

Lemma Connect_config_state s :
  config (peer (st (Connect s))) = config (peer s) /\
  state (peer (st (Connect s))) = state (peer s).
Proof.
  destruct (Connect_cases s) as [(e & w & t & -> & _) | (inc & ws & ds & _ & ->)].
  - split; reflexivity.
  - destruct s as [[] ?]. split; reflexivity.
Qed.

(** X13.  The methods assign two states only: from an instance that is
    Disconnected or Connected, [Connect], [Read], [Write], [Close] and
    [Command] (when the handlers do) leave an instance that is
    Disconnected or Connected; [stateInit], [stateSubscribed] and
    [stateClosing] are never entered.  A new instance is Disconnected. *)
Theorem states_stay_live :
  forall handlers,
    (forall s,
       live_state s ->
       live_state (st (Connect s)) /\
       (forall want, live_state (st (Read want s))) /\
       (forall data, live_state (st (Write data s))) /\
       live_state (st (Close s))) /\
    ((forall f s, live_state s -> live_state (snd (handlers f s))) ->
     forall cmd s, live_state s -> live_state (st (Command handlers cmd s))) /\
    (forall address limit lg cb w,
       live_state (mkSys (NewLookupPeer address limit lg cb) w)).
Proof.
  intros handlers.
  assert (Hsteady : forall s s', steady s s' -> live_state s -> live_state s').
  { intros s s' Hs Hl. unfold live_state in *.
    destruct (steady_fields Hs) as (-> & _). exact Hl. }
  split; [|split].
  - intros s Hl. split; [|split; [|split]].
    + unfold live_state. now rewrite (proj2 (Connect_config_state s)).
    + intros want. exact (Hsteady _ _ (proj1 (quiet_Read want s)) Hl).
    + intros data. exact (Hsteady _ _ (proj1 (quiet_Write data s)) Hl).
    + left. apply Close_state.
  - intros Hh. apply Command_preserves; try assumption.
    + intros s _. left. apply Close_state.
    + intros s w Hl. exact Hl.
    + intros s inc ws _. now right.
  - intros. now left.
Qed.

(** X13 on the PING/PONG exchange of a new instance. *)
Lemma states_stay_live_witness :
  live_state (st (Command idle_handlers (Some ping) (mkSys fresh_peer pong_server))).
Proof.
  exact (proj1 (proj2 (states_stay_live idle_handlers)) (fun _ _ H => H)
           (Some ping) (mkSys fresh_peer pong_server) (or_introl eq_refl)).
Defined.

(** X14.  No method assigns the logger, the address, the handler, the
    size limit or the [Info] record: [Connect], [Read], [Write], [Close]
    and [Command] (when the handlers do) leave them as the constructor
    set them. *)
Theorem configuration_is_never_assigned :
  forall handlers,
    (forall s,
       config (peer (st (Connect s))) = config (peer s) /\
       (forall want, config (peer (st (Read want s))) = config (peer s)) /\
       (forall data, config (peer (st (Write data s))) = config (peer s)) /\
       config (peer (st (Close s))) = config (peer s)) /\
    ((forall f s, config (peer (snd (handlers f s))) = config (peer s)) ->
     forall cmd s, config (peer (st (Command handlers cmd s))) = config (peer s)) /\
    (forall address limit lg cb,
       config (NewLookupPeer address limit lg cb) =
         (lg, address, cb, limit, mkPeerInfo 0 0 EmptyString EmptyString)).
Proof.
  intros handlers. split; [|split].
  - intros s. split; [|split; [|split]].
    + apply Connect_config_state.
    + intros want. exact (steady_config (proj1 (quiet_Read want s))).
    + intros data. exact (steady_config (proj1 (quiet_Write data s))).
    + apply Close_config.
  - intros Hh cmd s.
    apply (@Command_preserves (fun s' => config (peer s') = config (peer s)) handlers).
    + intros s1 s2 Hs H. now rewrite (steady_config Hs).
    + intros s1 H. now rewrite Close_config.
    + intros s1 w H. exact H.
    + intros s1 inc ws H. rewrite <- H. now destruct s1 as [[] ?].
    + intros f s1 H. now rewrite Hh.
    + reflexivity.
  - reflexivity.
Qed.

(** X14 on the PING/PONG exchange of a new instance. *)
Lemma configuration_is_never_assigned_witness :
  maxBodySize (peer (st (Command idle_handlers (Some ping)
                           (mkSys fresh_peer pong_server)))) = 1024 /\
  addr (peer (st (Command idle_handlers (Some ping)
                    (mkSys fresh_peer pong_server)))) = "127.0.0.1:4160"%string.
Proof.
  pose proof (proj1 (proj2 (configuration_is_never_assigned idle_handlers))
                (fun _ _ => eq_refl) (Some ping) (mkSys fresh_peer pong_server)) as H.
  split.
  - exact (f_equal (fun x => snd (fst x)) H).
  - exact (f_equal (fun x => snd (fst (fst (fst x)))) H).
Defined.

(* ------------------------------------------------------------------ *)
(** ** The first exchange, end to end *)

(** X15.  The first [Command] of a Disconnected instance with a handler,
    when the dial succeeds and the handler returns: [Command] goes on
    from the instance the handler left.  If that instance is Connected on
    an open connection whose pending input starts with a well-formed
    frame, [Command] returns its body; the command is sent after what was
    sent before (the preamble, and what the handler sent), and the calls
    are, in order: the connect log and the dial, the preamble, the
    handler, then the command's writes and the reads of the answer. *)
Theorem first_exchange_follows_the_handler :
  forall handlers cmd s f inc ws ds sh ch header body rest,
    state (peer s) = stateDisconnected ->
    connectCallback (peer s) = Some f ->
    dials (world s) = DialOk inc ws :: ds ->
    handlers f (greeted s inc ws) = (Val tt, sh) ->
    healthy sh ch ->
    length header = 4%nat ->
    int32 (Uint32 header) = Z.of_nat (length body) ->
    Z.of_nat (length body) <= maxBodySize (peer sh) ->
    available (incoming ch) = header ++ body ++ rest ->
    ends_cleanly (incoming ch) = true \/ rest <> [] ->
    exists c' t,
      Command handlers (Some cmd) s =
        mkRes (Val (Some body, None)) (with_conn c' sh)
              (greeting s inc ws ++ EvCallback f :: t) /\
      healthy (with_conn c' sh) c' /\
      sent c' = sent ch ++ concat (slices cmd) /\
      available (incoming c') = rest /\
      writes t = slices cmd /\ invocations t = [] /\ dial_count t = 0%nat.
Proof.
  intros handlers cmd s f inc ws ds sh ch header body rest
    Hst Hcb Hd Hrun Hh Hlen Hsize Hlim Hav Hmore.
  pose proof Hh as (_ & Hc & Hcl & Hws).
  destruct (@roundtrip_on_open_connection cmd sh ch header body rest
              Hc Hcl Hws Hlen Hsize Hlim Hav Hmore)
    as (c' & t & Hrt & Hcl' & Hws' & _ & Hav' & _ & Hsent & Hwr).
  pose proof (@Command_connect_handler handlers s inc ws ds f Hst Hd Hcb) as Hconn.
  rewrite Hrun in Hconn. cbn [fst snd] in Hconn.
  pose proof (roundtrip_io_only (Some cmd) sh) as Hio. rewrite Hrt in Hio.
  cbn [tr] in Hio.
  exists c', t. split; [|split; [exact (@healthy_with_conn _ _ _ Hh Hcl' Hws')|]].
  - rewrite (@Command_after_connect handlers (Some cmd) s _ _ Hconn), Hrt.
    cbn [after]. now rewrite <- app_assoc.
  - repeat split; try assumption.
    + now apply invocations_io.
    + now apply dial_count_io.
Qed.

(** X15 on the PING/PONG exchange of a new instance with a handler that
    leaves the instance alone: "PONG" comes back and the wire has carried
    the preamble and the command. *)
Lemma first_exchange_follows_the_handler_witness :
  exists c' t,
    out (Command idle_handlers (Some ping) (mkSys fresh_peer pong_server)) =
      Val (Some PONG, None) /\
    tr (Command idle_handlers (Some ping) (mkSys fresh_peer pong_server)) =
      greeting (mkSys fresh_peer pong_server) pong_stream [] ++ EvCallback 0%nat :: t /\
    sent c' = MagicV1 ++ PING ++ [x0a]%byte.
Proof.
  pose (ch := mkConn 0 pong_stream [] [(MagicV1, 4%nat)] false).
  destruct (@first_exchange_follows_the_handler idle_handlers ping
              (mkSys fresh_peer pong_server) 0%nat pong_stream [] []
              (greeted (mkSys fresh_peer pong_server) pong_stream []) ch
              [x00; x00; x00; x04]%byte PONG []
              eq_refl eq_refl eq_refl eq_refl
              ltac:(repeat split; vm_compute; reflexivity)
              eq_refl eq_refl ltac:(vm_compute; discriminate) eq_refl
              ltac:(left; reflexivity))
    as (c' & t & Hrun & _ & Hsent & _).
  exists c', t. rewrite Hrun. repeat split. exact Hsent.
Defined.

(* ------------------------------------------------------------------ *)
(** ** The address *)

Lemma io_has_no_dial t a ok : forallb is_io_event t = true -> ~ In (EvDial a ok) t.
Proof.
  intros H Hin. rewrite forallb_forall in H. specialize (H _ Hin). discriminate.
Qed.

(** The dials of the connect step are dials of [lp.addr]. *)
Lemma connect_dials_addr handlers s a ok :
  In (EvDial a ok) (tr (Command_connect handlers s)) -> a = addr (peer s).
Proof.
  intros Hin.
  destruct (connect_trace_cases handlers s)
    as [(_ & Hc) | [(_ & _ & Hc) |
        (inc & ws & ds & _ & _ & [(Hc & _) | (f & _ & _ & Hc)])]];
    rewrite Hc in Hin; unfold greeting, connect_log in Hin;
    destruct (l (peer s)); simpl in Hin;
    repeat (destruct Hin as [Hin|Hin];
            [try discriminate; now inversion Hin|]);
    contradiction.
Qed.

(** The calls of [Connect]: the log line, if any, and one dial. *)
Lemma Connect_only_dials s :
  exists ok, tr (Connect s) = connect_log s ++ [EvDial (addr (peer s)) ok].
Proof.
  destruct (Connect_cases s) as [(e & w & t & H & Hd) | (inc & ws & ds & Hd & H)].
  - destruct Hd as [Hd | (ds & Hd)].
    + rewrite (Connect_unreachable s Hd). eexists; reflexivity.
    + rewrite (Connect_refused s Hd). eexists; reflexivity.
  - rewrite H. eexists; reflexivity.
Qed.

(** X16.  [String] reports [lp.addr] and touches nothing; that address
    is the one every dial of [Connect] and of [Command] goes to, and,
    when the handlers leave it alone, [String] reports the same address
    after a [Command] as before, whatever the outcome. *)
Theorem String_is_the_dialled_address :
  forall handlers cmd s,
    (forall f s', addr (peer (snd (handlers f s'))) = addr (peer s')) ->
    LookupPeer_String s = mkRes (Val (addr (peer s))) s [] /\
    (forall a ok, In (EvDial a ok) (tr (Connect s)) ->
       out (LookupPeer_String s) = Val a) /\
    (forall a ok, In (EvDial a ok) (tr (Command handlers cmd s)) ->
       out (LookupPeer_String s) = Val a) /\
    out (LookupPeer_String (st (Command handlers cmd s))) =
      out (LookupPeer_String s).
Proof.
  intros handlers cmd s Hh. split; [reflexivity|]. split; [|split].
  - intros a ok Hin. destruct (Connect_only_dials s) as (ok' & Ht).
    rewrite Ht in Hin. unfold connect_log in Hin.
    destruct (l (peer s)); simpl in Hin;
      repeat (destruct Hin as [Hin|Hin];
              [try discriminate; now inversion Hin|]); contradiction.
  - intros a ok Hin.
    destruct (Command_trace_split handlers cmd s) as (rest & Ht & Hio).
    rewrite Ht in Hin. apply in_app_or in Hin. destruct Hin as [Hin|Hin].
    + now rewrite (@connect_dials_addr handlers s a ok Hin).
    + now destruct (@io_has_no_dial rest a ok Hio Hin).
  - change (Val (addr (peer (st (Command handlers cmd s)))) = Val (addr (peer s))
            :> outcome string).
    f_equal.
    apply (@Command_preserves (fun s' => addr (peer s') = addr (peer s)) handlers).
    + intros s1 s2 Hs H. destruct (steady_fields Hs) as (_ & _ & _ & -> & _).
      exact H.
    + intros s1 H. rewrite <- H.
      exact (f_equal (fun x => snd (fst (fst (fst x)))) (Close_config s1)).
    + intros s1 w H. exact H.
    + intros s1 inc ws H. rewrite <- H. now destruct s1 as [[] ?].
    + intros f s1 H. now rewrite Hh.
    + reflexivity.
Qed.

(** X16 on the PING/PONG exchange of a new instance. *)
Lemma String_is_the_dialled_address_witness :
  out (LookupPeer_String
         (st (Command idle_handlers (Some ping) (mkSys fresh_peer pong_server)))) =
    Val "127.0.0.1:4160"%string.
Proof.
  exact (proj2 (proj2 (proj2
           (@String_is_the_dialled_address idle_handlers (Some ping)
              (mkSys fresh_peer pong_server) (fun _ _ => eq_refl))))).
Defined.
